(** * The graph reconciliation core of the VS Code shim

    A shallow embedding of [webapp/src/shell/vscode-electron-shim.ts]:
    the module-level state, the local-edit path ([applyGraphDelta],
    [saveNodePositions]), undo/redo ([performUndo], [performRedo],
    [pushFullGraphToUI]) and the polling path ([loadAndPushGraph],
    [refreshGraphFromBackend]); further the subscription of the UI with its
    polling interval, the name of the project, and the two bridges to the
    extension host ([settingsBridge], [terminalBridge]).

    Conventions of the embedding.
    - A JS object used as a dictionary ([Graph.nodes]) is a [gmap string _]
      of its own properties; [Object.keys] enumerates it in the order of
      [map_to_list]. Where the code tests a property read for truthiness
      ([saveNodePositions]), the names inherited from [Object.prototype]
      count as well.
    - A JS string is a [string]; [.length] is [String.length].
    - JS arrays are lists; [push] appends at the end, [pop] removes the last
      element and [shift] the first one.
    - [structuredClone] is the identity: values of the embedding are
      immutable, so a copy and its original cannot be told apart.
    - Every [async] function runs to completion without interleaving; the
      effects it has on the outside world (HTTP requests, calls of the UI
      callback, timers) are appended to a trace. Where a property depends
      on what other calls may do while a function waits, the stretch of
      code before or after the [await] is a definition of its own, and the
      property is stated for that stretch started in any state.
    - Coordinates are JS numbers that are only stored and copied; they are
      integers here. Console output is not part of the model. *)

From Stdlib Require Import Ascii DecimalNat DecimalString.
From stdpp Require Import gmap strings list fin_maps.

(** ** Data model *)

Record Position := { pos_x : Z; pos_y : Z }.

(** [nodeUIMetadata]: the [position] field is an fp-ts [Option]; the other
    properties of the object are carried along by object spread. *)
Record NodeUIMetadata := {
  position : option Position;
  otherUIFields : list (string * string);
}.

(** Modelled from the spec: the declaration of [GraphNode] (in [@/pure/graph])
    is not part of the sources. The shim reads [absoluteFilePathIsID] and
    [nodeUIMetadata] (through optional chaining, hence the [option]); the
    spec adds the raw [content] and the edges derived from it. *)
Record GraphNode := {
  absoluteFilePathIsID : string;
  content : string;
  outgoingEdges : list string;
  nodeUIMetadata : option NodeUIMetadata;
}.

Record Graph := { nodes : gmap string GraphNode }.

Inductive NodeDelta :=
| UpsertNode (nodeToUpsert : GraphNode)
| DeleteNode (nodeId : string).

Abbreviation GraphDelta := (list NodeDelta).

Inductive FSEventType := Added | Modified | Removed.

Record FSUpdate := {
  absolutePath : string;
  fsContent : string;
  eventType : FSEventType;
}.

(** One entry of the [/files] listing: [{ path, content }]. *)
Record FileEntry := { path : string; fileContent : string }.

(** One entry of a position-save batch:
    [{ data: { id }, position?: { x, y } }]. *)
Record CyNode := { data_id : string; cyPosition : option Position }.

#[global] Instance Position_eq_dec : EqDecision Position.
Proof. solve_decision. Defined.
#[global] Instance NodeUIMetadata_eq_dec : EqDecision NodeUIMetadata.
Proof. solve_decision. Defined.
#[global] Instance GraphNode_eq_dec : EqDecision GraphNode.
Proof. solve_decision. Defined.

(** ** Strings *)

(** [s.endsWith(suffix)] *)
Definition endsWith (s suffix : string) : bool :=
  let n := String.length s in
  let m := String.length suffix in
  if (m <=? n)%nat then String.eqb (String.substring (n - m) m s) suffix else false.

(** [s.slice(0, n)] *)
Definition slice0 (n : nat) (s : string) : string := String.substring 0 n s.

(** Template-literal rendering of a non-negative integer. *)
Definition numberToString (n : nat) : string :=
  NilEmpty.string_of_uint (Nat.to_uint n).

(** [parts.join(sep)] *)
Fixpoint join (sep : string) (parts : list string) : string :=
  match parts with
  | [] => ""
  | [p] => p
  | p :: rest => p +:+ sep +:+ join sep rest
  end.

(** ** JS arrays used as stacks *)

Definition push {A} (l : list A) (x : A) : list A := l ++ [x].

Fixpoint pop {A} (l : list A) : option (A * list A) :=
  match l with
  | [] => None
  | [x] => Some (x, [])
  | x :: rest =>
      match pop rest with
      | Some (y, rest') => Some (y, x :: rest')
      | None => None
      end
  end.

Definition shift {A} (l : list A) : list A := tail l.

(** ** The fingerprint of a listing (line 805) *)

Definition fingerprintEntry (f : FileEntry) : string :=
  path f +:+ ":" +:+ numberToString (String.length (fileContent f)) +:+ ":"
    +:+ slice0 200 (fileContent f).

Definition fingerprintOf (files : list FileEntry) : string :=
  join "|" (map fingerprintEntry files).

(** ** The pure graph functions the shim imports *)

(** Modelled from the spec: [createEmptyGraph] (in [@/pure/graph/createGraph])
    is not part of the sources; it is the graph without nodes, as the
    literal [{ nodes: {} }] of [getCurrentGraph]. *)
Definition createEmptyGraph : Graph := {| nodes := ∅ |}.

(** Modelled from the spec: [applyGraphDeltaToGraph] (the Delta Applier of
    section 4.3) is not part of the sources. Operations are applied in the
    order of the delta; [UpsertNode] inserts or fully replaces the node
    stored under its id, [DeleteNode] removes the node if present. *)
Definition applyNodeDelta (g : Graph) (d : NodeDelta) : Graph :=
  match d with
  | UpsertNode node => {| nodes := <[absoluteFilePathIsID node := node]> (nodes g) |}
  | DeleteNode nodeId => {| nodes := delete nodeId (nodes g) |}
  end.

Definition applyGraphDeltaToGraph (g : Graph) (delta : GraphDelta) : Graph :=
  fold_left applyNodeDelta delta g.

(** Modelled from the spec: [mapNewGraphToDelta] (in [@/pure/graph]) is not
    part of the sources; section 4.5 has it produce an [UpsertNode] for every
    node of the graph. *)
Definition mapNewGraphToDelta (g : Graph) : GraphDelta :=
  (λ kv, UpsertNode kv.2) <$> map_to_list (nodes g).

(** [Object.keys(g.nodes)] *)
Definition objectKeys (m : gmap string GraphNode) : list string :=
  (map_to_list m).*1.

(** [{ ...node, nodeUIMetadata: { ...node.nodeUIMetadata, position: pos } }] *)
Definition withPosition (node : GraphNode) (pos : option Position) : GraphNode :=
  {| absoluteFilePathIsID := absoluteFilePathIsID node;
     content := content node;
     outgoingEdges := outgoingEdges node;
     nodeUIMetadata :=
       Some {| position := pos;
               otherUIFields := match nodeUIMetadata node with
                                | Some meta => otherUIFields meta
                                | None => []
                                end |} |}.

(** [node?.nodeUIMetadata?.position], where a missing node, missing metadata
    and [O.none] all read as [None]. *)
Definition positionOf (node : option GraphNode) : option Position :=
  match node with
  | Some n => match nodeUIMetadata n with
              | Some meta => position meta
              | None => None
              end
  | None => None
  end.

(** Modelled from the spec: [addNodeToGraphWithEdgeHealingFromFSEvent] is not
    part of the sources. Section 4.2: the outbound references of the node are
    parsed from its content ([parseOutboundReferences], consumed as given:
    it yields the node ids the references denote); a reference to a node id
    present in the graph so far becomes an edge, any other is left
    unresolved; the event yields one [UpsertNode]. A rebuilt node carries no
    position. A [Removed] event yields the deletion of the node. *)
Definition addNodeToGraphWithEdgeHealingFromFSEvent
    (parseOutboundReferences : string → list string)
    (fsEvent : FSUpdate) (graph : Graph) : GraphDelta :=
  match eventType fsEvent with
  | Removed => [DeleteNode (absolutePath fsEvent)]
  | Added | Modified =>
      [UpsertNode
         {| absoluteFilePathIsID := absolutePath fsEvent;
            content := fsContent fsEvent;
            outgoingEdges :=
              filter (λ target, is_Some (nodes graph !! target))
                     (parseOutboundReferences (fsContent fsEvent));
            nodeUIMetadata := Some {| position := None; otherUIFields := [] |} |}]
  end.

(** A reader of wiki links for the example scenario of the spec: every
    [[[name]]] in the content denotes the node [/name.md]. *)
Fixpoint scanWikiLinks (s : string) (inside : option string) : list string :=
  match s with
  | EmptyString => []
  | String c rest =>
      match inside with
      | None =>
          match rest with
          | String c' rest' =>
              if (Ascii.eqb c "["%char && Ascii.eqb c' "["%char)%bool
              then scanWikiLinks rest' (Some "")
              else scanWikiLinks rest None
          | EmptyString => []
          end
      | Some name =>
          if Ascii.eqb c "]"%char then ("/" +:+ name +:+ ".md") :: scanWikiLinks rest None
          else scanWikiLinks rest (Some (name +:+ String c ""))
      end
  end.

Definition wikiLinkTargets (s : string) : list string := scanWikiLinks s None.

(** ** Module-level state (lines 36-45 and 173) *)

(** The registered UI callback is identified by a number; calling it is
    recorded in the trace. *)
Definition Subscriber := nat.

Record ShimState := {
  _currentGraph : option Graph;
  _graphUpdateCallback : option Subscriber;
  _pollIntervalId : bool;
  _backendPort : option Z;
  _lastFileFingerprint : string;
  _undoStack : list Graph;
  _redoStack : list Graph;
  _suppressPolling : bool;
}.

Definition MAX_UNDO : nat := 30.

Definition set_currentGraph (g : option Graph) (st : ShimState) : ShimState :=
  {| _currentGraph := g;
     _graphUpdateCallback := _graphUpdateCallback st;
     _pollIntervalId := _pollIntervalId st;
     _backendPort := _backendPort st;
     _lastFileFingerprint := _lastFileFingerprint st;
     _undoStack := _undoStack st;
     _redoStack := _redoStack st;
     _suppressPolling := _suppressPolling st |}.

Definition set_graphUpdateCallback (cb : option Subscriber) (st : ShimState) : ShimState :=
  {| _currentGraph := _currentGraph st;
     _graphUpdateCallback := cb;
     _pollIntervalId := _pollIntervalId st;
     _backendPort := _backendPort st;
     _lastFileFingerprint := _lastFileFingerprint st;
     _undoStack := _undoStack st;
     _redoStack := _redoStack st;
     _suppressPolling := _suppressPolling st |}.

Definition set_pollIntervalId (b : bool) (st : ShimState) : ShimState :=
  {| _currentGraph := _currentGraph st;
     _graphUpdateCallback := _graphUpdateCallback st;
     _pollIntervalId := b;
     _backendPort := _backendPort st;
     _lastFileFingerprint := _lastFileFingerprint st;
     _undoStack := _undoStack st;
     _redoStack := _redoStack st;
     _suppressPolling := _suppressPolling st |}.

Definition set_lastFileFingerprint (fp : string) (st : ShimState) : ShimState :=
  {| _currentGraph := _currentGraph st;
     _graphUpdateCallback := _graphUpdateCallback st;
     _pollIntervalId := _pollIntervalId st;
     _backendPort := _backendPort st;
     _lastFileFingerprint := fp;
     _undoStack := _undoStack st;
     _redoStack := _redoStack st;
     _suppressPolling := _suppressPolling st |}.

Definition set_undoStack (l : list Graph) (st : ShimState) : ShimState :=
  {| _currentGraph := _currentGraph st;
     _graphUpdateCallback := _graphUpdateCallback st;
     _pollIntervalId := _pollIntervalId st;
     _backendPort := _backendPort st;
     _lastFileFingerprint := _lastFileFingerprint st;
     _undoStack := l;
     _redoStack := _redoStack st;
     _suppressPolling := _suppressPolling st |}.

Definition set_redoStack (l : list Graph) (st : ShimState) : ShimState :=
  {| _currentGraph := _currentGraph st;
     _graphUpdateCallback := _graphUpdateCallback st;
     _pollIntervalId := _pollIntervalId st;
     _backendPort := _backendPort st;
     _lastFileFingerprint := _lastFileFingerprint st;
     _undoStack := _undoStack st;
     _redoStack := l;
     _suppressPolling := _suppressPolling st |}.

Definition set_suppressPolling (b : bool) (st : ShimState) : ShimState :=
  {| _currentGraph := _currentGraph st;
     _graphUpdateCallback := _graphUpdateCallback st;
     _pollIntervalId := _pollIntervalId st;
     _backendPort := _backendPort st;
     _lastFileFingerprint := _lastFileFingerprint st;
     _undoStack := _undoStack st;
     _redoStack := _redoStack st;
     _suppressPolling := b |}.

(** The state of the module once it is loaded and the shim installed with
    the given [backendPort] URL parameter. *)
Definition initialState (port : option Z) : ShimState :=
  {| _currentGraph := None;
     _graphUpdateCallback := None;
     _pollIntervalId := false;
     _backendPort := port;
     _lastFileFingerprint := "";
     _undoStack := [];
     _redoStack := [];
     _suppressPolling := false |}.

(** [getCurrentGraph] (lines 47-49) *)
Definition getCurrentGraph (st : ShimState) : Graph :=
  match _currentGraph st with
  | Some g => g
  | None => {| nodes := ∅ |}
  end.

(** [!_backendPort]: [null] and [0] are falsy. *)
Definition noBackendPort (st : ShimState) : bool :=
  match _backendPort st with
  | Some p => (p =? 0)%Z
  | None => true
  end.

(** [structuredClone] *)
Definition structuredClone (g : Graph) : Graph := g.

(** ** The outside world *)

Inductive Request :=
| WriteNodeRequest (file_path content : string)   (* POST /write-node *)
| DeleteNodeRequest (file_path : string)          (* POST /delete-node *)
| LoadDirectoryRequest (directory_path : string)  (* POST /load-directory *)
| FilesRequest.                                   (* GET /files *)

(** What [resp.json()] gives for the body of a response: it rejects, or
    yields an object without [files], or one with a listing. *)
Inductive Body :=
| BodyInvalid
| BodyNoFiles
| BodyFiles (files : list FileEntry).

Record Response := { ok : bool; body : Body }.

(** [fetch] rejects (a transport error) or resolves with a response. *)
Inductive FetchOutcome :=
| NetworkError
| Resolved (resp : Response).

Inductive TimerCallback :=
| ClearSuppressPolling   (* () => { _suppressPolling = false; } *)
| RunLoadAndPushGraph.   (* () => { void loadAndPushGraph(); } *)

Inductive Event :=
| Fetched (req : Request) (out : FetchOutcome)
| UIUpdate (cb : Subscriber) (delta : GraphDelta)
| SetTimeout (cb : TimerCallback) (ms : Z)
| SetInterval (cb : TimerCallback) (ms : Z)
| ClearInterval.

(** The backend answers a request knowing everything that happened before. *)
Definition Backend := list Event → Request → FetchOutcome.

Record World := { shim : ShimState; trace : list Event }.

(** ** A monad for the shim's functions: state, trace and JS exceptions.
    A computation completes normally with a value or abruptly (a throw, a
    rejected promise); the state reached so far is kept in both cases. *)

Inductive Completion (A : Type) :=
| Normal (a : A)
| Abrupt.
Arguments Normal {A} a.
Arguments Abrupt {A}.

Definition Js (A : Type) : Type := World → Completion A * World.

#[global] Instance Js_ret : MRet Js := λ A a w, (Normal a, w).

#[global] Instance Js_bind : MBind Js := λ A B k c w,
  match c w with
  | (Normal a, w') => k a w'
  | (Abrupt, w') => (Abrupt, w')
  end.

(** [try { body } catch { handler }] *)
Definition tryCatch {A} (body handler : Js A) : Js A := λ w,
  match body w with
  | (Normal a, w') => (Normal a, w')
  | (Abrupt, w') => handler w'
  end.

Definition getState : Js ShimState := λ w, (Normal (shim w), w).

Definition modify (f : ShimState → ShimState) : Js unit := λ w,
  (Normal (), {| shim := f (shim w); trace := trace w |}).

Definition emit (e : Event) : Js unit := λ w,
  (Normal (), {| shim := shim w; trace := trace w ++ [e] |}).

Fixpoint forEach {A} (l : list A) (f : A → Js unit) : Js unit :=
  match l with
  | [] => mret ()
  | x :: rest => f x ;; forEach rest f
  end.

(** ** The name of the project (line 251) *)

(** The separators of the pattern [/[/\\]/]: the slash and the backslash. *)
Definition isSeparator (c : ascii) : bool :=
  Ascii.eqb c "/" || Ascii.eqb c "\".

(** [s.split(/[/\\]/)]: the segments between the separators, in order; a
    string without a separator, the empty one included, is its own single
    segment. *)
Fixpoint splitPath (s : string) : list string :=
  match s with
  | EmptyString => [""]
  | String c rest =>
      if isSeparator c then "" :: splitPath rest
      else match splitPath rest with
           | segment :: segments => String c segment :: segments
           | [] => [String c ""]
           end
  end.

(** [vscodePath.split(/[/\\]/).pop() ?? 'Workspace'] *)
Definition projectName (vscodePath : string) : string :=
  match pop (splitPath vscodePath) with
  | Some (name, _) => name
  | None => "Workspace"
  end.

(** No character of the string is a separator. *)
Fixpoint separatorFree (s : string) : bool :=
  match s with
  | EmptyString => true
  | String c rest => negb (isSeparator c) && separatorFree rest
  end.

(** ** The settings bridge (lines 569-621)

    The bridge keeps the requests it has sent to the extension host in
    [_pending], under their request ids, until the host answers or a timer
    gives up. A promise is known by its number, in the order of creation;
    the calls of the [resolve] functions are recorded in the order they are
    made (for a promise, only the first call has an effect). [null] and
    [undefined] are both [None]. *)

Section SettingsBridge.

(** The settings objects, which the bridge only passes on. *)
Variable V : Type.

(** A message of the extension host as the bridge reads it: its [type], its
    [requestId] if that is a string, and its [settings] and [result] unless
    missing, [null] or [undefined]. *)
Record HostMessage := {
  msg_type : string;
  msg_requestId : option string;
  msg_settings : option V;
  msg_result : option V;
}.

(** What [_pending] holds for a request: [{ resolve }] for a load, and
    [{ resolve: () => resolve() }], which drops its argument, for a save. *)
Inductive Resolver :=
| ResolveLoad (promise : nat)
| ResolveSave (promise : nat).

Definition promiseOf (r : Resolver) : nat :=
  match r with
  | ResolveLoad p => p
  | ResolveSave p => p
  end.

(** The callback given to [setTimeout], with its delay: it knows the request
    id and the [resolve] function of its promise. *)
Record SettingsTimer := {
  timer_requestId : string;
  timer_promise : nat;
  timer_ms : Z;
}.

(** The messages posted to the extension host. *)
Inductive Posted :=
| PostSettingsLoad (requestId : string)
| PostSettingsSave (requestId : string) (settings : V).

Record BridgeState := {
  _pending : gmap string Resolver;
  promisesCreated : nat;
  timersSet : list SettingsTimer;       (* set and not fired yet *)
  posted : list Posted;
  resolveCalls : list (nat * option V);  (* promise and value, in order *)
}.

Definition bridgeInitial : BridgeState :=
  {| _pending := ∅; promisesCreated := 0; timersSet := []; posted := [];
     resolveCalls := [] |}.

Definition loadRequestId (now : nat) : string :=
  "settings-load-" +:+ numberToString now.

Definition saveRequestId (now : nat) : string :=
  "settings-save-" +:+ numberToString now.

(** [settingsBridge.load()] (lines 572-585), when [Date.now()] is [now]: the
    promise returned is the one numbered [promisesCreated st]. *)
Definition settingsBridge_load (now : nat) (st : BridgeState) : BridgeState :=
  let id := loadRequestId now in
  let p := promisesCreated st in
  {| _pending := <[id := ResolveLoad p]> (_pending st);
     promisesCreated := S p;
     timersSet := timersSet st
                  ++ [{| timer_requestId := id; timer_promise := p; timer_ms := 500 |}];
     posted := posted st ++ [PostSettingsLoad id];
     resolveCalls := resolveCalls st |}.

(** [settingsBridge.save(settings)] (lines 587-600) *)
Definition settingsBridge_save (now : nat) (settings : V) (st : BridgeState)
  : BridgeState :=
  let id := saveRequestId now in
  let p := promisesCreated st in
  {| _pending := <[id := ResolveSave p]> (_pending st);
     promisesCreated := S p;
     timersSet := timersSet st
                  ++ [{| timer_requestId := id; timer_promise := p; timer_ms := 1000 |}];
     posted := posted st ++ [PostSettingsSave id settings];
     resolveCalls := resolveCalls st |}.

(** The callback of the timers (lines 578-583 and 593-598): it gives up on
    the request if it is still pending, resolving its promise with nothing. *)
Definition settingsTimeout (t : SettingsTimer) (st : BridgeState) : BridgeState :=
  match _pending st !! timer_requestId t with
  | Some _ =>
      {| _pending := delete (timer_requestId t) (_pending st);
         promisesCreated := promisesCreated st;
         timersSet := timersSet st;
         posted := posted st;
         resolveCalls := resolveCalls st ++ [(timer_promise t, None)] |}
  | None => st
  end.

(** [msg.settings ?? msg.result ?? null] *)
Definition payload (msg : HostMessage) : option V :=
  match msg_settings msg with
  | Some v => Some v
  | None => msg_result msg
  end.

(** Calling the [resolve] property of a pending entry. *)
Definition callResolver (r : Resolver) (v : option V) : nat * option V :=
  match r with
  | ResolveLoad p => (p, v)
  | ResolveSave p => (p, None)
  end.

(** [settingsBridge.handleMessage(msg)] (lines 602-609) *)
Definition settingsBridge_handleMessage (msg : HostMessage) (st : BridgeState)
  : BridgeState :=
  match msg_requestId msg with
  | Some id =>
      match _pending st !! id with
      | Some pending =>
          {| _pending := delete id (_pending st);
             promisesCreated := promisesCreated st;
             timersSet := timersSet st;
             posted := posted st;
             resolveCalls := resolveCalls st ++ [callResolver pending (payload msg)] |}
      | None => st
      end
  | None => st
  end.

(** The listener for the messages of the window (lines 613-621). *)
Definition onSettingsMessage (msg : HostMessage) (st : BridgeState) : BridgeState :=
  if String.eqb (msg_type msg) "voicetree-settings-loaded"
     || String.eqb (msg_type msg) "voicetree-settings-saved"
  then settingsBridge_handleMessage msg st
  else st.

(** The message is of a type the listener hands to the bridge. *)
Definition settingsReply (msg : HostMessage) : Prop :=
  msg_type msg = "voicetree-settings-loaded" ∨ msg_type msg = "voicetree-settings-saved".

(** What happens to the bridge: a load or a save is started, a message
    arrives on the window, or one of the timers that are set fires. *)
Inductive BridgeStep :=
| StartLoad (now : nat)
| StartSave (now : nat) (settings : V)
| Message (msg : HostMessage)
| TimerFires (k : nat).

Definition bridgeStep (st : BridgeState) (s : BridgeStep) : BridgeState :=
  match s with
  | StartLoad now => settingsBridge_load now st
  | StartSave now settings => settingsBridge_save now settings st
  | Message msg => onSettingsMessage msg st
  | TimerFires k =>
      match timersSet st !! k with
      | Some t =>
          settingsTimeout t
            {| _pending := _pending st;
               promisesCreated := promisesCreated st;
               timersSet := delete k (timersSet st);
               posted := posted st;
               resolveCalls := resolveCalls st |}
      | None => st
      end
  end.

Definition bridgeRun (steps : list BridgeStep) : BridgeState :=
  foldl bridgeStep bridgeInitial steps.

(** The request ids made up in the course of the steps. *)
Definition requestIds (steps : list BridgeStep) : list string :=
  omap (λ s, match s with
             | StartLoad now => Some (loadRequestId now)
             | StartSave now _ => Some (saveRequestId now)
             | _ => None
             end) steps.

(** How often the [resolve] function of a promise has been called. *)
Definition timesResolved (p : nat) (st : BridgeState) : nat :=
  length (filter (λ call, call.1 = p) (resolveCalls st)).

(** The promise has a timer that is set. *)
Definition awaitsTimer (p : nat) (st : BridgeState) : Prop :=
  ∃ t, t ∈ timersSet st ∧ timer_promise t = p.

(** What holds of the bridge as long as no request id is made up twice,
    [ids] being the request ids made up so far: a pending request has its
    timer set and its promise unresolved; the timers set have different
    request ids and different promises; a promise is either pending and
    unresolved, or resolved once and no longer pending. *)
Record bridgeInvariant (ids : list string) (st : BridgeState) : Prop := {
  inv_pending : ∀ id r, _pending st !! id = Some r →
    timesResolved (promiseOf r) st = 0 ∧
    ∃ t, t ∈ timersSet st ∧ timer_requestId t = id ∧ timer_promise t = promiseOf r;
  inv_timer_ids : NoDup (timer_requestId <$> timersSet st);
  inv_timer_promises : NoDup (timer_promise <$> timersSet st);
  inv_timers : ∀ t, t ∈ timersSet st →
    timer_requestId t ∈ ids ∧ timer_promise t < promisesCreated st;
  inv_promises : ∀ p, p < promisesCreated st →
    (timesResolved p st = 0 ∧ ∃ id r, _pending st !! id = Some r ∧ promiseOf r = p)
    ∨ (timesResolved p st = 1 ∧ ∀ id r, _pending st !! id = Some r → promiseOf r ≠ p);
  inv_future : ∀ p, promisesCreated st ≤ p → timesResolved p st = 0;
}.

End SettingsBridge.

Arguments msg_type {V} _.
Arguments msg_requestId {V} _.
Arguments msg_settings {V} _.
Arguments msg_result {V} _.
Arguments PostSettingsLoad {V} _.
Arguments PostSettingsSave {V} _ _.
Arguments _pending {V} _.
Arguments promisesCreated {V} _.
Arguments timersSet {V} _.
Arguments posted {V} _.
Arguments resolveCalls {V} _.
Arguments bridgeInitial {V}.
Arguments settingsBridge_load {V} _ _.
Arguments settingsBridge_save {V} _ _ _.
Arguments settingsTimeout {V} _ _.
Arguments payload {V} _.
Arguments callResolver {V} _ _.
Arguments settingsBridge_handleMessage {V} _ _.
Arguments onSettingsMessage {V} _ _.
Arguments settingsReply {V} _.
Arguments StartLoad {V} _.
Arguments StartSave {V} _ _.
Arguments Message {V} _.
Arguments TimerFires {V} _.
Arguments bridgeStep {V} _ _.
Arguments bridgeRun {V} _.
Arguments requestIds {V} _.
Arguments timesResolved {V} _ _.
Arguments awaitsTimer {V} _ _.
Arguments bridgeInvariant {V} _ _.
Arguments inv_pending {V ids st} _.
Arguments inv_timer_ids {V ids st} _.
Arguments inv_timer_promises {V ids st} _.
Arguments inv_timers {V ids st} _.
Arguments inv_promises {V ids st} _.
Arguments inv_future {V ids st} _.

(** ** The terminal bridge (lines 642-704)

    As for the settings bridge, a promise is known by its number and the
    calls of the [resolve] functions are recorded in order; so are the calls
    of the data and exit callbacks. *)

(** [a || b] for a string that may be missing: the empty string is falsy. *)
Definition stringOr (a : option string) (b : string) : string :=
  match a with
  | Some s => if String.eqb s "" then b else s
  | None => b
  end.

Definition digit36 (d : nat) : ascii :=
  nth d (String.list_ascii_of_string "0123456789abcdefghijklmnopqrstuvwxyz") "0"%char.

Fixpoint toBase36_digits (fuel n : nat) (acc : string) : string :=
  match fuel with
  | O => acc
  | S fuel' =>
      let acc' := String (digit36 (n mod 36)) acc in
      if (n / 36 =? 0)%nat then acc' else toBase36_digits fuel' (n / 36) acc'
  end.

(** [n.toString(36)] for a non-negative integer. *)
Definition toBase36 (n : nat) : string := toBase36_digits (S n) n "".

(** The argument of [spawn], read as [Record<string, unknown>]: [None] is a
    property that is missing, [null] or [undefined]. *)
Record TerminalData := {
  td_terminalId : option string;
  td_initialCommand : option string;
  td_executeCommand : option bool;
  td_initialEnvVars : option (list (string * string));
  td_initialSpawnDirectory : option string;
}.

(** [{ success, terminalId?, error? }] *)
Record SpawnResult := {
  success : bool;
  result_terminalId : option string;
  error : option string;
}.

(** A message of the extension host as the bridge reads it. *)
Record TerminalMessage := {
  tmsg_type : string;
  tmsg_terminalId : option string;
  tmsg_data : option string;
  tmsg_code : option Z;
}.

(** What the bridge does to the outside: messages posted to the host, and
    calls of the callbacks registered with [onData] and [onExit]. *)
Inductive TerminalEffect :=
| PostTerminalSpawn (terminalId command : string) (env : list (string * string))
    (cwd : string)
| DataCallback (callback : nat) (terminalId data : option string)
| ExitCallback (callback : nat) (terminalId : option string) (code : Z).

Record SpawnTimer := { spawnTimer_terminalId : string; spawnTimer_promise : nat }.

Record TerminalState := {
  onDataCallback : option nat;
  onExitCallback : option nat;
  _pendingSpawns : gmap string nat;      (* the promise of [{ resolve }] *)
  spawnPromises : nat;                   (* promises created so far *)
  spawnTimers : list SpawnTimer;         (* set (for 3000 ms) and not fired yet *)
  terminalEffects : list TerminalEffect;
  spawnResolved : list (nat * SpawnResult);
}.

Definition terminalInitial : TerminalState :=
  {| onDataCallback := None; onExitCallback := None; _pendingSpawns := ∅;
     spawnPromises := 0; spawnTimers := []; terminalEffects := [];
     spawnResolved := [] |}.

(** The terminal id [spawn] works with (line 649). *)
Definition spawnTerminalId (now : nat) (td : TerminalData) : string :=
  stringOr (td_terminalId td) ("term-" +:+ toBase36 now).

(** [terminalBridge.spawn(terminalData)] (lines 647-674), when [Date.now()]
    is [now]. *)
Definition terminalBridge_spawn (now : nat) (td : TerminalData) (st : TerminalState)
  : TerminalState :=
  let terminalId := spawnTerminalId now td in
  let command := stringOr (td_initialCommand td) "" in
  let executeCommand := default true (td_executeCommand td) in
  let envVars := default [] (td_initialEnvVars td) in
  let cwd := stringOr (td_initialSpawnDirectory td) "" in
  let p := spawnPromises st in
  {| onDataCallback := onDataCallback st;
     onExitCallback := onExitCallback st;
     _pendingSpawns := <[terminalId := p]> (_pendingSpawns st);
     spawnPromises := S p;
     spawnTimers := spawnTimers st
                    ++ [{| spawnTimer_terminalId := terminalId; spawnTimer_promise := p |}];
     terminalEffects := terminalEffects st
                        ++ [PostTerminalSpawn terminalId
                              (if executeCommand then command else "") envVars cwd];
     spawnResolved := spawnResolved st |}.

(** The timeout fallback (lines 667-672). *)
Definition spawnTimeout (t : SpawnTimer) (st : TerminalState) : TerminalState :=
  match _pendingSpawns st !! spawnTimer_terminalId t with
  | Some _ =>
      {| onDataCallback := onDataCallback st;
         onExitCallback := onExitCallback st;
         _pendingSpawns := delete (spawnTimer_terminalId t) (_pendingSpawns st);
         spawnPromises := spawnPromises st;
         spawnTimers := spawnTimers st;
         terminalEffects := terminalEffects st;
         spawnResolved :=
           spawnResolved st
           ++ [(spawnTimer_promise t,
                {| success := true;
                   result_terminalId := Some (spawnTimer_terminalId t);
                   error := None |})] |}
  | None => st
  end.

Definition addTerminalEffect (e : TerminalEffect) (st : TerminalState) : TerminalState :=
  {| onDataCallback := onDataCallback st;
     onExitCallback := onExitCallback st;
     _pendingSpawns := _pendingSpawns st;
     spawnPromises := spawnPromises st;
     spawnTimers := spawnTimers st;
     terminalEffects := terminalEffects st ++ [e];
     spawnResolved := spawnResolved st |}.

(** [terminalBridge.handleMessage(msg)] (lines 676-693) *)
Definition terminalBridge_handleMessage (msg : TerminalMessage) (st : TerminalState)
  : TerminalState :=
  if String.eqb (tmsg_type msg) "voicetree-terminal-data" then
    match onDataCallback st with
    | Some callback =>
        addTerminalEffect (DataCallback callback (tmsg_terminalId msg) (tmsg_data msg)) st
    | None => st
    end
  else if String.eqb (tmsg_type msg) "voicetree-terminal-exit" then
    match onExitCallback st with
    | Some callback =>
        addTerminalEffect
          (ExitCallback callback (tmsg_terminalId msg) (default 0%Z (tmsg_code msg))) st
    | None => st
    end
  else if String.eqb (tmsg_type msg) "voicetree-terminal-spawned" then
    match tmsg_terminalId msg with
    | Some terminalId =>
        match _pendingSpawns st !! terminalId with
        | Some p =>
            {| onDataCallback := onDataCallback st;
               onExitCallback := onExitCallback st;
               _pendingSpawns := delete terminalId (_pendingSpawns st);
               spawnPromises := spawnPromises st;
               spawnTimers := spawnTimers st;
               terminalEffects := terminalEffects st;
               spawnResolved :=
                 spawnResolved st
                 ++ [(p, {| success := true; result_terminalId := Some terminalId;
                            error := None |})] |}
        | None => st
        end
    | None => st
    end
  else st.

(** The listener for the messages of the window (lines 697-704). *)
Definition onTerminalMessage (msg : TerminalMessage) (st : TerminalState)
  : TerminalState :=
  if String.prefix "voicetree-terminal-" (tmsg_type msg)
  then terminalBridge_handleMessage msg st
  else st.

(** What happens to the bridge: a spawn, a registration of a callback
    ([terminal.onData], [terminal.onExit], lines 498-503), a message on the
    window, or a timer that fires. *)
Inductive TerminalStep :=
| Spawn (now : nat) (td : TerminalData)
| OnData (callback : nat)
| OnExit (callback : nat)
| TerminalMessageArrives (msg : TerminalMessage)
| SpawnTimerFires (k : nat).

Definition terminalStep (st : TerminalState) (s : TerminalStep) : TerminalState :=
  match s with
  | Spawn now td => terminalBridge_spawn now td st
  | OnData callback =>
      {| onDataCallback := Some callback;
         onExitCallback := onExitCallback st;
         _pendingSpawns := _pendingSpawns st;
         spawnPromises := spawnPromises st;
         spawnTimers := spawnTimers st;
         terminalEffects := terminalEffects st;
         spawnResolved := spawnResolved st |}
  | OnExit callback =>
      {| onDataCallback := onDataCallback st;
         onExitCallback := Some callback;
         _pendingSpawns := _pendingSpawns st;
         spawnPromises := spawnPromises st;
         spawnTimers := spawnTimers st;
         terminalEffects := terminalEffects st;
         spawnResolved := spawnResolved st |}
  | TerminalMessageArrives msg => onTerminalMessage msg st
  | SpawnTimerFires k =>
      match spawnTimers st !! k with
      | Some t =>
          spawnTimeout t
            {| onDataCallback := onDataCallback st;
               onExitCallback := onExitCallback st;
               _pendingSpawns := _pendingSpawns st;
               spawnPromises := spawnPromises st;
               spawnTimers := delete k (spawnTimers st);
               terminalEffects := terminalEffects st;
               spawnResolved := spawnResolved st |}
      | None => st
      end
  end.

Definition terminalRun (steps : list TerminalStep) : TerminalState :=
  foldl terminalStep terminalInitial steps.

(** The terminal ids of the spawns made in the course of the steps, in
    order: the id of the spawn that created promise [p] is at index [p]. *)
Definition spawnIds (steps : list TerminalStep) : list string :=
  omap (λ s, match s with
             | Spawn now td => Some (spawnTerminalId now td)
             | _ => None
             end) steps.

(** What holds of the terminal bridge whatever happens, [ids] being the
    terminal ids of the spawns so far: pending entries and timers belong to
    the spawn made under their id, and every call of a [resolve] function
    reports success with the id of the spawn it answers. *)
Record terminalInvariant (ids : list string) (st : TerminalState) : Prop := {
  tinv_promises : spawnPromises st = length ids;
  tinv_pending : ∀ id p, _pendingSpawns st !! id = Some p → ids !! p = Some id;
  tinv_timers : ∀ t, t ∈ spawnTimers st →
    ids !! spawnTimer_promise t = Some (spawnTimer_terminalId t);
  tinv_resolved : ∀ p r, (p, r) ∈ spawnResolved st →
    success r = true ∧ error r = None ∧
    ∃ id, ids !! p = Some id ∧ result_terminalId r = Some id;
}.

(** ** Scenarios used to exercise the properties *)

(** A node as the builder makes it, without edges. *)
Definition plainNode (id text : string) (pos : option Position) : GraphNode :=
  {| absoluteFilePathIsID := id;
     content := text;
     outgoingEdges := [];
     nodeUIMetadata := Some {| position := pos; otherUIFields := [] |} |}.

(** A backend that answers every request with the same listing. *)
Definition servesListing (files : list FileEntry) : Backend :=
  λ _ _, Resolved {| ok := true; body := BodyFiles files |}.

(** A backend that is down. *)
Definition unreachableBackend : Backend := λ _ _, NetworkError.

(** The state after a listing with fingerprint [fp] was turned into the
    graph with the given nodes, a UI callback being registered. *)
Definition loadedState (graphNodes : list (string * GraphNode)) (fp : string) : ShimState :=
  {| _currentGraph := Some {| nodes := list_to_map graphNodes |};
     _graphUpdateCallback := Some 1%nat;
     _pollIntervalId := true;
     _backendPort := Some 8001%Z;
     _lastFileFingerprint := fp;
     _undoStack := [];
     _redoStack := [];
     _suppressPolling := false |}.

(** The project the examples run in, and its two files. *)
Definition projectPath : option string := Some "/proj".

Definition fileA : FileEntry := {| path := "/a.md"; fileContent := "# A" |}.

Definition fileB : FileEntry := {| path := "/b.md"; fileContent := "# B
[[a]]" |}.

Definition at_10_20 : Position := {| pos_x := 10; pos_y := 20 |}.

(** [/a.md] loaded and placed at (10,20), [/gone.md] loaded as well. *)
Definition placedWorld : World :=
  {| shim := loadedState [("/a.md", plainNode "/a.md" "# A" (Some at_10_20));
                          ("/gone.md", plainNode "/gone.md" "# G" None)]
                         "/a.md:3:# A|/gone.md:3:# G";
     trace := [] |}.

(** [/a.md] loaded, nothing else. *)
Definition loadedWorld : World :=
  {| shim := loadedState [("/a.md", plainNode "/a.md" "# A" None)] "/a.md:3:# A";
     trace := [] |}.

(** The shim freshly installed with a backend port. *)
Definition freshWorld : World :=
  {| shim := {| _currentGraph := None;
                _graphUpdateCallback := None;
                _pollIntervalId := false;
                _backendPort := Some 8001%Z;
                _lastFileFingerprint := "";
                _undoStack := [];
                _redoStack := [];
                _suppressPolling := false |};
     trace := [] |}.

(** A file of 200 dashes and an ending: two such files differ beyond the
    part of the content a fingerprint looks at. *)
Definition dashes : string := String.string_of_list_ascii (replicate 200 "-"%char).

Definition longFile (ending : string) : FileEntry :=
  {| path := "/long.md"; fileContent := dashes +:+ ending |}.

(** [/long.md] loaded when it ended in [old]. *)
Definition longWorld : World :=
  {| shim := loadedState [("/long.md", plainNode "/long.md" (dashes +:+ "old") None)]
                         (fingerprintOf [longFile "old"]);
     trace := [] |}.

(** The answer of the extension host to the load started at [now]. *)
Definition settingsAnswer (now : nat) (saved : string) : HostMessage string :=
  {| msg_type := "voicetree-settings-loaded";
     msg_requestId := Some (loadRequestId now);
     msg_settings := Some saved;
     msg_result := None |}.

(** A load and a save, an answer to the load, and the two timers. *)
Definition settingsSession : list (BridgeStep string) :=
  [StartLoad 1; StartSave 1 "dark"; Message (settingsAnswer 1 "light");
   TimerFires 0; TimerFires 0].

(** A spawn without a terminal id, a spawn under the id [t1], the answer of
    the extension host to the second, and the timer of the first. *)
Definition noTerminalData : TerminalData :=
  {| td_terminalId := None; td_initialCommand := None; td_executeCommand := None;
     td_initialEnvVars := None; td_initialSpawnDirectory := None |}.

Definition spawnSession : list TerminalStep :=
  [Spawn 71 noTerminalData;
   Spawn 72 {| td_terminalId := Some "t1"; td_initialCommand := Some "ls";
               td_executeCommand := Some false; td_initialEnvVars := None;
               td_initialSpawnDirectory := None |};
   TerminalMessageArrives {| tmsg_type := "voicetree-terminal-spawned";
                             tmsg_terminalId := Some "t1"; tmsg_data := None;
                             tmsg_code := None |};
   SpawnTimerFires 0].

(** ** The shim *)

Section Shim.

(** The [vscodePath] URL parameter, read once when the module is loaded. *)
Variable vscodePath : option string.

(** [fromNodeToMarkdownContent] (in [@/pure/graph/markdown-writing]) is not
    part of the sources; the shim only passes its result on to the backend. *)
Variable fromNodeToMarkdownContent : GraphNode → string.

(** The reader of outbound references used by the graph builder. *)
Variable parseOutboundReferences : string → list string.

Variable backend : Backend.

(** [await fetch(...)]: the request and its outcome enter the trace; a
    transport error is a rejected promise. *)
Definition fetch (req : Request) : Js Response := λ w,
  let out := backend (trace w) req in
  let w' := {| shim := shim w; trace := trace w ++ [Fetched req out] |} in
  match out with
  | NetworkError => (Abrupt, w')
  | Resolved resp => (Normal resp, w')
  end.

(** [await resp.json()] read as [{ files }]: [None] stands for a missing
    [files] field. *)
Definition respJson (resp : Response) : Js (option (list FileEntry)) :=
  match body resp with
  | BodyInvalid => λ w, (Abrupt, w)
  | BodyNoFiles => mret None
  | BodyFiles files => mret (Some files)
  end.

(** [getVoicetreePath] (lines 55-57), for a non-null [vscodePath]. *)
Definition getVoicetreePath (p : string) : string :=
  if endsWith p ".voicetree" then p else p +:+ "/.voicetree".

(** [backendWriteNode] (lines 63-76) *)
Definition backendWriteNode (filePath fileText : string) : Js bool :=
  st ← getState;
  if noBackendPort st then mret false
  else tryCatch
         (resp ← fetch (WriteNodeRequest filePath fileText);
          mret (ok resp))
         (mret false).

(** [backendDeleteNode] (lines 78-91) *)
Definition backendDeleteNode (filePath : string) : Js bool :=
  st ← getState;
  if noBackendPort st then mret false
  else tryCatch
         (resp ← fetch (DeleteNodeRequest filePath);
          mret (ok resp))
         (mret false).

(** The file a node id is stored in (lines 123-125 and 129). *)
Definition mdPath (nodeId : string) : string :=
  if endsWith nodeId ".md" then nodeId else nodeId +:+ ".md".

(** The body of the loop of lines 120-132. *)
Definition persistNodeDelta (d : NodeDelta) : Js unit :=
  match d with
  | UpsertNode node =>
      let filePath := mdPath (absoluteFilePathIsID node) in
      let fileText := fromNodeToMarkdownContent node in
      backendWriteNode filePath fileText ;; mret ()
  | DeleteNode nodeId =>
      let filePath := mdPath nodeId in
      backendDeleteNode filePath ;; mret ()
  end.

(** Lines 105-109: [push], then [shift] when over capacity, then clear the
    redo stack. *)
Definition saveUndoState (g : Graph) (st : ShimState) : ShimState :=
  let undo := push (_undoStack st) (structuredClone g) in
  let undo := if (MAX_UNDO <? length undo)%nat then shift undo else undo in
  set_redoStack [] (set_undoStack undo st).

(** [applyGraphDelta] (lines 101-141) *)
Definition applyGraphDelta (delta : GraphDelta) : Js unit :=
  if (length delta =? 0)%nat then mret ()
  else
    st ← getState;
    match _currentGraph st with
    | Some g => modify (saveUndoState g)
    | None => mret ()
    end ;;
    st ← getState;
    let oldGraph := getCurrentGraph st in
    modify (set_currentGraph (Some (applyGraphDeltaToGraph oldGraph delta))) ;;
    forEach delta persistNodeDelta ;;
    st ← getState;
    match _graphUpdateCallback st with
    | Some cb => emit (UIUpdate cb delta)
    | None => mret ()
    end ;;
    modify (set_lastFileFingerprint "").

(** The property names every object literal inherits from
    [Object.prototype]. Read from [graph.nodes], each of them gives a
    function or, for [__proto__], the prototype itself: a truthy value. *)
Definition objectPrototypeNames : list string :=
  ["constructor"; "__defineGetter__"; "__defineSetter__"; "hasOwnProperty";
   "__lookupGetter__"; "__lookupSetter__"; "isPrototypeOf"; "propertyIsEnumerable";
   "toString"; "valueOf"; "__proto__"; "toLocaleString"].

(** The object [graph.nodes] the loop of lines 151-164 works on: its own
    properties and, once an assignment to [__proto__] has replaced its
    prototype, the object put in that place. *)
Record NodesObject := {
  ownNodes : gmap string GraphNode;
  replacedPrototype : option GraphNode;
}.

(** [{ ...node, nodeUIMetadata: { ...node.nodeUIMetadata, position } }] for
    a [node] that is no graph node but a value found along the prototype
    chain: the spread of a function or of [Object.prototype] copies nothing,
    so the object has [nodeUIMetadata.position] and neither id, content nor
    edges, in whose place the record has the empty values. *)
Definition positionOnly (pos : option Position) : GraphNode :=
  {| absoluteFilePathIsID := "";
     content := "";
     outgoingEdges := [];
     nodeUIMetadata := Some {| position := pos; otherUIFields := [] |} |}.

(** Whether [graph.nodes[nodeId]] finds a value for a name that is not an
    own property: the names of [Object.prototype], and [nodeUIMetadata]
    once the prototype is an object that has this property. *)
Definition inheritedBy (graph : NodesObject) (nodeId : string) : bool :=
  bool_decide (nodeId ∈ objectPrototypeNames)
  || (bool_decide (is_Some (replacedPrototype graph)) && String.eqb nodeId "nodeUIMetadata").

(** [graph.nodes[nodeId] = node]: an own property is set, except that the
    name [__proto__], unless it is an own property, replaces the prototype. *)
Definition assignNode (nodeId : string) (node : GraphNode) (graph : NodesObject)
    : NodesObject :=
  if String.eqb nodeId "__proto__" && bool_decide (ownNodes graph !! nodeId = None)
  then {| ownNodes := ownNodes graph; replacedPrototype := Some node |}
  else {| ownNodes := <[nodeId := node]> (ownNodes graph);
          replacedPrototype := replacedPrototype graph |}.

(** The body of the loop of lines 151-164. The test [!graph.nodes[nodeId]]
    of line 154 reads the property along the prototype chain: it lets pass
    the own properties and the inherited names alike. *)
Definition savePosition (graph : NodesObject) (cyNode : CyNode) : NodesObject :=
  let nodeId := data_id cyNode in
  match cyPosition cyNode with
  | None => graph
  | Some pos =>
      let position := Some {| pos_x := pos_x pos; pos_y := pos_y pos |} in
      match ownNodes graph !! nodeId with
      | Some node => assignNode nodeId (withPosition node position) graph
      | None =>
          if inheritedBy graph nodeId
          then assignNode nodeId (positionOnly position) graph
          else graph
      end
  end.

(** [saveNodePositions] (lines 147-166). The copy of line 149 is an object
    literal, with the prototype of every object literal; the graph stored
    by line 165 is kept by its own properties. *)
Definition saveNodePositions (cyNodes : list CyNode) : Js unit :=
  st ← getState;
  match _currentGraph st with
  | None => mret ()
  | Some cur =>
      let graph :=
        fold_left savePosition cyNodes
          {| ownNodes := nodes cur; replacedPrototype := None |} in
      modify (set_currentGraph (Some {| nodes := ownNodes graph |}))
  end.

(** Lines 208-216: the deletions for the nodes of [previousGraph] that the
    current graph no longer has. *)
Definition deleteDeltasFor (previousGraph : option Graph) (cur : Graph) : GraphDelta :=
  match previousGraph with
  | Some prevG =>
      let currentNodeIds : gset string := list_to_set (objectKeys (nodes cur)) in
      omap (λ nodeId, if bool_decide (nodeId ∈ currentNodeIds) then None
                      else Some (DeleteNode nodeId))
           (objectKeys (nodes prevG))
  | None => []
  end.

(** [pushFullGraphToUI] (lines 202-221) *)
Definition pushFullGraphToUI (previousGraph : option Graph) : Js unit :=
  st ← getState;
  match _currentGraph st, _graphUpdateCallback st with
  | Some cur, Some cb =>
      let upsertDeltas := mapNewGraphToDelta cur in
      let deleteDeltas := deleteDeltasFor previousGraph cur in
      let fullDelta := deleteDeltas ++ upsertDeltas in
      emit (UIUpdate cb fullDelta) ;;
      modify (set_lastFileFingerprint "")
  | _, _ => mret ()
  end.

(** [performUndo] (lines 175-185) *)
Definition performUndo : Js unit :=
  st ← getState;
  match pop (_undoStack st) with
  | None => mret ()
  | Some (prev, rest) =>
      modify (set_suppressPolling true) ;;
      modify (set_undoStack rest) ;;
      st ← getState;
      let beforeGraph := _currentGraph st in
      match _currentGraph st with
      | Some g => modify (λ st, set_redoStack (push (_redoStack st) (structuredClone g)) st)
      | None => mret ()
      end ;;
      modify (set_currentGraph (Some prev)) ;;
      pushFullGraphToUI beforeGraph ;;
      emit (SetTimeout ClearSuppressPolling 5000)
  end.

(** [performRedo] (lines 187-196) *)
Definition performRedo : Js unit :=
  st ← getState;
  match pop (_redoStack st) with
  | None => mret ()
  | Some (next, rest) =>
      modify (set_suppressPolling true) ;;
      modify (set_redoStack rest) ;;
      st ← getState;
      let beforeGraph := _currentGraph st in
      match _currentGraph st with
      | Some g => modify (λ st, set_undoStack (push (_undoStack st) (structuredClone g)) st)
      | None => mret ()
      end ;;
      modify (set_currentGraph (Some next)) ;;
      pushFullGraphToUI beforeGraph ;;
      emit (SetTimeout ClearSuppressPolling 5000)
  end.

(** The body of the loop of lines 824-835. *)
Definition rebuildStep (acc : Graph * GraphDelta) (file : FileEntry) : Graph * GraphDelta :=
  let '(graph, allDeltas) := acc in
  let fsEvent := {| absolutePath := path file;
                    fsContent := fileContent file;
                    eventType := Added |} in
  let delta := addNodeToGraphWithEdgeHealingFromFSEvent
                 parseOutboundReferences fsEvent graph in
  if (0 <? length delta)%nat
  then (applyGraphDeltaToGraph graph delta, allDeltas ++ delta)
  else (graph, allDeltas).

(** Lines 821-835: the graph built from a listing and the deltas that
    built it. *)
Definition rebuild (files : list FileEntry) : Graph * GraphDelta :=
  fold_left rebuildStep files (createEmptyGraph, []).

(** The body of the loop of lines 841-852. *)
Definition preservePosition (prevNodes : gmap string GraphNode)
    (newNodes : gmap string GraphNode) (nodeId : string) : gmap string GraphNode :=
  let prevPos := positionOf (prevNodes !! nodeId) in
  match prevPos, newNodes !! nodeId with
  | Some xy, Some node => <[nodeId := withPosition node (Some xy)]> newNodes
  | _, _ => newNodes
  end.

(** Lines 838-854: the positions of the previous graph carried over to the
    rebuilt one. *)
Definition preservePositions (graph : Graph) (current : option Graph) : Graph :=
  match current with
  | Some prevG =>
      let prevNodes := nodes prevG in
      let newNodes := nodes graph in
      {| nodes := fold_left (preservePosition prevNodes) (objectKeys newNodes) newNodes |}
  | None => graph
  end.

(** Lines 790-797: the directory is loaded on the first call; a failure of
    that request is swallowed by [.catch(() => {})]. *)
Definition ensureDirectoryLoaded : Js unit :=
  st ← getState;
  match _currentGraph st, vscodePath with
  | None, Some p =>
      if (String.length p =? 0)%nat then mret ()
      else tryCatch (fetch (LoadDirectoryRequest (getVoicetreePath p)) ;; mret ())
                    (mret ())
  | _, _ => mret ()
  end.

(** Lines 804-862: what a poll does with the listing it received. *)
Definition processListing (files : list FileEntry) : Js bool :=
  let fingerprint := fingerprintOf files in
  st ← getState;
  if String.eqb fingerprint (_lastFileFingerprint st) then mret false
  else
    modify (set_lastFileFingerprint fingerprint) ;;
    if (length files =? 0)%nat
    then modify (set_currentGraph (Some {| nodes := ∅ |})) ;; mret false
    else
      let '(graph, allDeltas) := rebuild files in
      st ← getState;
      let graph := preservePositions graph (_currentGraph st) in
      modify (set_currentGraph (Some graph)) ;;
      match _graphUpdateCallback st with
      | Some cb =>
          if (0 <? length allDeltas)%nat then emit (UIUpdate cb allDeltas)
          else mret ()
      | None => mret ()
      end ;;
      mret (0 <? length allDeltas)%nat.

(** [loadAndPushGraph] (lines 783-867) *)
Definition loadAndPushGraph : Js bool :=
  st ← getState;
  if noBackendPort st then mret false
  else if _suppressPolling st then mret false
  else tryCatch
    (ensureDirectoryLoaded ;;
     resp ← fetch FilesRequest;
     if negb (ok resp) then mret false
     else
       data ← respJson resp;
       match data with
       | None => mret false
       | Some files => processListing files
       end)
    (mret false).

(** [refreshGraphFromBackend] (lines 871-874) *)
Definition refreshGraphFromBackend : Js unit :=
  modify (set_lastFileFingerprint "") ;;
  loadAndPushGraph ;; mret ().

(** [startGraphPolling] (lines 876-879) *)
Definition startGraphPolling : Js unit :=
  st ← getState;
  if _pollIntervalId st then mret ()
  else modify (set_pollIntervalId true) ;;
       emit (SetInterval RunLoadAndPushGraph 3000).

(** [stopGraphPolling] (lines 881-886) *)
Definition stopGraphPolling : Js unit :=
  st ← getState;
  if _pollIntervalId st
  then emit ClearInterval ;; modify (set_pollIntervalId false)
  else mret ().

(** [graph.onGraphUpdate(callback)] (lines 467-470) *)
Definition onGraphUpdate (callback : Subscriber) : Js unit :=
  modify (set_graphUpdateCallback (Some callback)) ;;
  emit (SetTimeout RunLoadAndPushGraph 1000) ;;
  startGraphPolling.

(** The function [onGraphUpdate] returns (lines 471-474). *)
Definition unsubscribeGraphUpdate : Js unit :=
  modify (set_graphUpdateCallback None) ;;
  stopGraphPolling.

(** What a timer callback does when it fires. *)
Definition timerFires (cb : TimerCallback) : Js unit :=
  match cb with
  | ClearSuppressPolling => modify (set_suppressPolling false)
  | RunLoadAndPushGraph => loadAndPushGraph ;; mret ()
  end.

(** ** Runs of the shim: the calls the host application and the timers
    make, one after the other. *)

Inductive Call :=
| CallApplyGraphDelta (delta : GraphDelta)
| CallSaveNodePositions (cyNodes : list CyNode)
| CallPerformUndo
| CallPerformRedo
| CallOnGraphUpdate (callback : Subscriber)
| CallUnsubscribe
| CallRefreshGraphFromBackend
| CallTimer (cb : TimerCallback).

Definition callBody (c : Call) : Js unit :=
  match c with
  | CallApplyGraphDelta delta => applyGraphDelta delta
  | CallSaveNodePositions cyNodes => saveNodePositions cyNodes
  | CallPerformUndo => performUndo
  | CallPerformRedo => performRedo
  | CallOnGraphUpdate callback => onGraphUpdate callback
  | CallUnsubscribe => unsubscribeGraphUpdate
  | CallRefreshGraphFromBackend => refreshGraphFromBackend
  | CallTimer cb => timerFires cb
  end.

Definition exec (w : World) (c : Call) : World := (callBody c w).2.

Definition run (calls : list Call) (w : World) : World := fold_left exec calls w.

Definition initialWorld (port : option Z) : World :=
  {| shim := initialState port; trace := [] |}.

Inductive reachable : World → Prop :=
| reachable_initial port : reachable (initialWorld port)
| reachable_step w c : reachable w → reachable (exec w c).

(** ** Notions used to state the properties *)

(** The properties of [nodeUIMetadata] other than [position]. *)
Definition otherUIFieldsOf (n : GraphNode) : list (string * string) :=
  match nodeUIMetadata n with
  | Some meta => otherUIFields meta
  | None => []
  end.

(** Two nodes that differ at most in their position. *)
Definition sameApartFromPosition (n n' : GraphNode) : Prop :=
  absoluteFilePathIsID n' = absoluteFilePathIsID n ∧
  content n' = content n ∧
  outgoingEdges n' = outgoingEdges n ∧
  otherUIFieldsOf n' = otherUIFieldsOf n.

(** What carrying the position of the previous graph over does to the
    entry of a rebuilt graph under [id]. *)
Definition carryPosition (prevNodes : gmap string GraphNode) (id : string)
    (entry : option GraphNode) : option GraphNode :=
  match positionOf (prevNodes !! id) with
  | Some xy => (λ n, withPosition n (Some xy)) <$> entry
  | None => entry
  end.

(** The request [loadAndPushGraph] makes before it asks for the listing: the
    directory is loaded when there is no current graph yet. *)
Definition loadDirectoryEvents (w : World) : list Event :=
  match _currentGraph (shim w), vscodePath with
  | None, Some p =>
      if (String.length p =? 0)%nat then []
      else let req := LoadDirectoryRequest (getVoicetreePath p) in
           [Fetched req (backend (trace w) req)]
  | _, _ => []
  end.

(** The answer of the backend to the [/files] request of a poll started
    in [w]. *)
Definition filesOutcome (w : World) : FetchOutcome :=
  backend (trace w ++ loadDirectoryEvents w) FilesRequest.

(** A poll started in [w] gets past its two guards and receives [files]. *)
Definition receivesListing (w : World) (files : list FileEntry) : Prop :=
  noBackendPort (shim w) = false ∧
  _suppressPolling (shim w) = false ∧
  filesOutcome w = Resolved {| ok := true; body := BodyFiles files |}.

(** The world once the requests of a poll are made. *)
Definition afterFetch (w : World) : World :=
  {| shim := shim w;
     trace := trace w ++ loadDirectoryEvents w ++ [Fetched FilesRequest (filesOutcome w)] |}.

(** The request the loop of [applyGraphDelta] makes for an operation. *)
Definition requestFor (d : NodeDelta) : Request :=
  match d with
  | UpsertNode node =>
      WriteNodeRequest (mdPath (absoluteFilePathIsID node)) (fromNodeToMarkdownContent node)
  | DeleteNode nodeId => DeleteNodeRequest (mdPath nodeId)
  end.

(** The trace once every operation of a delta was sent to the backend. *)
Fixpoint persistTrace (delta : GraphDelta) (tr : list Event) : list Event :=
  match delta with
  | [] => tr
  | d :: rest =>
      persistTrace rest (tr ++ [Fetched (requestFor d) (backend tr (requestFor d))])
  end.

(** The event is the given operation going to the backend, whatever the
    backend made of it. *)
Definition persists (d : NodeDelta) (e : Event) : Prop :=
  ∃ out, e = Fetched (requestFor d) out.

(** The delta [pushFullGraphToUI] sends when [restored] replaces [before]. *)
Definition jumpDelta (before restored : Graph) : GraphDelta :=
  (DeleteNode <$> filter (λ id, nodes restored !! id = None) (objectKeys (nodes before)))
  ++ (UpsertNode <$> (map_to_list (nodes restored)).*2).

(** What every reachable state satisfies: without a current graph there is
    no history, and the two stacks together never exceed the capacity. *)
Definition historyInvariant (st : ShimState) : Prop :=
  (_currentGraph st = None → _undoStack st = [] ∧ _redoStack st = []) ∧
  (length (_undoStack st) + length (_redoStack st) ≤ MAX_UNDO)%nat.

(** The string has no colon. *)
Fixpoint colonFree (s : string) : bool :=
  match s with
  | EmptyString => true
  | String c rest => negb (Ascii.eqb c ":"%char) && colonFree rest
  end.

(** [f] with one character appended to its content. *)
Definition appendChar (f : FileEntry) (c : ascii) : FileEntry :=
  {| path := path f; fileContent := fileContent f +:+ String c "" |}.

(** The synchronous part of [performUndo] (lines 176-181): what has
    happened when the call first yields, at the [await] of line 182. The
    value is [None] when the call returned at its guard, and the graph to
    hand to [pushFullGraphToUI] otherwise. *)
Definition performUndo_untilAwait : Js (option (option Graph)) :=
  st ← getState;
  match pop (_undoStack st) with
  | None => mret None
  | Some (prev, rest) =>
      modify (set_suppressPolling true) ;;
      modify (set_undoStack rest) ;;
      st ← getState;
      let beforeGraph := _currentGraph st in
      match _currentGraph st with
      | Some g => modify (λ st, set_redoStack (push (_redoStack st) (structuredClone g)) st)
      | None => mret ()
      end ;;
      modify (set_currentGraph (Some prev)) ;;
      mret (Some beforeGraph)
  end.

(** The synchronous part of [performRedo] (lines 188-193). *)
Definition performRedo_untilAwait : Js (option (option Graph)) :=
  st ← getState;
  match pop (_redoStack st) with
  | None => mret None
  | Some (next, rest) =>
      modify (set_suppressPolling true) ;;
      modify (set_redoStack rest) ;;
      st ← getState;
      let beforeGraph := _currentGraph st in
      match _currentGraph st with
      | Some g => modify (λ st, set_undoStack (push (_undoStack st) (structuredClone g)) st)
      | None => mret ()
      end ;;
      modify (set_currentGraph (Some next)) ;;
      mret (Some beforeGraph)
  end.

(** What [performUndo] and [performRedo] do once resumed (lines 182-184 and
    194-195). *)
Definition resumeAfterRestore (r : option (option Graph)) : Js unit :=
  match r with
  | None => mret ()
  | Some beforeGraph =>
      pushFullGraphToUI beforeGraph ;;
      emit (SetTimeout ClearSuppressPolling 5000)
  end.

(** ** Notions used to state the further properties *)

(** Two files a fingerprint cannot tell apart: same path, same length of
    content, same first 200 characters. *)
Definition sameSample (f f' : FileEntry) : Prop :=
  path f = path f' ∧
  String.length (fileContent f) = String.length (fileContent f') ∧
  slice0 200 (fileContent f) = slice0 200 (fileContent f').

(** The events a call may add to the trace without touching the polling
    interval: requests, timers that fire once, and calls of the UI callback
    that is registered. *)
Definition quietEvent (cb : option Subscriber) (e : Event) : Prop :=
  match e with
  | Fetched _ _ => True
  | SetTimeout _ _ => True
  | UIUpdate c _ => cb = Some c
  | SetInterval _ _ => False
  | ClearInterval => False
  end.

(** The event is a request to the backend. *)
Definition isRequest (e : Event) : Prop := ∃ req out, e = Fetched req out.

(** The world in which a forced refresh starts its poll. *)
Definition invalidated (w : World) : World :=
  {| shim := set_lastFileFingerprint "" (shim w); trace := trace w |}.

(** The number of polling intervals that are running, read off the trace:
    those set and not cleared. *)
Fixpoint runningIntervals (tr : list Event) : Z :=
  match tr with
  | [] => 0
  | SetInterval _ _ :: rest => (1 + runningIntervals rest)%Z
  | ClearInterval :: rest => (runningIntervals rest - 1)%Z
  | _ :: rest => runningIntervals rest
  end.

(** The three stretches of code that call the UI callback. Each runs
    without a break from the last [await] before the call to the end of its
    function, so that what it reads of the state is the state it starts in. *)

(** [applyGraphDelta] for a non-empty delta, up to the end of its loop
    (lines 104-132). *)
Definition applyGraphDelta_untilWritten (delta : GraphDelta) : Js unit :=
  st ← getState;
  match _currentGraph st with
  | Some g => modify (saveUndoState g)
  | None => mret ()
  end ;;
  st ← getState;
  let oldGraph := getCurrentGraph st in
  modify (set_currentGraph (Some (applyGraphDeltaToGraph oldGraph delta))) ;;
  forEach delta persistNodeDelta.

(** [applyGraphDelta] once the last write or delete has been awaited
    (lines 134-140). *)
Definition applyGraphDelta_afterWrites (delta : GraphDelta) : Js unit :=
  st ← getState;
  match _graphUpdateCallback st with
  | Some cb => emit (UIUpdate cb delta)
  | None => mret ()
  end ;;
  modify (set_lastFileFingerprint "").

(** [loadAndPushGraph] once the imports of lines 814-818 have been awaited
    (lines 821-862). *)
Definition loadAndPushGraph_afterImports (files : list FileEntry) : Js bool :=
  let '(graph, allDeltas) := rebuild files in
  st ← getState;
  let graph := preservePositions graph (_currentGraph st) in
  modify (set_currentGraph (Some graph)) ;;
  match _graphUpdateCallback st with
  | Some cb =>
      if (0 <? length allDeltas)%nat then emit (UIUpdate cb allDeltas)
      else mret ()
  | None => mret ()
  end ;;
  mret (0 <? length allDeltas)%nat.

(** [pushFullGraphToUI] once the import of line 204 has been awaited
    (lines 205-220). The call of line 219 is made without a test: it throws
    when the callback has been taken away in the meantime. The current graph
    was there at line 203 and nothing sets it back to [null]; reading the
    nodes of [null] would throw. *)
Definition pushFullGraphToUI_afterImport (previousGraph : option Graph) : Js unit :=
  st ← getState;
  match _currentGraph st with
  | Some cur =>
      let upsertDeltas := mapNewGraphToDelta cur in
      let deleteDeltas := deleteDeltasFor previousGraph cur in
      let fullDelta := deleteDeltas ++ upsertDeltas in
      match _graphUpdateCallback st with
      | Some cb =>
          emit (UIUpdate cb fullDelta) ;;
          modify (set_lastFileFingerprint "")
      | None => λ w, (Abrupt, w)
      end
  | None => λ w, (Abrupt, w)
  end.

(** From [w] to [w'] the trace has grown, the registration of the UI
    callback is as it was, and every call of a UI callback that was added
    is a call of the callback registered in [w]. *)
Definition callsTheSubscriberOf (w w' : World) : Prop :=
  ∃ events,
    trace w' = trace w ++ events ∧
    _graphUpdateCallback (shim w') = _graphUpdateCallback (shim w) ∧
    ∀ cb delta, UIUpdate cb delta ∈ events → _graphUpdateCallback (shim w) = Some cb.

(** ** Properties *)

(** *** Arrays used as stacks *)

Lemma pop_push {A} (l : list A) (x : A) : pop (push l x) = Some (x, l).
Proof.
  unfold push. induction l as [|y l IH]; [done|].
  change ((y :: l) ++ [x]) with (y :: (l ++ [x])).
  cbn [pop]. rewrite IH. by destruct l.
Qed.

Lemma pop_Some {A} (l rest : list A) (x : A) :
  pop l = Some (x, rest) → l = push rest x.
Proof.
  unfold push. revert rest. induction l as [|y l IH]; intros rest H; [done|].
  destruct l as [|z l].
  - by inversion H.
  - cbn [pop] in H. cbn [pop] in IH.
    destruct (match l with [] => _ | _ => _ end) as [[u r]|] eqn:E; [|done].
    inversion H; subst. by rewrite (IH r eq_refl).
Qed.

Lemma pop_None {A} (l : list A) : pop l = None ↔ l = [].
Proof.
  split; [|by intros ->].
  induction l as [|y l IH]; [done|].
  destruct l as [|z l]; [done|].
  cbn [pop]. cbn [pop] in IH.
  destruct (match l with [] => _ | _ => _ end) as [[u r]|]; [done|].
  intros _. by specialize (IH eq_refl).
Qed.

Lemma length_push {A} (l : list A) (x : A) : length (push l x) = S (length l).
Proof. unfold push. rewrite length_app. simpl. lia. Qed.

Lemma length_shift {A} (l : list A) : length (shift l) = pred (length l).
Proof. by destruct l. Qed.

(** *** Running a computation *)

Ltac js_unfold :=
  unfold mbind, Js_bind, mret, Js_ret, getState, modify, emit, tryCatch in *.

(** *** Position save *)

Lemma withPosition_withPosition n p q :
  withPosition (withPosition n p) q = withPosition n q.
Proof. reflexivity. Qed.

Lemma withPosition_same n p : sameApartFromPosition n (withPosition n p).
Proof. by repeat split. Qed.

Lemma sameApartFromPosition_refl n : sameApartFromPosition n n.
Proof. by repeat split. Qed.

Lemma positionOf_withPosition n p : positionOf (Some (withPosition n p)) = p.
Proof. reflexivity. Qed.

Lemma assignNode_lookup_ne nodeId node graph id :
  nodeId ≠ id → ownNodes (assignNode nodeId node graph) !! id = ownNodes graph !! id.
Proof.
  intros Hne. unfold assignNode. destruct (_ && _); cbn [ownNodes]; [done|].
  by rewrite lookup_insert_ne.
Qed.

Lemma assignNode_own nodeId node old graph :
  ownNodes graph !! nodeId = Some old →
  assignNode nodeId node graph
  = {| ownNodes := <[nodeId := node]> (ownNodes graph);
       replacedPrototype := replacedPrototype graph |}.
Proof.
  intros Hold. unfold assignNode. rewrite (bool_decide_eq_false_2 _); [|by rewrite Hold].
  by rewrite andb_false_r.
Qed.

(** An entry leaves the properties under other names alone. *)
Lemma savePosition_lookup_ne graph cy id :
  data_id cy ≠ id → ownNodes (savePosition graph cy) !! id = ownNodes graph !! id.
Proof.
  intros Hne. unfold savePosition. destruct (cyPosition cy) as [pos|]; [|done].
  destruct (ownNodes graph !! data_id cy); [by apply assignNode_lookup_ne|].
  destruct (inheritedBy graph (data_id cy)); [by apply assignNode_lookup_ne|done].
Qed.

(** What an entry does to an own property. *)
Lemma savePosition_lookup graph cy id n :
  ownNodes graph !! id = Some n →
  ownNodes (savePosition graph cy) !! id =
    if decide (data_id cy = id)
    then match cyPosition cy with
         | Some pos => Some (withPosition n (Some pos))
         | None => Some n
         end
    else Some n.
Proof.
  intros Hn. destruct (decide (data_id cy = id)) as [Hid|Hne].
  - unfold savePosition. rewrite Hid. destruct (cyPosition cy) as [[x y]|]; [|done].
    cbn [pos_x pos_y]. rewrite Hn, (assignNode_own _ _ _ _ Hn). cbn [ownNodes].
    by rewrite lookup_insert_eq.
  - by rewrite savePosition_lookup_ne.
Qed.

(** An own property stays one, with the position of an entry naming it, if
    it has changed at all. *)
Lemma savePositions_lookup graph cyNodes id n :
  ownNodes graph !! id = Some n →
  ownNodes (fold_left savePosition cyNodes graph) !! id = Some n ∨
  ∃ cy pos, cy ∈ cyNodes ∧ data_id cy = id ∧ cyPosition cy = Some pos ∧
            ownNodes (fold_left savePosition cyNodes graph) !! id
              = Some (withPosition n (Some pos)).
Proof.
  intros Hn. induction cyNodes as [|cy l IH] using rev_ind; [by left|].
  rewrite fold_left_app. cbn [fold_left].
  destruct IH as [IH | (cy' & pos' & Hin & Hcy' & Hpos' & IH)];
    rewrite (savePosition_lookup _ cy id _ IH);
    (destruct (decide (data_id cy = id)) as [Hid|Hne];
     [destruct (cyPosition cy) as [pos|] eqn:Hpos|]).
  - right. exists cy, pos.
    split; [apply elem_of_app; right; by apply list_elem_of_singleton|]. done.
  - by left.
  - by left.
  - right. exists cy, pos.
    split; [apply elem_of_app; right; by apply list_elem_of_singleton|]. done.
  - right. exists cy', pos'. split; [apply elem_of_app; by left|]. done.
  - right. exists cy', pos'. split; [apply elem_of_app; by left|]. done.
Qed.

(** An entry without position, or naming neither an own property nor an
    inherited name, changes nothing. *)
Lemma savePosition_ignored graph cy :
  cyPosition cy = None ∨
  (ownNodes graph !! data_id cy = None ∧ inheritedBy graph (data_id cy) = false) →
  savePosition graph cy = graph.
Proof.
  unfold savePosition. intros [->|[-> ->]]; [done|]. by destruct (cyPosition cy).
Qed.

Lemma inheritedBy_ordinary graph id :
  replacedPrototype graph = None → id ∉ objectPrototypeNames →
  inheritedBy graph id = false.
Proof.
  intros Hproto Hid. unfold inheritedBy. rewrite Hproto.
  by rewrite (bool_decide_eq_false_2 _ Hid).
Qed.

(** A batch that names no inherited property leaves the prototype in place
    and adds no property. *)
Lemma savePositions_ordinary graph cyNodes :
  replacedPrototype graph = None →
  Forall (λ cy, data_id cy ∉ objectPrototypeNames) cyNodes →
  replacedPrototype (fold_left savePosition cyNodes graph) = None ∧
  ∀ id, ownNodes graph !! id = None →
        ownNodes (fold_left savePosition cyNodes graph) !! id = None.
Proof.
  intros Hproto. induction cyNodes as [|cy l IH] using rev_ind; intros Hall; [done|].
  apply Forall_app in Hall as [Hl Hcy]. apply Forall_inv in Hcy.
  rewrite fold_left_app. cbn [fold_left]. destruct (IH Hl) as [IHproto IHnone].
  set (graph' := fold_left savePosition l graph) in *.
  assert (replacedPrototype (savePosition graph' cy) = None
          ∧ ∀ id, ownNodes graph' !! id = None →
                  ownNodes (savePosition graph' cy) !! id = None) as [? Hstep].
  { unfold savePosition. destruct (cyPosition cy) as [pos|]; [|done].
    destruct (ownNodes graph' !! data_id cy) as [node|] eqn:Hnode.
    - rewrite (assignNode_own _ _ _ _ Hnode). cbn. split; [done|]. intros id Hid.
      rewrite lookup_insert_ne; [done|]. intros <-. congruence.
    - by rewrite (inheritedBy_ordinary _ _ IHproto Hcy). }
  split; [done|]. intros id Hid. by apply Hstep, IHnone.
Qed.

(** The last entry that names an own property with a position wins. *)
Lemma savePositions_last graph l1 l2 id pos node :
  ownNodes (fold_left savePosition l1 graph) !! id = Some node →
  Forall (λ cy, data_id cy = id → cyPosition cy = None) l2 →
  ownNodes (fold_left savePosition
              (l1 ++ {| data_id := id; cyPosition := Some pos |} :: l2) graph) !! id
  = Some (withPosition node (Some pos)).
Proof.
  intros Hnode Hrest. rewrite fold_left_app. cbn [fold_left].
  set (graph1 := savePosition _ _).
  assert (ownNodes graph1 !! id = Some (withPosition node (Some pos))) as Hgraph1.
  { unfold graph1. rewrite (savePosition_lookup _ _ id _ Hnode). cbn.
    by rewrite decide_True. }
  clearbody graph1. generalize dependent (withPosition node (Some pos)).
  intros node1. revert graph1.
  induction Hrest as [|cy l2 Hcy _ IH]; intros graph1 Hgraph1; [done|].
  cbn [fold_left]. apply IH. rewrite (savePosition_lookup _ _ id _ Hgraph1).
  destruct (decide _) as [E|]; [|done]. by rewrite (Hcy E).
Qed.

(** X20. Position save touches positions only, for a batch that names no
    property inherited from [Object.prototype]: with a current graph [g],
    [saveNodePositions] completes normally, leaves the trace and every state
    variable other than the current graph as they were, and the graph [g']
    it stores has the node ids of [g]; a node of [g'] differs from the node
    of [g] at most in its position, and if it differs, the position is that
    of a batch entry naming the node; a node no positioned entry names is
    unchanged; an entry with a position that names a node of [g] gives the
    node that position, unless a later entry gives it another; and an entry
    without position, or naming an id that [g] does not have, can be
    removed from the batch without changing the outcome. *)
Theorem position_save_touches_positions_only
    (cyNodes : list CyNode) (w : World) (g : Graph) :
  _currentGraph (shim w) = Some g →
  Forall (λ cy, data_id cy ∉ objectPrototypeNames) cyNodes →
  ∃ g',
    saveNodePositions cyNodes w
      = (Normal (), {| shim := set_currentGraph (Some g') (shim w); trace := trace w |}) ∧
    (∀ id, nodes g !! id = None → nodes g' !! id = None) ∧
    (∀ id n, nodes g !! id = Some n →
       ∃ n', nodes g' !! id = Some n' ∧ sameApartFromPosition n n' ∧
             (n' = n ∨ ∃ cy pos, cy ∈ cyNodes ∧ data_id cy = id ∧
                                 cyPosition cy = Some pos ∧
                                 positionOf (Some n') = Some pos)) ∧
    (∀ id, (∀ cy, cy ∈ cyNodes → data_id cy = id → cyPosition cy = None) →
           nodes g' !! id = nodes g !! id) ∧
    (∀ l1 cy l2 pos, cyNodes = l1 ++ cy :: l2 →
       cyPosition cy = Some pos → is_Some (nodes g !! data_id cy) →
       Forall (λ later, data_id later = data_id cy → cyPosition later = None) l2 →
       positionOf (nodes g' !! data_id cy) = Some pos) ∧
    (∀ l1 cy l2, cyNodes = l1 ++ cy :: l2 →
       cyPosition cy = None ∨ nodes g !! data_id cy = None →
       saveNodePositions (l1 ++ l2) w = saveNodePositions cyNodes w).
Proof.
  intros Hcur Hordinary.
  set (graph := {| ownNodes := nodes g; replacedPrototype := None |}).
  exists {| nodes := ownNodes (fold_left savePosition cyNodes graph) |}.
  destruct (savePositions_ordinary graph cyNodes eq_refl Hordinary) as [_ Hnone].
  split; [|split; [|split; [|split; [|split]]]].
  - unfold saveNodePositions. js_unfold. by rewrite Hcur.
  - intros id Hid. cbn. by apply Hnone.
  - intros id n Hid. cbn.
    destruct (savePositions_lookup graph cyNodes id n Hid)
      as [H | (cy & pos & Hin & Hcy & Hpos & H)].
    + exists n. split; [done|]. split; [apply sameApartFromPosition_refl|by left].
    + exists (withPosition n (Some pos)). split; [done|].
      split; [apply withPosition_same|]. right. by exists cy, pos.
  - intros id Hall. cbn. destruct (nodes g !! id) as [n|] eqn:Hid; [|by apply Hnone].
    destruct (savePositions_lookup graph cyNodes id n Hid)
      as [H | (cy & pos & Hin & Hcy & Hpos & _)]; [done|].
    rewrite (Hall cy Hin Hcy) in Hpos. done.
  - intros l1 [id pos'] l2 pos -> Hpos [n Hn] Hlater. cbn in Hpos, Hn, Hlater |- *.
    subst pos'.
    assert (∃ node, ownNodes (fold_left savePosition l1 graph) !! id = Some node)
      as [node Hnode].
    { destruct (savePositions_lookup graph l1 id n Hn) as [H|(? & ? & _ & _ & _ & H)];
        by eexists. }
    by rewrite (savePositions_last graph l1 l2 id pos node Hnode Hlater).
  - intros l1 cy l2 -> Hcy. unfold saveNodePositions. js_unfold. rewrite Hcur.
    rewrite !fold_left_app. cbn [fold_left]. fold graph.
    rewrite (savePosition_ignored _ cy); [done|].
    destruct Hcy as [Hcy|Hcy]; [by left|right].
    apply Forall_app in Hordinary as [Hl1 Hrest]. apply Forall_cons_1 in Hrest as [Hname _].
    destruct (savePositions_ordinary graph l1 eq_refl Hl1) as [Hproto Hnone1].
    split; [by apply Hnone1|by apply inheritedBy_ordinary].
Qed.

(** *** The poll, case by case *)

Lemma ensureDirectoryLoaded_run w :
  ensureDirectoryLoaded w
  = (Normal (), {| shim := shim w; trace := trace w ++ loadDirectoryEvents w |}).
Proof.
  unfold ensureDirectoryLoaded, loadDirectoryEvents. js_unfold.
  destruct w as [st tr]; cbn.
  destruct (_currentGraph st); [by rewrite app_nil_r|].
  destruct vscodePath as [p|]; [|by rewrite app_nil_r].
  destruct (String.length p =? 0)%nat; [by rewrite app_nil_r|].
  unfold fetch; cbn. by destruct (backend tr _).
Qed.

(** The world a poll leaves when it received [files] and went on to
    process them is the one [processListing] leaves. *)
Lemma loadAndPushGraph_listing w files :
  receivesListing w files →
  loadAndPushGraph w
  = match processListing files (afterFetch w) with
    | (Normal b, w') => (Normal b, w')
    | (Abrupt, w') => (Normal false, w')
    end.
Proof.
  intros (Hport & Hsup & Hfiles).
  unfold loadAndPushGraph. js_unfold. rewrite Hport, Hsup.
  rewrite ensureDirectoryLoaded_run. unfold fetch. cbn [trace shim].
  unfold filesOutcome in Hfiles. rewrite Hfiles. cbn.
  unfold afterFetch, filesOutcome. rewrite Hfiles, app_assoc. done.
Qed.

Lemma processListing_unchanged w files :
  fingerprintOf files = _lastFileFingerprint (shim w) →
  processListing files w = (Normal false, w).
Proof.
  intros Hfp. unfold processListing. js_unfold.
  apply String.eqb_eq in Hfp. by rewrite Hfp.
Qed.

Lemma processListing_empty w :
  _lastFileFingerprint (shim w) ≠ "" →
  processListing [] w
  = (Normal false,
     {| shim := set_currentGraph (Some {| nodes := ∅ |})
                  (set_lastFileFingerprint "" (shim w));
        trace := trace w |}).
Proof.
  intros Hfp. unfold processListing. js_unfold.
  change (fingerprintOf []) with "".
  destruct (String.eqb_spec "" (_lastFileFingerprint (shim w))) as [E|_]; [by rewrite <- E in Hfp|].
  done.
Qed.

Lemma processListing_changed w files :
  files ≠ [] →
  fingerprintOf files ≠ _lastFileFingerprint (shim w) →
  processListing files w
  = (Normal (0 <? length (rebuild files).2)%nat,
     {| shim := set_currentGraph
                  (Some (preservePositions (rebuild files).1 (_currentGraph (shim w))))
                  (set_lastFileFingerprint (fingerprintOf files) (shim w));
        trace := trace w ++
                 match _graphUpdateCallback (shim w) with
                 | Some cb => if (0 <? length (rebuild files).2)%nat
                              then [UIUpdate cb (rebuild files).2] else []
                 | None => []
                 end |}).
Proof.
  intros Hne Hfp. unfold processListing. js_unfold.
  destruct (String.eqb_spec (fingerprintOf files) (_lastFileFingerprint (shim w))) as [E|_]; [done|].
  destruct files as [|f files]; [done|]. cbn [length Nat.eqb].
  destruct (rebuild (f :: files)) as [graph allDeltas]. cbn.
  destruct (_graphUpdateCallback (shim w)) as [cb|]; [|by rewrite app_nil_r].
  destruct allDeltas; cbn; [by rewrite app_nil_r|done].
Qed.

(** Whatever it receives, [processListing] completes normally and touches
    nothing but the fingerprint, the current graph and the trace. *)
Lemma processListing_frame w files :
  ∃ b w', processListing files w = (Normal b, w') ∧
    _graphUpdateCallback (shim w') = _graphUpdateCallback (shim w) ∧
    _pollIntervalId (shim w') = _pollIntervalId (shim w) ∧
    _backendPort (shim w') = _backendPort (shim w) ∧
    _undoStack (shim w') = _undoStack (shim w) ∧
    _redoStack (shim w') = _redoStack (shim w) ∧
    _suppressPolling (shim w') = _suppressPolling (shim w) ∧
    (is_Some (_currentGraph (shim w)) → is_Some (_currentGraph (shim w'))).
Proof.
  destruct (decide (fingerprintOf files = _lastFileFingerprint (shim w))) as [E|E].
  - rewrite processListing_unchanged by done. by eexists _, _.
  - destruct (decide (files = [])) as [->|Hne].
    + rewrite processListing_empty by (intros E'; by rewrite E' in E).
      eexists _, _. split; [done|]. by repeat split.
    + rewrite processListing_changed by done.
      eexists _, _. split; [done|]. by repeat split.
Qed.

(** A poll always completes normally, with the same frame. *)
Lemma loadAndPushGraph_frame w :
  ∃ b w', loadAndPushGraph w = (Normal b, w') ∧
    _graphUpdateCallback (shim w') = _graphUpdateCallback (shim w) ∧
    _pollIntervalId (shim w') = _pollIntervalId (shim w) ∧
    _backendPort (shim w') = _backendPort (shim w) ∧
    _undoStack (shim w') = _undoStack (shim w) ∧
    _redoStack (shim w') = _redoStack (shim w) ∧
    _suppressPolling (shim w') = _suppressPolling (shim w) ∧
    (is_Some (_currentGraph (shim w)) → is_Some (_currentGraph (shim w'))).
Proof.
  unfold loadAndPushGraph. js_unfold.
  destruct (noBackendPort (shim w)); [by eexists _, _|].
  destruct (_suppressPolling (shim w)) eqn:Hsup; [by eexists _, _|].
  rewrite ensureDirectoryLoaded_run. unfold fetch. cbn [trace shim].
  destruct (backend _ FilesRequest) as [|[[] bd]]; cbn;
    [by eexists _, _| |by eexists _, _].
  unfold respJson; cbn. destruct bd as [| |files]; cbn; [by eexists _, _..|].
  match goal with |- context [processListing files ?w0] =>
    destruct (processListing_frame w0 files) as (b & w' & -> & H) end.
  cbn in H. rewrite Hsup in H. by eexists _, _.
Qed.

(** *** The graph builder *)

Lemma objectKeys_elem (m : gmap string GraphNode) id :
  id ∈ objectKeys m ↔ is_Some (m !! id).
Proof.
  unfold objectKeys. rewrite list_elem_of_fmap. split.
  - intros ([k n] & -> & Hin). apply elem_of_map_to_list in Hin. by exists n.
  - intros [n Hn]. exists (id, n). split; [done|]. by apply elem_of_map_to_list.
Qed.

(** An [Added] event yields exactly one upsert, so every file of the listing
    is folded into the graph. *)
Lemma rebuildStep_Added graph allDeltas file :
  rebuildStep (graph, allDeltas) file
  = let node := {| absoluteFilePathIsID := path file;
                   content := fileContent file;
                   outgoingEdges :=
                     filter (λ target, is_Some (nodes graph !! target))
                            (parseOutboundReferences (fileContent file));
                   nodeUIMetadata := Some {| position := None; otherUIFields := [] |} |} in
    ({| nodes := <[path file := node]> (nodes graph) |}, allDeltas ++ [UpsertNode node]).
Proof. reflexivity. Qed.

Lemma rebuild_snoc files file :
  rebuild (files ++ [file]) = rebuildStep (rebuild files) file.
Proof. unfold rebuild. by rewrite fold_left_app. Qed.

(** The rebuilt graph has a node for a path exactly when the listing has a
    file for it. *)
Lemma rebuild_dom files id :
  is_Some (nodes (rebuild files).1 !! id) ↔ id ∈ path <$> files.
Proof.
  induction files as [|file files IH] using rev_ind.
  - cbn. rewrite lookup_empty. split; [by intros [? ?]|by intros ?%elem_of_nil].
  - rewrite rebuild_snoc. destruct (rebuild files) as [graph allDeltas].
    rewrite rebuildStep_Added. cbn [fst nodes] in *.
    rewrite fmap_app, elem_of_app. cbn. rewrite list_elem_of_singleton.
    destruct (decide (path file = id)) as [->|Hne].
    + rewrite lookup_insert_eq. split; [by right|by eexists].
    + rewrite lookup_insert_ne by done. rewrite IH. split; [by left|].
      by intros [?|?].
Qed.

(** A rebuilt node carries no position. *)
Lemma rebuild_no_position files id :
  positionOf (nodes (rebuild files).1 !! id) = None.
Proof.
  induction files as [|file files IH] using rev_ind.
  - cbn. by rewrite lookup_empty.
  - rewrite rebuild_snoc. destruct (rebuild files) as [graph allDeltas].
    rewrite rebuildStep_Added. cbn [fst nodes] in *.
    destruct (decide (path file = id)) as [->|Hne].
    + by rewrite lookup_insert_eq.
    + by rewrite lookup_insert_ne.
Qed.

(** The listing is never empty-handed: every file adds a delta. *)
Lemma rebuild_deltas_length files :
  length (rebuild files).2 = length files.
Proof.
  induction files as [|file files IH] using rev_ind; [done|].
  rewrite rebuild_snoc. destruct (rebuild files) as [graph allDeltas].
  rewrite rebuildStep_Added. cbn [snd] in *. rewrite !length_app, IH. done.
Qed.

(** *** Carrying positions over *)

Lemma carryPosition_idem prevNodes id entry :
  carryPosition prevNodes id (carryPosition prevNodes id entry)
  = carryPosition prevNodes id entry.
Proof.
  unfold carryPosition. destruct (positionOf (prevNodes !! id)); [|done].
  by destruct entry.
Qed.

Lemma preservePosition_lookup prevNodes (m : gmap string GraphNode) k id :
  preservePosition prevNodes m k !! id
  = if decide (k = id) then carryPosition prevNodes id (m !! id) else m !! id.
Proof.
  unfold preservePosition, carryPosition.
  destruct (decide (k = id)) as [->|Hne].
  - destruct (positionOf (prevNodes !! id)); [|done].
    destruct (m !! id) eqn:E; cbn; [by rewrite lookup_insert_eq|done].
  - destruct (positionOf (prevNodes !! k)); [|done].
    destruct (m !! k); [by rewrite lookup_insert_ne|done].
Qed.

Lemma preservePosition_fold prevNodes ks (m : gmap string GraphNode) id :
  fold_left (preservePosition prevNodes) ks m !! id
  = if decide (id ∈ ks) then carryPosition prevNodes id (m !! id) else m !! id.
Proof.
  revert m. induction ks as [|k ks IH]; intros m.
  - cbn. destruct (decide _) as [H|]; [by apply elem_of_nil in H|done].
  - cbn [fold_left]. rewrite IH, preservePosition_lookup.
    destruct (decide (k = id)) as [->|Hne].
    + rewrite carryPosition_idem. rewrite (decide_True _ _ (list_elem_of_here id ks)).
      by destruct (decide _).
    + destruct (decide (id ∈ ks)) as [Hin|Hnin].
      * by rewrite decide_True by (by apply list_elem_of_further).
      * rewrite decide_False; [done|]. intros [?|?]%elem_of_cons; congruence.
Qed.

Lemma preservePositions_lookup graph prevG id :
  nodes (preservePositions graph (Some prevG)) !! id
  = carryPosition (nodes prevG) id (nodes graph !! id).
Proof.
  cbn. rewrite preservePosition_fold.
  destruct (decide _) as [|Hnin]; [done|].
  rewrite objectKeys_elem in Hnin.
  destruct (nodes graph !! id) eqn:E; [by destruct Hnin|].
  unfold carryPosition. by destruct (positionOf _).
Qed.

(** The poll that rebuilds: it received a non-empty listing whose
    fingerprint is new. *)
Lemma loadAndPushGraph_rebuilds w files :
  receivesListing w files →
  files ≠ [] →
  fingerprintOf files ≠ _lastFileFingerprint (shim w) →
  loadAndPushGraph w
  = (Normal true,
     {| shim := set_currentGraph
                  (Some (preservePositions (rebuild files).1 (_currentGraph (shim w))))
                  (set_lastFileFingerprint (fingerprintOf files) (shim w));
        trace := trace (afterFetch w) ++
                 match _graphUpdateCallback (shim w) with
                 | Some cb => [UIUpdate cb (rebuild files).2]
                 | None => []
                 end |}).
Proof.
  intros Hrecv Hne Hfp. rewrite (loadAndPushGraph_listing w files Hrecv).
  rewrite processListing_changed by done.
  assert ((0 <? length (rebuild files).2)%nat = true) as ->.
  { rewrite rebuild_deltas_length. destruct files; [done|]. done. }
  done.
Qed.

(** C1. Position preservation across rebuild: when a poll rebuilds the graph
    from a listing while a previous graph [prevG] is current, the graph it
    adopts gives every node of the rebuilt graph for which [prevG] holds a
    position that position, everything else of the node (id, content, edges,
    other metadata) being as rebuilt; it has no node for an id the rebuilt
    graph lacks, whatever [prevG] has there; a node that only the rebuilt
    graph has is adopted as rebuilt, without a position; and so is any node
    for which [prevG] holds no position. *)
Theorem position_preserved_across_rebuild (w : World) (files : list FileEntry) (prevG : Graph) :
  receivesListing w files →
  files ≠ [] →
  fingerprintOf files ≠ _lastFileFingerprint (shim w) →
  _currentGraph (shim w) = Some prevG →
  let fresh := (rebuild files).1 in
  ∃ merged w',
    loadAndPushGraph w = (Normal true, w') ∧
    _currentGraph (shim w') = Some merged ∧
    ∀ id,
      (∀ n xy, nodes fresh !! id = Some n →
               positionOf (nodes prevG !! id) = Some xy →
               positionOf (Some n) = None →
               ∃ n', nodes merged !! id = Some n' ∧
                     positionOf (Some n') = Some xy ∧
                     sameApartFromPosition n n') ∧
      (nodes fresh !! id = None → nodes merged !! id = None) ∧
      (nodes prevG !! id = None →
         nodes merged !! id = nodes fresh !! id ∧
         positionOf (nodes merged !! id) = None) ∧
      (positionOf (nodes prevG !! id) = None →
         nodes merged !! id = nodes fresh !! id).
Proof.
  intros Hrecv Hne Hfp Hcur fresh.
  rewrite (loadAndPushGraph_rebuilds w files Hrecv Hne Hfp), Hcur.
  eexists _, _. split; [done|]. split; [done|].
  intros id. rewrite preservePositions_lookup. fold fresh. unfold carryPosition.
  split; [|split; [|split]].
  - intros n xy Hn Hxy _. rewrite Hxy, Hn. cbn.
    exists (withPosition n (Some xy)). split; [done|].
    split; [done|apply withPosition_same].
  - intros ->. by destruct (positionOf _).
  - intros ->. cbn. split; [done|]. apply rebuild_no_position.
  - by intros ->.
Qed.

(** *** Local edits *)

Lemma persistNodeDelta_no_port d w :
  noBackendPort (shim w) = true →
  persistNodeDelta d w = (Normal (), w).
Proof.
  intros Hport. unfold persistNodeDelta, backendWriteNode, backendDeleteNode.
  js_unfold. destruct d; cbn beta; by rewrite Hport.
Qed.

Lemma persistNodeDelta_run d w :
  noBackendPort (shim w) = false →
  persistNodeDelta d w
  = (Normal (),
     {| shim := shim w;
        trace := trace w ++ [Fetched (requestFor d) (backend (trace w) (requestFor d))] |}).
Proof.
  intros Hport. unfold persistNodeDelta, backendWriteNode, backendDeleteNode, fetch.
  js_unfold. destruct d; cbn beta; rewrite Hport; cbn [requestFor];
    by destruct (backend (trace w) _).
Qed.

Lemma persist_run_no_port delta w :
  noBackendPort (shim w) = true →
  forEach delta persistNodeDelta w = (Normal (), w).
Proof.
  intros Hport. induction delta as [|d delta IH]; [done|].
  cbn [forEach]. unfold mbind, Js_bind.
  by rewrite persistNodeDelta_no_port.
Qed.

Lemma persist_run delta w :
  noBackendPort (shim w) = false →
  forEach delta persistNodeDelta w
  = (Normal (), {| shim := shim w; trace := persistTrace delta (trace w) |}).
Proof.
  revert w. induction delta as [|d delta IH]; intros w Hport; [by destruct w|].
  cbn [forEach persistTrace]. unfold mbind, Js_bind.
  rewrite persistNodeDelta_run by done. by rewrite IH.
Qed.

Lemma persistTrace_requests delta tr :
  ∃ events, persistTrace delta tr = tr ++ events ∧ Forall2 persists delta events.
Proof.
  revert tr. induction delta as [|d delta IH]; intros tr.
  - exists []. by rewrite app_nil_r.
  - cbn [persistTrace].
    destruct (IH (tr ++ [Fetched (requestFor d) (backend tr (requestFor d))]))
      as (events & -> & Hall).
    eexists (_ :: events). rewrite <- app_assoc. split; [done|].
    constructor; [by eexists|done].
Qed.

Lemma saveUndoState_length g st :
  (length (_undoStack st) ≤ MAX_UNDO)%nat →
  (length (_undoStack (saveUndoState g st)) ≤ MAX_UNDO)%nat ∧
  _redoStack (saveUndoState g st) = [].
Proof.
  intros Hlen. unfold saveUndoState, set_redoStack, set_undoStack.
  cbn [_undoStack _redoStack]. split; [|done].
  destruct (Nat.ltb_spec MAX_UNDO (length (push (_undoStack st) (structuredClone g)))) as [H|H].
  - rewrite length_shift, length_push. lia.
  - done.
Qed.

(** What [applyGraphDelta] does with a delta that has operations. *)
Lemma applyGraphDelta_run delta w :
  delta ≠ [] →
  applyGraphDelta delta w
  = (Normal (),
     {| shim :=
          set_lastFileFingerprint ""
            (set_currentGraph
               (Some (applyGraphDeltaToGraph (getCurrentGraph (shim w)) delta))
               match _currentGraph (shim w) with
               | Some g => saveUndoState g (shim w)
               | None => shim w
               end);
        trace :=
          (if noBackendPort (shim w) then trace w else persistTrace delta (trace w))
          ++ match _graphUpdateCallback (shim w) with
             | Some cb => [UIUpdate cb delta]
             | None => []
             end |}).
Proof.
  intros Hne. unfold applyGraphDelta.
  destruct delta as [|d delta]; [done|]. cbn [length Nat.eqb].
  set (dl := d :: delta). clearbody dl. js_unfold.
  destruct w as [st tr]. cbn [shim trace].
  destruct (noBackendPort st) eqn:Hport.
  - destruct (_currentGraph st) as [g|] eqn:Hcur; cbn [shim trace];
      rewrite persist_run_no_port by done; cbn [shim trace];
      destruct (_graphUpdateCallback st) eqn:Hcb; cbn; rewrite ?Hcb, ?Hcur, ?app_nil_r;
      try done.
  - destruct (_currentGraph st) as [g|] eqn:Hcur; cbn [shim trace];
      rewrite persist_run by done; cbn [shim trace];
      destruct (_graphUpdateCallback st) eqn:Hcb; cbn; rewrite ?Hcb, ?Hcur, ?app_nil_r;
      try done.
Qed.


(** *** Undo and redo *)

Lemma deleteDeltasFor_filter before cur :
  deleteDeltasFor (Some before) cur
  = DeleteNode <$> filter (λ id, nodes cur !! id = None) (objectKeys (nodes before)).
Proof.
  unfold deleteDeltasFor. induction (objectKeys (nodes before)) as [|id ids IH]; [done|].
  cbn [omap list_omap]. rewrite filter_cons.
  destruct (decide (nodes cur !! id = None)) as [Hnone|Hsome].
  - rewrite bool_decide_eq_false_2.
    + cbn. by rewrite <- IH.
    + rewrite elem_of_list_to_set, objectKeys_elem, Hnone. by intros [? ?].
  - rewrite bool_decide_eq_true_2; [exact IH|].
    rewrite elem_of_list_to_set, objectKeys_elem.
    by destruct (nodes cur !! id); [eexists|].
Qed.

Lemma mapNewGraphToDelta_values g :
  mapNewGraphToDelta g = UpsertNode <$> (map_to_list (nodes g)).*2.
Proof. unfold mapNewGraphToDelta. by rewrite <- list_fmap_compose. Qed.

Lemma pushFullGraphToUI_run previousGraph w :
  pushFullGraphToUI previousGraph w
  = match _currentGraph (shim w), _graphUpdateCallback (shim w) with
    | Some cur, Some cb =>
        (Normal (),
         {| shim := set_lastFileFingerprint "" (shim w);
            trace := trace w ++
              [UIUpdate cb (deleteDeltasFor previousGraph cur ++ mapNewGraphToDelta cur)] |})
    | _, _ => (Normal (), w)
    end.
Proof.
  unfold pushFullGraphToUI. js_unfold.
  destruct (_currentGraph (shim w)); [|done].
  by destruct (_graphUpdateCallback (shim w)).
Qed.

Lemma performUndo_empty w :
  _undoStack (shim w) = [] → performUndo w = (Normal (), w).
Proof. intros H. unfold performUndo. js_unfold. by rewrite H. Qed.

Lemma performRedo_empty w :
  _redoStack (shim w) = [] → performRedo w = (Normal (), w).
Proof. intros H. unfold performRedo. js_unfold. by rewrite H. Qed.

Lemma performUndo_run w rest prev :
  _undoStack (shim w) = push rest prev →
  performUndo w
  = (Normal (),
     {| shim :=
          {| _currentGraph := Some prev;
             _graphUpdateCallback := _graphUpdateCallback (shim w);
             _pollIntervalId := _pollIntervalId (shim w);
             _backendPort := _backendPort (shim w);
             _lastFileFingerprint :=
               match _graphUpdateCallback (shim w) with
               | Some _ => ""
               | None => _lastFileFingerprint (shim w)
               end;
             _undoStack := rest;
             _redoStack :=
               match _currentGraph (shim w) with
               | Some g => push (_redoStack (shim w)) g
               | None => _redoStack (shim w)
               end;
             _suppressPolling := true |};
        trace :=
          trace w
          ++ match _graphUpdateCallback (shim w) with
             | Some cb =>
                 [UIUpdate cb (deleteDeltasFor (_currentGraph (shim w)) prev
                               ++ mapNewGraphToDelta prev)]
             | None => []
             end
          ++ [SetTimeout ClearSuppressPolling 5000] |}).
Proof.
  destruct w as [[cur cb pid port fp undo redo sup] tr]. cbn [shim trace _undoStack].
  intros ->. unfold performUndo. js_unfold. cbn [shim _undoStack]. rewrite pop_push.
  destruct cur as [g|]; cbn; rewrite pushFullGraphToUI_run; cbn;
    destruct cb; cbn; by rewrite <- ?app_assoc.
Qed.

Lemma performRedo_run w rest next :
  _redoStack (shim w) = push rest next →
  performRedo w
  = (Normal (),
     {| shim :=
          {| _currentGraph := Some next;
             _graphUpdateCallback := _graphUpdateCallback (shim w);
             _pollIntervalId := _pollIntervalId (shim w);
             _backendPort := _backendPort (shim w);
             _lastFileFingerprint :=
               match _graphUpdateCallback (shim w) with
               | Some _ => ""
               | None => _lastFileFingerprint (shim w)
               end;
             _undoStack :=
               match _currentGraph (shim w) with
               | Some g => push (_undoStack (shim w)) g
               | None => _undoStack (shim w)
               end;
             _redoStack := rest;
             _suppressPolling := true |};
        trace :=
          trace w
          ++ match _graphUpdateCallback (shim w) with
             | Some cb =>
                 [UIUpdate cb (deleteDeltasFor (_currentGraph (shim w)) next
                               ++ mapNewGraphToDelta next)]
             | None => []
             end
          ++ [SetTimeout ClearSuppressPolling 5000] |}).
Proof.
  destruct w as [[cur cb pid port fp undo redo sup] tr]. cbn [shim trace _redoStack].
  intros ->. unfold performRedo. js_unfold. cbn [shim _redoStack]. rewrite pop_push.
  destruct cur as [g|]; cbn; rewrite pushFullGraphToUI_run; cbn;
    destruct cb; cbn; by rewrite <- ?app_assoc.
Qed.

(** *** Reachable states *)

Lemma exists_push {A} (l : list A) : l ≠ [] → ∃ rest x, l = push rest x.
Proof.
  intros Hne. destruct (pop l) as [[x rest]|] eqn:E.
  - exists rest, x. by apply pop_Some.
  - by apply pop_None in E.
Qed.

Lemma historyInvariant_applyGraphDelta delta w :
  historyInvariant (shim w) → historyInvariant (shim (applyGraphDelta delta w).2).
Proof.
  intros [Hnone Hlen]. destruct delta as [|d delta]; [done|].
  rewrite applyGraphDelta_run by done. cbn [snd shim].
  unfold historyInvariant, set_lastFileFingerprint, set_currentGraph.
  cbn [_currentGraph _undoStack _redoStack].
  destruct (_currentGraph (shim w)) as [g|] eqn:Hcur.
  - destruct (saveUndoState_length g (shim w)) as [Hu Hr]; [lia|].
    split; [done|]. rewrite Hr. cbn [length]. lia.
  - destruct (Hnone eq_refl) as [Hu Hr]. split; [done|]. rewrite Hu, Hr. cbn [length]. lia.
Qed.

Lemma historyInvariant_saveNodePositions cyNodes w :
  historyInvariant (shim w) → historyInvariant (shim (saveNodePositions cyNodes w).2).
Proof.
  destruct w as [[cur cb pid port fp undo redo sup] tr].
  intros [Hnone Hlen]. unfold saveNodePositions. js_unfold. cbn in *.
  destruct cur; cbn; by split.
Qed.

Lemma historyInvariant_performUndo w :
  historyInvariant (shim w) → historyInvariant (shim (performUndo w).2).
Proof.
  intros [Hnone Hlen]. destruct (decide (_undoStack (shim w) = [])) as [E|E].
  - by rewrite performUndo_empty.
  - destruct (exists_push _ E) as (rest & prev & Hundo).
    rewrite (performUndo_run w rest prev Hundo). cbn [snd shim].
    split; [done|]. cbn [_undoStack _redoStack].
    rewrite Hundo, length_push in Hlen.
    destruct (_currentGraph (shim w)); [rewrite length_push|]; lia.
Qed.

Lemma historyInvariant_performRedo w :
  historyInvariant (shim w) → historyInvariant (shim (performRedo w).2).
Proof.
  intros [Hnone Hlen]. destruct (decide (_redoStack (shim w) = [])) as [E|E].
  - by rewrite performRedo_empty.
  - destruct (exists_push _ E) as (rest & next & Hredo).
    rewrite (performRedo_run w rest next Hredo). cbn [snd shim].
    split; [done|]. cbn [_undoStack _redoStack].
    rewrite Hredo, length_push in Hlen.
    destruct (_currentGraph (shim w)); [rewrite length_push|]; lia.
Qed.

Lemma historyInvariant_loadAndPushGraph w :
  historyInvariant (shim w) → historyInvariant (shim (loadAndPushGraph w).2).
Proof.
  intros [Hnone Hlen].
  destruct (loadAndPushGraph_frame w) as (b & w' & -> & _ & _ & _ & Hu & Hr & _ & Hcur).
  cbn [snd]. unfold historyInvariant. rewrite Hu, Hr. split; [|done].
  intros Hcur'. apply Hnone. destruct (_currentGraph (shim w)); [|done].
  destruct Hcur as [? Hcur]; [by eexists|]. congruence.
Qed.

Lemma historyInvariant_exec w c :
  historyInvariant (shim w) → historyInvariant (shim (exec w c)).
Proof.
  intros Hinv. unfold exec. destruct c as [delta|cyNodes| | |callback| | |cb]; cbn [callBody].
  - by apply historyInvariant_applyGraphDelta.
  - by apply historyInvariant_saveNodePositions.
  - by apply historyInvariant_performUndo.
  - by apply historyInvariant_performRedo.
  - unfold onGraphUpdate, startGraphPolling. js_unfold. cbn.
    by destruct (_pollIntervalId (shim w)).
  - unfold unsubscribeGraphUpdate, stopGraphPolling. js_unfold. cbn.
    by destruct (_pollIntervalId (shim w)).
  - unfold refreshGraphFromBackend. unfold mbind, Js_bind, modify, mret, Js_ret.
    match goal with |- context [loadAndPushGraph ?w0] =>
      pose proof (historyInvariant_loadAndPushGraph w0 Hinv) as H;
      destruct (loadAndPushGraph w0) as [[b|] w'] end; exact H.
  - destruct cb; cbn [timerFires].
    + done.
    + unfold mbind, Js_bind, mret, Js_ret.
      pose proof (historyInvariant_loadAndPushGraph w Hinv) as H.
      destruct (loadAndPushGraph w) as [[b|] w']; exact H.
Qed.

Lemma reachable_invariant w : reachable w → historyInvariant (shim w).
Proof.
  induction 1 as [port|w c _ IH].
  - split; [done|]. cbn. unfold MAX_UNDO. lia.
  - by apply historyInvariant_exec.
Qed.

Lemma run_snoc calls c w : run (calls ++ [c]) w = exec (run calls w) c.
Proof. unfold run. by rewrite fold_left_app. Qed.

Lemma run_reachable port calls : reachable (run calls (initialWorld port)).
Proof.
  induction calls as [|c calls IH] using rev_ind.
  - apply reachable_initial.
  - rewrite run_snoc. by apply reachable_step.
Qed.

Lemma reachable_run w : reachable w → ∃ port calls, w = run calls (initialWorld port).
Proof.
  induction 1 as [port|w c _ (port & calls & ->)].
  - by exists port, [].
  - exists port, (calls ++ [c]). by rewrite run_snoc.
Qed.

Lemma reachable_history_current w :
  reachable w → _undoStack (shim w) ≠ [] ∨ _redoStack (shim w) ≠ [] →
  ∃ g, _currentGraph (shim w) = Some g.
Proof.
  intros [Hnone _]%reachable_invariant Hne.
  destruct (_currentGraph (shim w)) as [g|]; [by exists g|].
  destruct (Hnone eq_refl) as [Hu Hr]. by destruct Hne.
Qed.

(** C2. Undo/redo round trip: in every reachable state, [performUndo] with
    an empty undo stack and [performRedo] with an empty redo stack change
    nothing; with a non-empty undo stack, [performUndo] followed by
    [performRedo] gives back the current graph (and both stacks) as they were
    before the undo; and a non-empty delta applied between the two empties
    the redo stack, so that the redo finds nothing to restore. *)
Theorem undo_redo_round_trip (w : World) :
  reachable w →
  (_undoStack (shim w) = [] → performUndo w = (Normal (), w)) ∧
  (_redoStack (shim w) = [] → performRedo w = (Normal (), w)) ∧
  (_undoStack (shim w) ≠ [] →
     let w1 := (performUndo w).2 in
     let w2 := (performRedo w1).2 in
     (_currentGraph (shim w2) = _currentGraph (shim w) ∧
      _undoStack (shim w2) = _undoStack (shim w) ∧
      _redoStack (shim w2) = _redoStack (shim w)) ∧
     ∀ delta, delta ≠ [] →
       let w1' := (applyGraphDelta delta w1).2 in
       _redoStack (shim w1') = [] ∧ performRedo w1' = (Normal (), w1')).
Proof.
  intros Hreach. split; [apply performUndo_empty|]. split; [apply performRedo_empty|].
  intros Hne.
  destruct (reachable_history_current w Hreach (or_introl Hne)) as [g Hcur].
  destruct (exists_push _ Hne) as (rest & prev & Hundo).
  rewrite (performUndo_run w rest prev Hundo). cbn [snd]. rewrite Hcur. split.
  - erewrite performRedo_run by reflexivity. cbn. by rewrite Hundo.
  - intros delta Hdelta. rewrite applyGraphDelta_run by done. cbn [snd shim _currentGraph].
    assert (∀ st, _redoStack (saveUndoState prev st) = []) as Hredo by done.
    split; [apply Hredo|]. apply performRedo_empty. apply Hredo.
Qed.

(** C3. Undo semantics and delta synthesis: in a reachable state whose undo
    stack ends with the snapshot [prev], with a UI callback registered,
    there is a current graph [before], and [performUndo] completes normally
    having removed [prev] from the undo stack, pushed [before] onto the redo
    stack, made [prev] the current graph, and called the UI callback once,
    with the delta that lists a [DeleteNode] for every node id of [before]
    that [prev] lacks and then an [UpsertNode] for every node of [prev]. *)
Theorem performUndo_restores_and_reconciles
    (w : World) (rest : list Graph) (prev : Graph) (cb : Subscriber) :
  reachable w →
  _undoStack (shim w) = push rest prev →
  _graphUpdateCallback (shim w) = Some cb →
  ∃ before w',
    _currentGraph (shim w) = Some before ∧
    performUndo w = (Normal (), w') ∧
    _undoStack (shim w') = rest ∧
    _redoStack (shim w') = push (_redoStack (shim w)) before ∧
    _currentGraph (shim w') = Some prev ∧
    trace w' = trace w ++ [UIUpdate cb (jumpDelta before prev);
                           SetTimeout ClearSuppressPolling 5000] ∧
    (∀ id, DeleteNode id ∈ jumpDelta before prev
           ↔ is_Some (nodes before !! id) ∧ nodes prev !! id = None) ∧
    (∀ n, UpsertNode n ∈ jumpDelta before prev ↔ ∃ id, nodes prev !! id = Some n).
Proof.
  intros Hreach Hundo Hcb.
  destruct (reachable_history_current w Hreach) as [before Hcur].
  { left. rewrite Hundo. unfold push. by destruct rest. }
  exists before. eexists. split; [done|].
  rewrite (performUndo_run w rest prev Hundo), Hcb, Hcur.
  split; [done|]. cbn [shim trace _undoStack _redoStack _currentGraph].
  split; [done|]. split; [done|]. split; [done|].
  split; [by rewrite deleteDeltasFor_filter, mapNewGraphToDelta_values|].
  unfold jumpDelta. split.
  - intros id. rewrite elem_of_app, !list_elem_of_fmap. split.
    + intros [(id' & [= <-] & Hin)|(n & [=] & _)].
      apply list_elem_of_filter in Hin as [Hnone Hin].
      by apply objectKeys_elem in Hin.
    + intros [Hin Hnone]. left. exists id. split; [done|].
      apply list_elem_of_filter. split; [done|]. by apply objectKeys_elem.
  - intros n. rewrite elem_of_app, !list_elem_of_fmap. split.
    + intros [(id' & [=] & _)|(n' & [= <-] & Hin)].
      apply list_elem_of_fmap in Hin as ([id n'] & -> & Hin).
      exists id. by apply elem_of_map_to_list.
    + intros [id Hid]. right. exists n. split; [done|].
      apply list_elem_of_fmap. exists (id, n). split; [done|].
      by apply elem_of_map_to_list.
Qed.

(** C7 (as amended). Local edit flow and best-effort persistence: for every
    non-empty delta and whatever the backend answers, [applyGraphDelta]
    completes normally. If there is a current graph, its snapshot is pushed
    onto the undo stack (the oldest entry leaving when the capacity is
    exceeded) and the redo stack is emptied; without a current graph the
    stacks are left alone. The delta applied to the graph becomes the current
    graph, the stored fingerprint is invalidated, and the trace grows, in
    this order, by one request per operation of the delta when a backend
    port is configured (none otherwise: [/write-node] for an [UpsertNode],
    [/delete-node] for a [DeleteNode]) and by the call of the UI callback
    with the delta when one is registered. *)
Theorem applyGraphDelta_local_edit (delta : GraphDelta) (w : World) :
  delta ≠ [] →
  ∃ w' events,
    applyGraphDelta delta w = (Normal (), w') ∧
    match _currentGraph (shim w) with
    | Some g =>
        _undoStack (shim w')
          = (let undo := push (_undoStack (shim w)) g in
             if (MAX_UNDO <? length undo)%nat then shift undo else undo) ∧
        _redoStack (shim w') = []
    | None =>
        _undoStack (shim w') = _undoStack (shim w) ∧
        _redoStack (shim w') = _redoStack (shim w)
    end ∧
    _currentGraph (shim w')
      = Some (applyGraphDeltaToGraph (getCurrentGraph (shim w)) delta) ∧
    _lastFileFingerprint (shim w') = "" ∧
    trace w' = trace w ++ events
               ++ match _graphUpdateCallback (shim w) with
                  | Some cb => [UIUpdate cb delta]
                  | None => []
                  end ∧
    if noBackendPort (shim w) then events = [] else Forall2 persists delta events.
Proof.
  intros Hne. rewrite applyGraphDelta_run by done.
  destruct (persistTrace_requests delta (trace w)) as (events & Hevents & Hall).
  eexists. exists (if noBackendPort (shim w) then [] else events).
  split; [done|]. cbn [shim trace]. split; [|split; [done|split; [done|split]]].
  - by destruct (_currentGraph (shim w)).
  - destruct (noBackendPort (shim w)); [done|]. by rewrite Hevents, <- app_assoc.
  - by destruct (noBackendPort (shim w)).
Qed.

(** C8. Bounded history stacks: after any sequence of calls from the initial
    state, the undo stack and the redo stack hold at most 30 snapshots each;
    and when the undo stack is full, a further local edit completes normally
    with the oldest snapshot gone and the current graph as the newest. *)
Theorem history_stacks_bounded (port : option Z) (calls : list Call) :
  let w := run calls (initialWorld port) in
  (length (_undoStack (shim w)) ≤ 30)%nat ∧
  (length (_redoStack (shim w)) ≤ 30)%nat ∧
  ∀ delta g,
    delta ≠ [] →
    _currentGraph (shim w) = Some g →
    length (_undoStack (shim w)) = MAX_UNDO →
    ∃ w', applyGraphDelta delta w = (Normal (), w') ∧
          _undoStack (shim w') = push (shift (_undoStack (shim w))) g ∧
          length (_undoStack (shim w')) = MAX_UNDO.
Proof.
  intros w.
  destruct (reachable_invariant w (run_reachable port calls)) as [_ Hlen].
  unfold MAX_UNDO in Hlen. split; [lia|]. split; [lia|].
  intros delta g Hne Hcur Hfull.
  rewrite applyGraphDelta_run by done. eexists. split; [done|].
  rewrite Hcur. cbn [shim]. unfold saveUndoState, set_lastFileFingerprint,
    set_currentGraph, set_redoStack, set_undoStack. cbn [_undoStack].
  assert ((MAX_UNDO <? length (push (_undoStack (shim w)) (structuredClone g)))%nat = true)
    as -> by (apply Nat.ltb_lt; rewrite length_push; lia).
  rewrite length_shift, length_push. split; [|done].
  destruct (_undoStack (shim w)) as [|g0 undo]; done.
Qed.

(** [performUndo] is its synchronous part followed by the rest. *)
Lemma performUndo_split w :
  performUndo w = (performUndo_untilAwait ≫= resumeAfterRestore) w.
Proof.
  destruct w as [[cur cb pid port fp undo redo sup] tr].
  unfold performUndo, performUndo_untilAwait, resumeAfterRestore. js_unfold.
  cbn [shim _undoStack]. destruct (pop undo) as [[prev rest]|]; [|done].
  by destruct cur.
Qed.

Lemma performRedo_split w :
  performRedo w = (performRedo_untilAwait ≫= resumeAfterRestore) w.
Proof.
  destruct w as [[cur cb pid port fp undo redo sup] tr].
  unfold performRedo, performRedo_untilAwait, resumeAfterRestore. js_unfold.
  cbn [shim _redoStack]. destruct (pop redo) as [[next rest]|]; [|done].
  by destruct cur.
Qed.




(** *** The fingerprint *)

Lemma append_String c s t : String c s +:+ t = String c (s +:+ t).
Proof. reflexivity. Qed.

Lemma append_empty_r s : s +:+ "" = s.
Proof. induction s as [|c s IH]; [done|]. by rewrite append_String, IH. Qed.

Lemma append_assoc s t u : (s +:+ t) +:+ u = s +:+ (t +:+ u).
Proof. induction s as [|c s IH]; [done|]. by rewrite !append_String, IH. Qed.

Lemma append_inv_head s t u : s +:+ t = s +:+ u → t = u.
Proof.
  induction s as [|c s IH]; [done|]. rewrite !append_String. intros [= H]. auto.
Qed.

Lemma length_append_char s c : String.length (s +:+ String c "") = S (String.length s).
Proof. induction s as [|a s IH]; [done|]. rewrite append_String. cbn. by rewrite IH. Qed.

Lemma split_at_colon s1 s2 x y :
  colonFree s1 = true → colonFree s2 = true →
  s1 +:+ String ":" x = s2 +:+ String ":" y → s1 = s2.
Proof.
  revert s2. induction s1 as [|a s1 IH]; intros [|b s2] H1 H2 Heq.
  - done.
  - rewrite append_String in Heq. injection Heq as <- _. done.
  - rewrite append_String in Heq. injection Heq as -> _. done.
  - rewrite !append_String in Heq. injection Heq as -> Heq.
    cbn in H1, H2. apply andb_prop in H1 as [_ H1]. apply andb_prop in H2 as [_ H2].
    f_equal. by apply IH.
Qed.

Lemma numberToString_colonFree n : colonFree (numberToString n) = true.
Proof.
  unfold numberToString. induction (Nat.to_uint n); cbn; auto.
Qed.

Lemma numberToString_inj n m : numberToString n = numberToString m → n = m.
Proof.
  unfold numberToString. intros H. apply DecimalNat.Unsigned.to_uint_inj.
  apply (f_equal NilEmpty.uint_of_string) in H. rewrite !NilEmpty.usu in H.
  by injection H.
Qed.

Lemma join_cons sep a l : l ≠ [] → join sep (a :: l) = a +:+ sep +:+ join sep l.
Proof. by destruct l. Qed.

(** A joined string, seen from one of its parts. *)
Lemma join_middle sep l1 l2 :
  ∃ before after, ∀ x, join sep (l1 ++ x :: l2) = before +:+ x +:+ after.
Proof.
  induction l1 as [|a l1 (before & after & IH)].
  - exists "", (match l2 with [] => "" | _ => sep +:+ join sep l2 end).
    intros x. destruct l2; cbn [app join]; [by rewrite append_empty_r|done].
  - exists (a +:+ sep +:+ before), after. intros x.
    change ((a :: l1) ++ x :: l2) with (a :: (l1 ++ x :: l2)).
    rewrite join_cons by (by destruct l1).
    rewrite IH. by rewrite !append_assoc.
Qed.

(** One more character in one file gives another fingerprint: the rendered
    lengths already differ. *)
Lemma fingerprint_append_char l1 f l2 c :
  fingerprintOf (l1 ++ appendChar f c :: l2) ≠ fingerprintOf (l1 ++ f :: l2).
Proof.
  unfold fingerprintOf. rewrite !map_app. cbn [map].
  destruct (join_middle "|" (map fingerprintEntry l1) (map fingerprintEntry l2))
    as (before & after & Hjoin).
  rewrite !Hjoin. unfold fingerprintEntry. cbn [appendChar path fileContent].
  rewrite !append_assoc. intros H.
  apply append_inv_head, append_inv_head in H.
  change (":" +:+ ?x) with (String ":" x) in H. injection H as H.
  apply split_at_colon in H; [|apply numberToString_colonFree..].
  apply numberToString_inj in H. rewrite length_append_char in H. lia.
Qed.

(** *** The gate *)

Lemma loadAndPushGraph_unchanged w files :
  receivesListing w files →
  fingerprintOf files = _lastFileFingerprint (shim w) →
  loadAndPushGraph w = (Normal false, afterFetch w).
Proof.
  intros Hrecv Hfp. rewrite (loadAndPushGraph_listing w files Hrecv).
  by rewrite processListing_unchanged.
Qed.

(** A poll that receives the empty listing: the empty graph is adopted,
    without any call of the UI callback, provided the stored fingerprint is
    not the empty string; if it is, the poll stops at the gate. *)
Lemma loadAndPushGraph_empty_listing w :
  receivesListing w [] →
  loadAndPushGraph w
  = (Normal false,
     if decide (_lastFileFingerprint (shim w) = "") then afterFetch w
     else {| shim := set_currentGraph (Some {| nodes := ∅ |})
                       (set_lastFileFingerprint "" (shim w));
             trace := trace (afterFetch w) |}).
Proof.
  intros Hrecv. rewrite (loadAndPushGraph_listing w [] Hrecv).
  destruct (decide _) as [E|E].
  - by rewrite processListing_unchanged.
  - by rewrite processListing_empty.
Qed.

(** C4. Fingerprint gate: a poll that receives a listing stops at the gate,
    having done nothing but its requests, if and only if the fingerprint of
    the listing equals the stored one; either way the fingerprint of the
    listing is the stored one afterwards, so that the next poll, if it
    receives the same listing, stops at the gate; and when the listing
    differs from the one the stored fingerprint was computed from by one
    character appended to the content of one file, within the first 200
    characters, the poll does not stop at the gate: it stores a new
    fingerprint and rebuilds the graph. *)
Theorem fingerprint_gate (w : World) (files : list FileEntry) :
  receivesListing w files →
  (loadAndPushGraph w = (Normal false, afterFetch w)
     ↔ fingerprintOf files = _lastFileFingerprint (shim w)) ∧
  _lastFileFingerprint (shim (loadAndPushGraph w).2) = fingerprintOf files ∧
  (receivesListing (loadAndPushGraph w).2 files →
     loadAndPushGraph (loadAndPushGraph w).2
       = (Normal false, afterFetch (loadAndPushGraph w).2)) ∧
  (∀ l1 f l2 c,
     files = l1 ++ appendChar f c :: l2 →
     (String.length (fileContent f) < 200)%nat →
     _lastFileFingerprint (shim w) = fingerprintOf (l1 ++ f :: l2) →
     loadAndPushGraph w ≠ (Normal false, afterFetch w) ∧
     _lastFileFingerprint (shim (loadAndPushGraph w).2) ≠ _lastFileFingerprint (shim w) ∧
     ∃ w', loadAndPushGraph w = (Normal true, w') ∧
           _currentGraph (shim w')
             = Some (preservePositions (rebuild files).1 (_currentGraph (shim w)))).
Proof.
  intros Hrecv.
  assert (_lastFileFingerprint (shim (loadAndPushGraph w).2) = fingerprintOf files) as Hstored.
  { destruct (decide (fingerprintOf files = _lastFileFingerprint (shim w))) as [E|E].
    - by rewrite (loadAndPushGraph_unchanged w files Hrecv E).
    - destruct (decide (files = [])) as [->|Hne].
      + rewrite (loadAndPushGraph_empty_listing w Hrecv).
        rewrite decide_False by (intros E'; by rewrite E' in E). done.
      + by rewrite (loadAndPushGraph_rebuilds w files Hrecv Hne E). }
  split; [|split; [done|split]].
  - split; [|by apply loadAndPushGraph_unchanged].
    intros Hrun. rewrite Hrun in Hstored. done.
  - intros Hrecv'. by apply (loadAndPushGraph_unchanged _ files).
  - intros l1 f l2 c -> _ Hlast.
    assert (fingerprintOf (l1 ++ appendChar f c :: l2) ≠ _lastFileFingerprint (shim w)) as Hfp.
    { rewrite Hlast. apply fingerprint_append_char. }
    assert (l1 ++ appendChar f c :: l2 ≠ []) as Hne by (by destruct l1).
    rewrite (loadAndPushGraph_rebuilds w _ Hrecv Hne Hfp).
    split; [done|]. split; [cbn; congruence|]. by eexists.
Qed.

(** *** Edges and the order of the listing *)

(** The node a rebuild ends with for the last file of a path is the one
    built from that file against the files before it. *)
Lemma rebuild_lookup_last l1 fb l2 :
  path fb ∉ path <$> l2 →
  nodes (rebuild (l1 ++ fb :: l2)).1 !! path fb
  = Some {| absoluteFilePathIsID := path fb;
            content := fileContent fb;
            outgoingEdges :=
              filter (λ target, is_Some (nodes (rebuild l1).1 !! target))
                     (parseOutboundReferences (fileContent fb));
            nodeUIMetadata := Some {| position := None; otherUIFields := [] |} |}.
Proof.
  induction l2 as [|file l2 IH] using rev_ind; intros Hnotin.
  - rewrite rebuild_snoc. destruct (rebuild l1) as [graph allDeltas].
    rewrite rebuildStep_Added. cbn [fst nodes]. by rewrite lookup_insert_eq.
  - rewrite fmap_app, elem_of_app in Hnotin. cbn in Hnotin.
    rewrite list_elem_of_singleton in Hnotin.
    rewrite app_comm_cons, app_assoc, rebuild_snoc.
    destruct (rebuild (l1 ++ fb :: l2)) as [graph allDeltas].
    rewrite rebuildStep_Added. cbn [fst nodes] in *.
    rewrite lookup_insert_ne by (intros E; apply Hnotin; by right).
    apply IH. intros Hin. apply Hnotin. by left.
Qed.

(** C6 (as amended). One-pass edge healing: whenever a poll rebuilds the
    graph from a listing, whatever the state before, the node it ends with
    for a file has an edge to a target exactly when the content of the file
    refers to the target and a file of the target stands earlier in the
    listing. A reference to a file that only comes later in the listing is
    therefore left without an edge by this rebuild and by every further
    rebuild from the same listing. *)
Theorem edges_follow_listing_order (w : World) (l1 l2 : list FileEntry) (fb : FileEntry) :
  receivesListing w (l1 ++ fb :: l2) →
  fingerprintOf (l1 ++ fb :: l2) ≠ _lastFileFingerprint (shim w) →
  path fb ∉ path <$> l2 →
  ∃ node w',
    loadAndPushGraph w = (Normal true, w') ∧
    nodes (getCurrentGraph (shim w')) !! path fb = Some node ∧
    content node = fileContent fb ∧
    ∀ target,
      target ∈ outgoingEdges node
      ↔ target ∈ parseOutboundReferences (fileContent fb) ∧ target ∈ path <$> l1.
Proof.
  intros Hrecv Hfp Hlast.
  assert (l1 ++ fb :: l2 ≠ []) as Hne by (by destruct l1).
  rewrite (loadAndPushGraph_rebuilds w _ Hrecv Hne Hfp).
  assert (∃ node,
    nodes (preservePositions (rebuild (l1 ++ fb :: l2)).1 (_currentGraph (shim w)))
      !! path fb = Some node ∧
    content node = fileContent fb ∧
    outgoingEdges node
      = filter (λ target, is_Some (nodes (rebuild l1).1 !! target))
               (parseOutboundReferences (fileContent fb))) as (node & Hnode & Hcontent & Hedges).
  { destruct (_currentGraph (shim w)) as [prevG|].
    - rewrite preservePositions_lookup, (rebuild_lookup_last l1 fb l2 Hlast).
      unfold carryPosition. destruct (positionOf _); by eexists.
    - cbn [preservePositions]. rewrite (rebuild_lookup_last l1 fb l2 Hlast). by eexists. }
  exists node. eexists. split; [done|]. split; [exact Hnode|]. split; [done|].
  intros target. rewrite Hedges, list_elem_of_filter, rebuild_dom.
  split; intros [? ?]; by split.
Qed.

(** *** Suffixes and file names *)

Lemma length_append s t :
  String.length (s +:+ t) = (String.length s + String.length t)%nat.
Proof. induction s as [|c s IH]; [done|]. rewrite append_String. cbn. by rewrite IH. Qed.

Lemma substring_0_length s : String.substring 0 (String.length s) s = s.
Proof. induction s as [|c s IH]; [done|]. cbn. by rewrite IH. Qed.

Lemma substring_append_skip p m t :
  String.substring (String.length p) m (p +:+ t) = String.substring 0 m t.
Proof. induction p as [|c p IH]; [done|]. rewrite append_String. exact IH. Qed.

Lemma substring_split k s :
  (k ≤ String.length s)%nat →
  s = String.substring 0 k s +:+ String.substring k (String.length s - k) s.
Proof.
  revert k. induction s as [|c s IH]; intros [|k] Hk;
    try (rewrite Nat.sub_0_r, substring_0_length; done).
  - cbn in Hk. lia.
  - cbn [String.substring String.length Nat.sub]. rewrite append_String.
    f_equal. apply IH. cbn in Hk. lia.
Qed.

(** [endsWith] holds exactly of the strings that are something followed by
    the suffix. *)
Lemma endsWith_spec s suffix :
  endsWith s suffix = true ↔ ∃ p, s = p +:+ suffix.
Proof.
  unfold endsWith. split.
  - destruct (Nat.leb_spec (String.length suffix) (String.length s)) as [Hle|]; [|done].
    intros Heq%String.eqb_eq.
    exists (String.substring 0 (String.length s - String.length suffix) s).
    etrans; [apply (substring_split (String.length s - String.length suffix)); lia|].
    f_equal.
    replace (String.length s - (String.length s - String.length suffix))%nat
      with (String.length suffix) by lia.
    exact Heq.
  - intros [p ->]. rewrite length_append.
    destruct (Nat.leb_spec (String.length suffix) (String.length p + String.length suffix))
      as [_|]; [|lia].
    replace (String.length p + String.length suffix - String.length suffix)%nat
      with (String.length p) by lia.
    rewrite substring_append_skip, substring_0_length. apply String.eqb_refl.
Qed.

Lemma endsWith_append p suffix : endsWith (p +:+ suffix) suffix = true.
Proof. apply endsWith_spec. by exists p. Qed.

(** X1. The file of a node: [mdPath] always names a file ending in [.md],
    leaves such a name as it is (so applying it twice changes nothing), and
    otherwise appends [.md]; hence a node id without the suffix and the same
    id with it are stored in the same file. Every request the loop of
    [applyGraphDelta] sends for an operation names such a file. *)
Theorem mdPath_names_a_markdown_file (nodeId : string) :
  endsWith (mdPath nodeId) ".md" = true ∧
  mdPath (mdPath nodeId) = mdPath nodeId ∧
  (endsWith nodeId ".md" = true → mdPath nodeId = nodeId) ∧
  (endsWith nodeId ".md" = false →
     mdPath nodeId = nodeId +:+ ".md" ∧ mdPath (nodeId +:+ ".md") = mdPath nodeId) ∧
  (∀ d, ∃ filePath,
     endsWith filePath ".md" = true ∧
     (requestFor d = DeleteNodeRequest filePath ∨
      ∃ fileText, requestFor d = WriteNodeRequest filePath fileText)).
Proof.
  assert (∀ id, endsWith (mdPath id) ".md" = true) as Hends.
  { intros id. unfold mdPath. destruct (endsWith id ".md") eqn:E; [done|].
    apply endsWith_append. }
  assert (∀ id, endsWith id ".md" = true → mdPath id = id) as Hid.
  { intros id E. unfold mdPath. by rewrite E. }
  split; [apply Hends|]. split; [apply Hid, Hends|]. split; [apply Hid|]. split.
  - intros E. unfold mdPath at 1 3. rewrite E. split; [done|].
    apply Hid, endsWith_append.
  - intros [node|id]; eexists; (split; [apply Hends|]); cbn [requestFor]; eauto.
Qed.

(** X2. The directory of the notes: [getVoicetreePath] always yields a path
    ending in [.voicetree]: the project path itself when it already ends so,
    and the project path followed by [/.voicetree] otherwise; applying it to
    its own result changes nothing. *)
Theorem getVoicetreePath_ends_with_voicetree (p : string) :
  endsWith (getVoicetreePath p) ".voicetree" = true ∧
  getVoicetreePath (getVoicetreePath p) = getVoicetreePath p ∧
  (endsWith p ".voicetree" = true → getVoicetreePath p = p) ∧
  (endsWith p ".voicetree" = false → getVoicetreePath p = p +:+ "/.voicetree").
Proof.
  assert (endsWith (getVoicetreePath p) ".voicetree" = true) as Hends.
  { unfold getVoicetreePath. destruct (endsWith p ".voicetree") eqn:E; [done|].
    change (p +:+ "/.voicetree") with (p +:+ ("/" +:+ ".voicetree")).
    rewrite <- append_assoc. apply endsWith_append. }
  split; [exact Hends|]. split.
  - unfold getVoicetreePath at 1. by rewrite Hends.
  - unfold getVoicetreePath. split; by intros ->.
Qed.

(** *** More on the fingerprint *)

Lemma append_eq_empty s t : s +:+ t = "" → s = "" ∧ t = "".
Proof. destruct s; [done|]. by rewrite append_String. Qed.

Lemma fingerprintEntry_nonempty f : fingerprintEntry f ≠ "".
Proof.
  unfold fingerprintEntry. intros [_ H]%append_eq_empty. discriminate H.
Qed.

Lemma fingerprintOf_nonempty files : files ≠ [] → fingerprintOf files ≠ "".
Proof.
  destruct files as [|f files]; [done|]. intros _. unfold fingerprintOf. cbn [map].
  destruct (map fingerprintEntry files) as [|e es] eqn:E; cbn [join].
  - apply fingerprintEntry_nonempty.
  - intros [H _]%append_eq_empty. by apply fingerprintEntry_nonempty in H.
Qed.

(** X3. The fingerprint of a listing is the empty string, the value the
    stored fingerprint starts with and is reset to, for the empty listing
    and for no other. *)
Theorem fingerprintOf_empty_iff (files : list FileEntry) :
  fingerprintOf files = "" ↔ files = [].
Proof.
  split; [|by intros ->]. intros H.
  destruct (decide (files = [])) as [|Hne]; [done|].
  by destruct (fingerprintOf_nonempty files Hne).
Qed.

Lemma sameSample_fingerprintEntry f f' :
  sameSample f f' → fingerprintEntry f = fingerprintEntry f'.
Proof. intros (Hp & Hl & Hs). unfold fingerprintEntry. by rewrite Hp, Hl, Hs. Qed.

Lemma sameSample_fingerprintOf files files' :
  Forall2 sameSample files files' → fingerprintOf files = fingerprintOf files'.
Proof.
  intros H. unfold fingerprintOf. f_equal.
  induction H as [|f f' files files' Hf _ IH]; [done|].
  cbn [map]. by rewrite (sameSample_fingerprintEntry f f' Hf), IH.
Qed.

(** X4. What the gate does not see: when the listing a poll receives
    differs from the listing the stored fingerprint was computed from only
    in files that keep their path, the length of their content and its first
    200 characters, the poll stops at the gate: nothing is rebuilt, and the
    change stays unnoticed. *)
Theorem change_beyond_the_sample_is_not_noticed (w : World) (seen files : list FileEntry) :
  receivesListing w files →
  _lastFileFingerprint (shim w) = fingerprintOf seen →
  Forall2 sameSample seen files →
  loadAndPushGraph w = (Normal false, afterFetch w) ∧
  shim (loadAndPushGraph w).2 = shim w.
Proof.
  intros Hrecv Hlast Hsame.
  rewrite (loadAndPushGraph_unchanged w files Hrecv); [done|].
  rewrite Hlast. symmetry. by apply sameSample_fingerprintOf.
Qed.

(** *** Polls that receive no listing, and forced refreshes *)

Lemma loadAndPushGraph_no_listing w :
  noBackendPort (shim w) = false →
  _suppressPolling (shim w) = false →
  (∀ files, filesOutcome w ≠ Resolved {| ok := true; body := BodyFiles files |}) →
  loadAndPushGraph w = (Normal false, afterFetch w).
Proof.
  intros Hport Hsup Hout. unfold loadAndPushGraph. js_unfold. rewrite Hport, Hsup.
  rewrite ensureDirectoryLoaded_run. unfold fetch. cbn [trace shim].
  unfold afterFetch. unfold filesOutcome in *. rewrite <- app_assoc.
  destruct (backend (trace w ++ loadDirectoryEvents w) FilesRequest)
    as [|[[] [| |files]]] eqn:E; cbn; try done.
  by destruct (Hout files).
Qed.

Lemma loadDirectoryEvents_requests w : Forall isRequest (loadDirectoryEvents w).
Proof.
  unfold loadDirectoryEvents. destruct (_currentGraph (shim w)); [constructor|].
  destruct vscodePath as [p|]; [|constructor].
  destruct (String.length p =? 0)%nat; [constructor|].
  repeat constructor. by eexists _, _.
Qed.

Lemma isRequest_quiet cb e : isRequest e → quietEvent cb e.
Proof. by intros (req & out & ->). Qed.

(** X5. A poll that receives no listing changes nothing: when the backend
    port is missing, polling is suppressed, the request fails, the response
    is not OK, its body cannot be read or has no [files], the poll completes
    normally with [false], the state is as before, and the trace has grown
    by requests only. *)
Theorem poll_without_listing_changes_nothing (w : World) :
  (∀ files, ¬ receivesListing w files) →
  ∃ events,
    loadAndPushGraph w = (Normal false, {| shim := shim w; trace := trace w ++ events |}) ∧
    Forall isRequest events.
Proof.
  intros Hnone.
  destruct (noBackendPort (shim w)) eqn:Hport.
  { exists []. split; [|constructor]. unfold loadAndPushGraph. js_unfold.
    rewrite Hport, app_nil_r. by destruct w. }
  destruct (_suppressPolling (shim w)) eqn:Hsup.
  { exists []. split; [|constructor]. unfold loadAndPushGraph. js_unfold.
    rewrite Hport, Hsup, app_nil_r. by destruct w. }
  exists (loadDirectoryEvents w ++ [Fetched FilesRequest (filesOutcome w)]). split.
  - apply loadAndPushGraph_no_listing; [done..|].
    intros files Hout. by apply (Hnone files).
  - apply Forall_app. split; [apply loadDirectoryEvents_requests|].
    repeat constructor. by eexists _, _.
Qed.

Lemma refreshGraphFromBackend_run w :
  refreshGraphFromBackend w = (Normal (), (loadAndPushGraph (invalidated w)).2).
Proof.
  unfold refreshGraphFromBackend. js_unfold. fold (invalidated w).
  by destruct (loadAndPushGraph_frame (invalidated w)) as (b & w' & -> & _).
Qed.

Lemma receivesListing_invalidated w files :
  receivesListing w files → receivesListing (invalidated w) files.
Proof. intros H. exact H. Qed.

Lemma refreshGraphFromBackend_rebuilds w files :
  receivesListing w files →
  files ≠ [] →
  refreshGraphFromBackend w
  = (Normal (),
     {| shim := set_currentGraph
                  (Some (preservePositions (rebuild files).1 (_currentGraph (shim w))))
                  (set_lastFileFingerprint (fingerprintOf files) (shim w));
        trace := trace (afterFetch w) ++
                 match _graphUpdateCallback (shim w) with
                 | Some cb => [UIUpdate cb (rebuild files).2]
                 | None => []
                 end |}).
Proof.
  intros Hrecv Hne. rewrite refreshGraphFromBackend_run.
  rewrite (loadAndPushGraph_rebuilds (invalidated w) files); [done| |done|].
  - by apply receivesListing_invalidated.
  - cbn. by apply fingerprintOf_nonempty.
Qed.

(** X6. A forced refresh cannot be stopped by the gate: whatever
    fingerprint is stored, [refreshGraphFromBackend] rebuilds the graph from
    any non-empty listing it receives, adopts it with the positions of the
    current graph, stores the fingerprint of the listing and hands the
    deltas to the UI callback if one is registered. While polling is
    suppressed it only resets the stored fingerprint. *)
Theorem refresh_rebuilds_whatever_the_fingerprint (w : World) (files : list FileEntry) :
  receivesListing w files →
  files ≠ [] →
  refreshGraphFromBackend w
  = (Normal (),
     {| shim := set_currentGraph
                  (Some (preservePositions (rebuild files).1 (_currentGraph (shim w))))
                  (set_lastFileFingerprint (fingerprintOf files) (shim w));
        trace := trace (afterFetch w) ++
                 match _graphUpdateCallback (shim w) with
                 | Some cb => [UIUpdate cb (rebuild files).2]
                 | None => []
                 end |}) ∧
  (refreshGraphFromBackend
     {| shim := set_suppressPolling true (shim w); trace := trace w |}).2
  = {| shim := set_lastFileFingerprint "" (set_suppressPolling true (shim w));
       trace := trace w |}.
Proof.
  intros Hrecv Hne. split.
  - by apply refreshGraphFromBackend_rebuilds.
  - rewrite refreshGraphFromBackend_run. unfold loadAndPushGraph. js_unfold. cbn.
    by destruct (noBackendPort _).
Qed.

(** *** Rebuilding again, and saved positions *)

Lemma withPosition_self n xy : positionOf (Some n) = Some xy → withPosition n (Some xy) = n.
Proof.
  destruct n as [id text edges [[pos other]|]]; cbn; [|done]. by intros ->.
Qed.

Lemma carryPosition_self (m : gmap string GraphNode) id :
  carryPosition m id (m !! id) = m !! id.
Proof.
  unfold carryPosition. destruct (positionOf (m !! id)) as [xy|] eqn:E; [|done].
  destruct (m !! id) as [n|]; [|done]. cbn. by rewrite withPosition_self.
Qed.

Lemma carryPosition_again (m prevNodes : gmap string GraphNode) id entry :
  m !! id = carryPosition prevNodes id entry →
  carryPosition m id entry = carryPosition prevNodes id entry.
Proof.
  intros Hm. unfold carryPosition at 1. rewrite Hm. unfold carryPosition.
  destruct entry as [n|]; [|by repeat case_match].
  destruct (positionOf (prevNodes !! id)) as [xy|]; simpl.
  - done.
  - change (match nodeUIMetadata n with Some meta => position meta | None => None end)
      with (positionOf (Some n)).
    destruct (positionOf (Some n)) as [p|] eqn:E; [|done].
    by rewrite withPosition_self.
Qed.

(** Carrying positions over from the result of carrying them over changes
    nothing. *)
Lemma preservePositions_again graph current :
  preservePositions graph (Some (preservePositions graph current))
  = preservePositions graph current.
Proof.
  destruct current as [prevG|].
  - cbn [preservePositions]. f_equal. apply map_eq. intros id.
    rewrite preservePosition_fold.
    pose proof (preservePositions_lookup graph prevG id) as Hlook.
    cbn [preservePositions nodes] in Hlook.
    destruct (decide _) as [|Hnin].
    + cbn [nodes].
      rewrite (carryPosition_again _ (nodes prevG) id _ Hlook). symmetry. exact Hlook.
    + rewrite objectKeys_elem in Hnin. rewrite Hlook.
      destruct (nodes graph !! id) eqn:E; [by destruct Hnin|].
      unfold carryPosition. by destruct (positionOf _).
  - cbn [preservePositions]. destruct graph as [m]. f_equal. cbn [nodes].
    apply map_eq. intros id. rewrite preservePosition_fold.
    destruct (decide _); [|done]. apply carryPosition_self.
Qed.

(** X7. Rebuilding is idempotent: after a poll has rebuilt the graph from a
    listing, a forced refresh that receives the same listing rebuilds it
    again and ends with the same current graph, positions included, and the
    same stored fingerprint. *)
Theorem refresh_after_rebuild_changes_no_graph (w : World) (files : list FileEntry) :
  receivesListing w files →
  files ≠ [] →
  fingerprintOf files ≠ _lastFileFingerprint (shim w) →
  receivesListing (loadAndPushGraph w).2 files →
  shim (refreshGraphFromBackend (loadAndPushGraph w).2).2 = shim (loadAndPushGraph w).2.
Proof.
  intros Hrecv Hne Hfp Hrecv'.
  rewrite (refreshGraphFromBackend_rebuilds _ files Hrecv' Hne).
  rewrite (loadAndPushGraph_rebuilds w files Hrecv Hne Hfp).
  unfold set_currentGraph, set_lastFileFingerprint.
  cbn [snd shim _currentGraph _graphUpdateCallback _pollIntervalId _backendPort
       _lastFileFingerprint _undoStack _redoStack _suppressPolling].
  by rewrite preservePositions_again.
Qed.

(** X8. A saved position survives the next rebuild, and the last entry
    wins: when the batch given to [saveNodePositions] names a node of the
    current graph with a position, and no later entry of the batch gives
    that node another one, the node has that position afterwards; and it
    still has it after a poll has rebuilt the graph from a listing that has
    the node's file, whatever the content of the file is by then. *)
Theorem saved_position_survives_rebuild
    (w : World) (g : Graph) (l1 l2 : list CyNode) (id : string) (pos : Position)
    (files : list FileEntry) :
  _currentGraph (shim w) = Some g →
  is_Some (nodes g !! id) →
  Forall (λ cy, data_id cy = id → cyPosition cy = None) l2 →
  let w1 := (saveNodePositions
               (l1 ++ {| data_id := id; cyPosition := Some pos |} :: l2) w).2 in
  receivesListing w1 files →
  files ≠ [] →
  fingerprintOf files ≠ _lastFileFingerprint (shim w1) →
  id ∈ path <$> files →
  positionOf (nodes (getCurrentGraph (shim w1)) !! id) = Some pos ∧
  ∃ n, nodes (getCurrentGraph (shim (loadAndPushGraph w1).2)) !! id = Some n ∧
       positionOf (Some n) = Some pos ∧
       content <$> Some n = content <$> nodes (rebuild files).1 !! id.
Proof.
  intros Hcur [n0 Hn0] Hrest w1 Hrecv Hne Hfp Hin.
  set (graph := {| ownNodes := nodes g; replacedPrototype := None |}).
  assert (∃ node, ownNodes (fold_left savePosition l1 graph) !! id = Some node)
    as [node Hnode].
  { destruct (savePositions_lookup graph l1 id n0 Hn0) as [H|(? & ? & _ & _ & _ & H)];
      by eexists. }
  pose proof (savePositions_last graph l1 l2 id pos node Hnode Hrest) as Hsaved.
  assert (shim w1 = set_currentGraph
            (Some {| nodes := ownNodes (fold_left savePosition
                       (l1 ++ {| data_id := id; cyPosition := Some pos |} :: l2)
                       graph) |}) (shim w)) as Hw1.
  { unfold w1, saveNodePositions. js_unfold. by rewrite Hcur. }
  assert (positionOf (nodes (getCurrentGraph (shim w1)) !! id) = Some pos) as Hpos.
  { rewrite Hw1. unfold getCurrentGraph. cbn [set_currentGraph _currentGraph nodes].
    by rewrite Hsaved. }
  split; [exact Hpos|].
  rewrite (loadAndPushGraph_rebuilds w1 files Hrecv Hne Hfp).
  cbn [snd shim]. unfold getCurrentGraph at 1. cbn [set_currentGraph _currentGraph].
  rewrite Hw1. cbn [set_currentGraph _currentGraph].
  rewrite preservePositions_lookup. unfold carryPosition. cbn [nodes].
  rewrite Hsaved, positionOf_withPosition.
  apply rebuild_dom in Hin as [n Hn]. rewrite Hn. cbn.
  exists (withPosition n (Some pos)). done.
Qed.

(** X9. Undo reverts a local edit: when a non-empty delta is applied to a
    current graph and [performUndo] follows, the current graph is the one
    from before the edit, the edited graph is the only entry of the redo
    stack, and the undo stack is as before the edit, short of its oldest
    entry if it was full. The undo adds no request to the trace: nothing is
    written back to the disk. *)
Theorem undo_reverts_local_edit (delta : GraphDelta) (w : World) (g : Graph) :
  delta ≠ [] →
  _currentGraph (shim w) = Some g →
  let w1 := (applyGraphDelta delta w).2 in
  let w2 := (performUndo w1).2 in
  _currentGraph (shim w2) = Some g ∧
  _redoStack (shim w2) = [applyGraphDeltaToGraph g delta] ∧
  _undoStack (shim w2)
    = (if (MAX_UNDO <=? length (_undoStack (shim w)))%nat
       then shift (_undoStack (shim w)) else _undoStack (shim w)) ∧
  ∃ events, trace w2 = trace w1 ++ events ∧ Forall (λ e, ¬ isRequest e) events.
Proof.
  intros Hne Hcur w1 w2.
  assert (_undoStack (shim w1)
          = push (if (MAX_UNDO <=? length (_undoStack (shim w)))%nat
                  then shift (_undoStack (shim w)) else _undoStack (shim w)) g
          ∧ _redoStack (shim w1) = []
          ∧ _currentGraph (shim w1) = Some (applyGraphDeltaToGraph g delta))
    as (Hundo & Hredo & Hcur1).
  { unfold w1. rewrite applyGraphDelta_run by done. rewrite Hcur. cbn [snd shim].
    unfold getCurrentGraph. rewrite Hcur.
    unfold saveUndoState, set_lastFileFingerprint, set_currentGraph, set_redoStack,
      set_undoStack, structuredClone.
    cbn [_undoStack _redoStack _currentGraph]. split; [|done].
    rewrite length_push.
    change (MAX_UNDO <? S (length (_undoStack (shim w))))%nat
      with (MAX_UNDO <=? length (_undoStack (shim w)))%nat.
    destruct (Nat.leb_spec MAX_UNDO (length (_undoStack (shim w)))) as [Hfull|]; [|done].
    destruct (_undoStack (shim w)); [cbn in Hfull; unfold MAX_UNDO in Hfull; lia|done]. }
  unfold w2. rewrite (performUndo_run w1 _ g Hundo). cbn [snd shim trace].
  cbn [_currentGraph _redoStack _undoStack]. rewrite Hcur1, Hredo.
  split; [done|]. split; [done|]. split; [done|].
  eexists. split; [done|].
  destruct (_graphUpdateCallback (shim w1)); repeat constructor;
    by intros (req & out & [=]).
Qed.

(** X10. Undo lives in memory only: a [performUndo] that restores a
    snapshot with a UI callback registered sends no request to the backend
    and leaves the empty string as stored fingerprint; while the suppression
    lasts a poll does nothing, and once the timer has cleared it, the first
    poll that receives a non-empty listing rebuilds the graph from that
    listing, whether or not the files changed: of the restored snapshot only
    the positions remain. *)
Theorem undo_is_replaced_by_the_next_poll
    (w : World) (rest : list Graph) (prev : Graph) (cb : Subscriber)
    (files : list FileEntry) :
  _undoStack (shim w) = push rest prev →
  _graphUpdateCallback (shim w) = Some cb →
  let w1 := (performUndo w).2 in
  let w2 := (timerFires ClearSuppressPolling w1).2 in
  receivesListing w2 files →
  files ≠ [] →
  (∃ events, trace w1 = trace w ++ events ∧ Forall (λ e, ¬ isRequest e) events) ∧
  _lastFileFingerprint (shim w1) = "" ∧
  loadAndPushGraph w1 = (Normal false, w1) ∧
  _currentGraph (shim (loadAndPushGraph w2).2)
    = Some (preservePositions (rebuild files).1 (Some prev)).
Proof.
  intros Hundo Hcb w1 w2 Hrecv Hne.
  assert (w1 = (performUndo w).2) as Hw1 by done.
  rewrite (performUndo_run w rest prev Hundo), Hcb in Hw1. cbn [snd] in Hw1.
  split; [|split; [|split]].
  - rewrite Hw1. cbn [trace]. eexists. split; [done|].
    repeat constructor; by intros (req & out & [=]).
  - by rewrite Hw1.
  - rewrite Hw1. unfold loadAndPushGraph. js_unfold. cbn [shim _suppressPolling].
    by destruct (noBackendPort _).
  - rewrite (loadAndPushGraph_rebuilds w2 files Hrecv Hne).
    + unfold w2. rewrite Hw1. done.
    + unfold w2. rewrite Hw1. cbn. by apply fingerprintOf_nonempty.
Qed.

(** *** What the calls add to the trace *)

Lemma runningIntervals_app tr1 tr2 :
  runningIntervals (tr1 ++ tr2) = (runningIntervals tr1 + runningIntervals tr2)%Z.
Proof.
  induction tr1 as [|e tr1 IH]; [by cbn; lia|].
  destruct e; cbn [app runningIntervals]; lia.
Qed.

Lemma runningIntervals_quiet cb events :
  Forall (quietEvent cb) events → runningIntervals events = 0%Z.
Proof.
  induction 1 as [|e events He _ IH]; [done|]. by destruct e.
Qed.

Lemma loadAndPushGraph_events w :
  ∃ b st' events,
    loadAndPushGraph w = (Normal b, {| shim := st'; trace := trace w ++ events |}) ∧
    Forall (quietEvent (_graphUpdateCallback (shim w))) events.
Proof.
  destruct (noBackendPort (shim w)) eqn:Hport.
  { exists false, (shim w), []. split; [|constructor]. unfold loadAndPushGraph. js_unfold.
    rewrite Hport, app_nil_r. by destruct w. }
  destruct (_suppressPolling (shim w)) eqn:Hsup.
  { exists false, (shim w), []. split; [|constructor]. unfold loadAndPushGraph. js_unfold.
    rewrite Hport, Hsup, app_nil_r. by destruct w. }
  assert (Forall (quietEvent (_graphUpdateCallback (shim w)))
            (loadDirectoryEvents w ++ [Fetched FilesRequest (filesOutcome w)])) as Hfetch.
  { apply Forall_app. split; [|by repeat constructor].
    eapply Forall_impl; [apply loadDirectoryEvents_requests|]. apply isRequest_quiet. }
  destruct (filesOutcome w) as [|[[] [| |files]]] eqn:Hout;
    try (exists false, (shim w); eexists; split;
         [apply loadAndPushGraph_no_listing; [done..|by rewrite Hout]|by rewrite Hout]).
  assert (receivesListing w files) as Hrecv by done.
  rewrite <- Hout in Hfetch.
  destruct (decide (fingerprintOf files = _lastFileFingerprint (shim w))) as [E|E].
  - exists false, (shim w). eexists. split; [|exact Hfetch].
    by rewrite (loadAndPushGraph_unchanged w files Hrecv E).
  - destruct (decide (files = [])) as [->|Hne].
    + eexists false, _, _. split; [|exact Hfetch].
      rewrite (loadAndPushGraph_empty_listing w Hrecv).
      rewrite decide_False by (intros E'; by rewrite E' in E). done.
    + eexists true, _, _. split.
      * rewrite (loadAndPushGraph_rebuilds w files Hrecv Hne E).
        unfold afterFetch. cbn [trace]. by rewrite <- app_assoc.
      * apply Forall_app. split; [exact Hfetch|].
        destruct (_graphUpdateCallback (shim w)); by repeat constructor.
Qed.

(** The operations persisted are requests, hence quiet. *)
Lemma persists_quiet cb (delta : GraphDelta) events :
  Forall2 persists delta events → Forall (quietEvent cb) events.
Proof.
  induction 1 as [|d e delta events (out & ->) _ IH]; [apply Forall_nil_2|].
  by apply Forall_cons_2.
Qed.

(** A call subscribes, unsubscribes, or does neither. *)
Lemma Call_cases (c : Call) :
  (∃ callback, c = CallOnGraphUpdate callback) ∨ c = CallUnsubscribe
  ∨ ((∀ callback, c ≠ CallOnGraphUpdate callback) ∧ c ≠ CallUnsubscribe).
Proof. destruct c; eauto; by right; right. Qed.

(** Every call other than subscribing and unsubscribing keeps the UI
    callback and the polling interval, and adds quiet events only. *)
Lemma exec_events w c :
  (∀ callback, c ≠ CallOnGraphUpdate callback) → c ≠ CallUnsubscribe →
  ∃ events,
    trace (exec w c) = trace w ++ events ∧
    Forall (quietEvent (_graphUpdateCallback (shim w))) events ∧
    _graphUpdateCallback (shim (exec w c)) = _graphUpdateCallback (shim w) ∧
    _pollIntervalId (shim (exec w c)) = _pollIntervalId (shim w).
Proof.
  intros Hsub Hunsub.
  assert (∀ w0, ∃ events,
            trace (loadAndPushGraph w0).2 = trace w0 ++ events ∧
            Forall (quietEvent (_graphUpdateCallback (shim w0))) events ∧
            _graphUpdateCallback (shim (loadAndPushGraph w0).2)
              = _graphUpdateCallback (shim w0) ∧
            _pollIntervalId (shim (loadAndPushGraph w0).2) = _pollIntervalId (shim w0))
    as Hpoll.
  { intros w0. destruct (loadAndPushGraph_events w0) as (b & st' & events & Hrun & Hq).
    destruct (loadAndPushGraph_frame w0) as (b' & w' & Hrun' & Hcb & Hpid & _).
    rewrite Hrun' in Hrun. injection Hrun as -> ->. rewrite Hrun'. by exists events. }
  unfold exec. destruct c as [delta|cyNodes| | |callback| | |cb]; cbn [callBody].
  - destruct delta as [|d delta]; [exists []; by rewrite app_nil_r|].
    rewrite applyGraphDelta_run by done. cbn [snd shim trace].
    destruct (persistTrace_requests (d :: delta) (trace w)) as (pevents & Hp & Hall).
    exists ((if noBackendPort (shim w) then [] else pevents)
            ++ match _graphUpdateCallback (shim w) with
               | Some cb => [UIUpdate cb (d :: delta)]
               | None => []
               end).
    split; [|split; [|split]].
    + destruct (noBackendPort (shim w)); [done|]. by rewrite Hp, <- app_assoc.
    + apply Forall_app. split.
      * destruct (noBackendPort (shim w)); [constructor|].
        exact (persists_quiet _ _ _ Hall).
      * destruct (_graphUpdateCallback (shim w)); by repeat constructor.
    + by destruct (_currentGraph (shim w)).
    + by destruct (_currentGraph (shim w)).
  - destruct w as [[cur cb pid port fp undo redo sup] tr].
    unfold saveNodePositions. js_unfold. cbn [shim _currentGraph].
    exists []. rewrite app_nil_r. by destruct cur.
  - destruct (decide (_undoStack (shim w) = [])) as [E|E].
    + rewrite performUndo_empty by done. exists []. by rewrite app_nil_r.
    + destruct (exists_push _ E) as (rest & prev & Hundo).
      rewrite (performUndo_run w rest prev Hundo). cbn [snd shim trace].
      eexists. split; [done|]. split; [|done].
      destruct (_graphUpdateCallback (shim w)); by repeat constructor.
  - destruct (decide (_redoStack (shim w) = [])) as [E|E].
    + rewrite performRedo_empty by done. exists []. by rewrite app_nil_r.
    + destruct (exists_push _ E) as (rest & next & Hredo).
      rewrite (performRedo_run w rest next Hredo). cbn [snd shim trace].
      eexists. split; [done|]. split; [|done].
      destruct (_graphUpdateCallback (shim w)); by repeat constructor.
  - by destruct (Hsub callback).
  - done.
  - rewrite refreshGraphFromBackend_run. cbn [snd]. apply (Hpoll (invalidated w)).
  - destruct cb; cbn [timerFires].
    + exists []. by rewrite app_nil_r.
    + unfold mbind, Js_bind, mret, Js_ret.
      destruct (Hpoll w) as (events & H).
      destruct (loadAndPushGraph w) as [[b|] w']; by exists events.
Qed.

(** X11. At most one polling interval: after any sequence of calls from the
    initial state, the number of intervals set and not cleared is one when
    [_pollIntervalId] is set and zero otherwise; subscribing again while
    polling runs starts no second interval, and unsubscribing twice clears
    nothing twice. *)
Theorem at_most_one_polling_interval (port : option Z) (calls : list Call) :
  let w := run calls (initialWorld port) in
  runningIntervals (trace w) = (if _pollIntervalId (shim w) then 1 else 0)%Z.
Proof.
  cbn zeta. induction calls as [|c calls IH] using rev_ind; [done|].
  rewrite run_snoc. generalize dependent (run calls (initialWorld port)).
  intros w IH.
  destruct (Call_cases c) as [[callback ->]|[->|[Hsub Hunsub]]].
  { destruct w as [[cur cb [] bport fp undo redo sup] tr]; cbn in IH;
      unfold exec, callBody, onGraphUpdate, startGraphPolling; js_unfold; cbn;
      rewrite ?app_assoc, !runningIntervals_app, IH; cbn; lia. }
  { destruct w as [[cur cb [] bport fp undo redo sup] tr]; cbn in IH;
      unfold exec, callBody, unsubscribeGraphUpdate, stopGraphPolling; js_unfold; cbn;
      rewrite ?runningIntervals_app, IH; cbn; lia. }
  destruct (exec_events w c Hsub Hunsub) as (events & -> & Hq & _ & ->).
  by rewrite runningIntervals_app, (runningIntervals_quiet _ _ Hq), Z.add_0_r.
Qed.

Lemma callsTheSubscriberOf_quiet w w' events :
  trace w' = trace w ++ events →
  _graphUpdateCallback (shim w') = _graphUpdateCallback (shim w) →
  Forall (quietEvent (_graphUpdateCallback (shim w))) events →
  callsTheSubscriberOf w w'.
Proof.
  intros Htrace Hcb Hq. exists events. split; [done|]. split; [done|].
  intros cb delta Hin. rewrite Forall_forall in Hq. exact (Hq _ Hin).
Qed.

(** Along a run, the callback registered and the callbacks called have all
    been subscribed by an earlier call. *)
Lemma run_subscribers port calls :
  let w := run calls (initialWorld port) in
  (∀ cb, _graphUpdateCallback (shim w) = Some cb → CallOnGraphUpdate cb ∈ calls) ∧
  (∀ cb delta, UIUpdate cb delta ∈ trace w → CallOnGraphUpdate cb ∈ calls).
Proof.
  cbn zeta. induction calls as [|c calls [IHcb IHtrace]] using rev_ind.
  - split; [done|]. intros cb delta Hin. by apply elem_of_nil in Hin.
  - rewrite run_snoc. generalize dependent (run calls (initialWorld port)).
    intros w IHcb IHtrace.
    assert (∀ x, x ∈ calls → x ∈ calls ++ [c]) as Hearlier.
    { intros x Hx. apply elem_of_app. by left. }
    assert (c ∈ calls ++ [c]) as Hlast.
    { apply elem_of_app. right. by apply list_elem_of_singleton. }
    destruct (Call_cases c) as [[callback ->]|[->|[Hsub Hunsub]]].
    + destruct w as [[cur cb [] bport fp undo redo sup] tr];
        unfold exec, callBody, onGraphUpdate, startGraphPolling; js_unfold;
        cbn in IHtrace |- *; (split; [by intros ? [= <-]|]); intros cb' delta Hin;
        repeat (apply elem_of_app in Hin as [Hin|Hin%list_elem_of_singleton]);
        try discriminate Hin; by eapply Hearlier, IHtrace.
    + destruct w as [[cur cb [] bport fp undo redo sup] tr];
        unfold exec, callBody, unsubscribeGraphUpdate, stopGraphPolling; js_unfold;
        cbn in IHtrace |- *; (split; [done|]); intros cb' delta Hin;
        repeat (apply elem_of_app in Hin as [Hin|Hin%list_elem_of_singleton]);
        try discriminate Hin; by eapply Hearlier, IHtrace.
    + destruct (exec_events w c Hsub Hunsub) as (events & -> & Hq & -> & _).
      split; [by intros cb Hcb; apply Hearlier, IHcb|].
      intros cb delta [Hin|Hin]%elem_of_app; [by eapply Hearlier, IHtrace|].
      rewrite Forall_forall in Hq. by apply Hearlier, IHcb, (Hq _ Hin).
Qed.

(** X12. A UI update goes to the subscriber of the moment. The UI callback
    is called in three places, each in a stretch of code that runs without
    a break after the last [await] of its function: the end of
    [applyGraphDelta], the end of [loadAndPushGraph] and the end of
    [pushFullGraphToUI]. Started in any state, each stretch calls no other
    callback than the one registered in that state, calls none when none is
    registered, and leaves the registration alone. And in every run of
    calls from the initial state, a callback that is called was subscribed
    by an earlier call. *)
Theorem ui_update_goes_to_current_subscriber :
  (∀ delta w, delta ≠ [] →
     applyGraphDelta delta w
     = (applyGraphDelta_untilWritten delta ;; applyGraphDelta_afterWrites delta) w) ∧
  (∀ files w, fingerprintOf files ≠ _lastFileFingerprint (shim w) → files ≠ [] →
     processListing files w
     = loadAndPushGraph_afterImports files
         {| shim := set_lastFileFingerprint (fingerprintOf files) (shim w);
            trace := trace w |}) ∧
  (∀ previousGraph w,
     pushFullGraphToUI previousGraph w
     = match _currentGraph (shim w), _graphUpdateCallback (shim w) with
       | Some _, Some _ => pushFullGraphToUI_afterImport previousGraph w
       | _, _ => (Normal (), w)
       end) ∧
  (∀ delta files previousGraph w,
     callsTheSubscriberOf w (applyGraphDelta_afterWrites delta w).2 ∧
     callsTheSubscriberOf w (loadAndPushGraph_afterImports files w).2 ∧
     callsTheSubscriberOf w (pushFullGraphToUI_afterImport previousGraph w).2) ∧
  (∀ port calls cb delta,
     UIUpdate cb delta ∈ trace (run calls (initialWorld port)) →
     CallOnGraphUpdate cb ∈ calls).
Proof.
  split; [|split; [|split; [|split]]].
  - intros [|d delta] w Hne; [done|].
    destruct w as [[cur cb pid port fp undo redo sup] tr].
    unfold applyGraphDelta, applyGraphDelta_untilWritten, applyGraphDelta_afterWrites.
    js_unfold. cbn [length Nat.eqb shim _currentGraph].
    destruct cur; cbn -[forEach persistNodeDelta applyGraphDeltaToGraph saveUndoState];
      by destruct (forEach (d :: delta) persistNodeDelta _) as [[[]|] w'].
  - intros files w Hfp Hne. unfold processListing, loadAndPushGraph_afterImports.
    js_unfold. cbn [shim].
    destruct (String.eqb_spec (fingerprintOf files) (_lastFileFingerprint (shim w)));
      [done|].
    destruct files; [done|]. cbn [length Nat.eqb]. by destruct (rebuild _).
  - intros previousGraph w. unfold pushFullGraphToUI, pushFullGraphToUI_afterImport.
    js_unfold. by destruct (_currentGraph (shim w)), (_graphUpdateCallback (shim w)).
  - intros delta files previousGraph w. split; [|split].
    + unfold applyGraphDelta_afterWrites. js_unfold. cbn.
      destruct (_graphUpdateCallback (shim w)) as [cb|] eqn:Hcb; cbn.
      * apply (callsTheSubscriberOf_quiet _ _ [UIUpdate cb delta]); [done|done|].
        rewrite Hcb. by repeat constructor.
      * apply (callsTheSubscriberOf_quiet _ _ []); [by rewrite app_nil_r|done|constructor].
    + unfold loadAndPushGraph_afterImports. destruct (rebuild files) as [graph allDeltas].
      js_unfold.
      destruct (_graphUpdateCallback (shim w)) as [cb|] eqn:Hcb;
        [destruct allDeltas as [|d allDeltas]|]; cbn.
      * apply (callsTheSubscriberOf_quiet _ _ []); [by rewrite app_nil_r|done|constructor].
      * apply (callsTheSubscriberOf_quiet _ _ [UIUpdate cb (d :: allDeltas)]); [done|done|].
        rewrite Hcb. by repeat constructor.
      * apply (callsTheSubscriberOf_quiet _ _ []); [by rewrite app_nil_r|done|constructor].
    + unfold pushFullGraphToUI_afterImport. js_unfold. cbn.
      destruct (_currentGraph (shim w)) as [cur|];
        [destruct (_graphUpdateCallback (shim w)) as [cb|] eqn:Hcb|]; cbn.
      * eapply (callsTheSubscriberOf_quiet _ _ [UIUpdate cb _]); [done|done|].
        rewrite Hcb. by repeat constructor.
      * apply (callsTheSubscriberOf_quiet _ _ []); [by rewrite app_nil_r|done|constructor].
      * apply (callsTheSubscriberOf_quiet _ _ []); [by rewrite app_nil_r|done|constructor].
  - intros port calls cb delta Hin.
    by destruct (run_subscribers port calls) as [_ H]; eapply H.
Qed.

(** *** Calls never reject *)


(** X18. A poll touches the current graph and the stored fingerprint only:
    the UI callback, the polling interval, the backend port, the undo and
    redo stacks and the suppression flag are as before, whatever the backend
    answers, and a graph that was loaded is not unloaded. *)
Theorem poll_keeps_callback_history_and_flag (w : World) :
  let w' := (loadAndPushGraph w).2 in
  _graphUpdateCallback (shim w') = _graphUpdateCallback (shim w) ∧
  _pollIntervalId (shim w') = _pollIntervalId (shim w) ∧
  _backendPort (shim w') = _backendPort (shim w) ∧
  _undoStack (shim w') = _undoStack (shim w) ∧
  _redoStack (shim w') = _redoStack (shim w) ∧
  _suppressPolling (shim w') = _suppressPolling (shim w) ∧
  (is_Some (_currentGraph (shim w)) → is_Some (_currentGraph (shim w'))).
Proof.
  cbn zeta. destruct (loadAndPushGraph_frame w) as (b & w' & -> & H). exact H.
Qed.

End Shim.

(** ** Properties of the project name *)

Lemma splitPath_nonempty s : splitPath s ≠ [].
Proof.
  destruct s as [|c s]; [done|]. cbn [splitPath].
  destruct (isSeparator c); [done|]. by destruct (splitPath s).
Qed.

Lemma splitPath_separatorFree s : separatorFree s = true → splitPath s = [s].
Proof.
  induction s as [|c s IH]; [done|]. cbn [separatorFree splitPath].
  intros [Hc Hs]%andb_true_iff. apply negb_true_iff in Hc. rewrite Hc.
  by rewrite (IH Hs).
Qed.

(** Splitting what ends in a separator and a last segment. *)
Lemma splitPath_append dir c name :
  isSeparator c = true → separatorFree name = true →
  splitPath (dir +:+ String c name) = push (splitPath dir) name.
Proof.
  intros Hc Hname. induction dir as [|d dir IH].
  - change ("" +:+ String c name) with (String c name). cbn [splitPath].
    by rewrite Hc, (splitPath_separatorFree _ Hname).
  - rewrite append_String. cbn [splitPath]. rewrite IH.
    destruct (isSeparator d); [done|].
    pose proof (splitPath_nonempty dir) as Hne.
    by destruct (splitPath dir) as [|segment segments].
Qed.

(** The last segment is what follows the last separator. *)
Lemma splitPath_last s :
  ∃ segments name prefix,
    splitPath s = push segments name ∧ separatorFree name = true ∧
    s = prefix +:+ name ∧
    (segments = [] → prefix = "") ∧
    (segments ≠ [] → ∃ dir c, prefix = dir +:+ String c "" ∧ isSeparator c = true).
Proof.
  induction s as [|c s (segments & name & prefix & Hsplit & Hfree & Hs & Hnil & Hcons)].
  - by exists [], "", "".
  - cbn [splitPath]. destruct (isSeparator c) eqn:Hc.
    + exists ("" :: segments), name, (String c prefix).
      rewrite Hsplit. split; [done|]. split; [done|].
      split; [by rewrite append_String, <- Hs|]. split; [done|]. intros _.
      destruct segments as [|segment segments].
      * rewrite (Hnil eq_refl). by exists "", c.
      * destruct Hcons as (dir & c' & -> & Hc'); [done|].
        by exists (String c dir), c'.
    + rewrite Hsplit. destruct segments as [|segment segments].
      * exists [], (String c name), "". cbn [separatorFree]. rewrite Hc, Hfree.
        split; [done|]. split; [done|]. rewrite Hs, (Hnil eq_refl).
        by split.
      * exists (String c segment :: segments), name, (String c prefix).
        split; [done|]. split; [done|].
        split; [by rewrite append_String, <- Hs|]. split; [done|]. intros _.
        destruct Hcons as (dir & c' & -> & Hc'); [done|].
        by exists (String c dir), c'.
Qed.

(** X13. The project name is the last segment of the path: it contains no
    separator, the path ends with it, and what precedes it in the path is
    empty or ends in a separator. A path without separators is its own
    name, the name of a path ending in a separator is empty, and the
    fallback [Workspace] is never used, because splitting a string never
    yields an empty array. *)
Theorem projectName_is_last_segment (vscodePath : string) :
  pop (splitPath vscodePath) ≠ None ∧
  separatorFree (projectName vscodePath) = true ∧
  (∃ prefix,
     vscodePath = prefix +:+ projectName vscodePath ∧
     (prefix = "" ∨ ∃ dir c, prefix = dir +:+ String c "" ∧ isSeparator c = true)) ∧
  (separatorFree vscodePath = true → projectName vscodePath = vscodePath) ∧
  (∀ dir c name, isSeparator c = true → separatorFree name = true →
     vscodePath = dir +:+ String c name → projectName vscodePath = name).
Proof.
  split; [intros H%pop_None; by apply splitPath_nonempty in H|].
  destruct (splitPath_last vscodePath)
    as (segments & name & prefix & Hsplit & Hfree & Hs & Hnil & Hcons).
  assert (projectName vscodePath = name) as Hname.
  { unfold projectName. by rewrite Hsplit, pop_push. }
  rewrite Hname. split; [done|]. split; [|split].
  - exists prefix. split; [done|].
    destruct segments as [|segment segments]; [left; by apply Hnil|right; by apply Hcons].
  - intros Hp. rewrite <- Hname. unfold projectName.
    by rewrite (splitPath_separatorFree _ Hp).
  - intros dir c name' Hc Hfree' ->. rewrite <- Hname. unfold projectName.
    by rewrite (splitPath_append _ _ _ Hc Hfree'), pop_push.
Qed.

(** ** Properties of the settings bridge *)

Section SettingsBridgeProperties.

Context {V : Type}.
Implicit Types (st : BridgeState V) (ids : list string) (p q : nat).

Lemma NoDup_fmap_eq {A B} (f : A → B) (l : list A) x y :
  NoDup (f <$> l) → x ∈ l → y ∈ l → f x = f y → x = y.
Proof.
  induction l as [|z l IH]; csimpl; intros Hnd Hx Hy Hf.
  - by apply elem_of_nil in Hx.
  - apply NoDup_cons in Hnd as [Hz Hnd].
    apply elem_of_cons in Hx as [->|Hx]; apply elem_of_cons in Hy as [->|Hy].
    + done.
    + destruct Hz. rewrite Hf. by apply list_elem_of_fmap_2.
    + destruct Hz. rewrite <- Hf. by apply list_elem_of_fmap_2.
    + by apply IH.
Qed.

Lemma timesResolved_call p q v st st' :
  resolveCalls st' = resolveCalls st ++ [(q, v)] →
  timesResolved p st' =
    if decide (q = p) then S (timesResolved p st) else timesResolved p st.
Proof.
  unfold timesResolved. intros ->. rewrite filter_app, length_app.
  rewrite filter_cons, filter_nil. cbn [fst].
  destruct (decide (q = p)); cbn [length]; lia.
Qed.

Lemma callResolver_promise (r : Resolver) (v : option V) :
  callResolver r v = (promiseOf r, (callResolver r v).2).
Proof. by destruct r. Qed.

(** Two pending requests have different promises. *)
Lemma pending_promises_differ ids st id id' r r' :
  bridgeInvariant ids st →
  _pending st !! id = Some r → _pending st !! id' = Some r' →
  promiseOf r = promiseOf r' → id = id'.
Proof.
  intros Hinv Hr Hr' Heq.
  destruct (inv_pending Hinv _ _ Hr) as (_ & t & Ht & <- & Hp).
  destruct (inv_pending Hinv _ _ Hr') as (_ & t' & Ht' & <- & Hp').
  f_equal. apply (NoDup_fmap_eq timer_promise (timersSet st)); [|done..|congruence].
  apply (inv_timer_promises Hinv).
Qed.

(** Resolving the promise of a pending request and deleting the request
    keeps the invariant. *)
Lemma invariant_resolve ids st id r v :
  bridgeInvariant ids st → _pending st !! id = Some r →
  bridgeInvariant ids
    {| _pending := delete id (_pending st);
       promisesCreated := promisesCreated st;
       timersSet := timersSet st;
       posted := posted st;
       resolveCalls := resolveCalls st ++ [(promiseOf r, v)] |}.
Proof.
  intros Hinv Hr.
  set (st' := {| _pending := delete id (_pending st) |}).
  assert (∀ p, timesResolved p st' =
            if decide (promiseOf r = p) then S (timesResolved p st)
            else timesResolved p st) as Hcount.
  { intros p. by apply (timesResolved_call p (promiseOf r) v). }
  assert (∀ id' r', _pending st' !! id' = Some r' →
            id' ≠ id ∧ _pending st !! id' = Some r' ∧ promiseOf r' ≠ promiseOf r)
    as Hrest.
  { intros id' r' Hr'. cbn in Hr'. apply lookup_delete_Some in Hr' as [Hne Hr'].
    split; [done|]. split; [done|]. intros Heq.
    destruct Hne. symmetry. by eapply pending_promises_differ. }
  destruct (inv_pending Hinv _ _ Hr) as (Hzero & t & Ht & Hid & Hp).
  split.
  - intros id' r' Hr'. destruct (Hrest _ _ Hr') as (Hne & Hold & Hpne).
    rewrite Hcount, decide_False by done. exact (inv_pending Hinv _ _ Hold).
  - exact (inv_timer_ids Hinv).
  - exact (inv_timer_promises Hinv).
  - exact (inv_timers Hinv).
  - intros p Hlt. rewrite Hcount. destruct (decide (promiseOf r = p)) as [<-|Hne].
    + right. rewrite Hzero. split; [done|]. intros id' r' Hr'.
      by destruct (Hrest _ _ Hr') as (_ & _ & ?).
    + destruct (inv_promises Hinv p Hlt) as [(H0 & id' & r' & Hr' & Hp')|(H1 & Hnone)].
      * left. split; [done|]. exists id', r'. split; [|done]. cbn.
        rewrite lookup_delete_ne; [done|]. intros ->. congruence.
      * right. split; [done|]. intros id' r' Hr'.
        destruct (Hrest _ _ Hr') as (_ & Hold & _). by eapply Hnone.
  - intros p Hle. rewrite Hcount. unfold st' in Hle. cbn in Hle.
    destruct (inv_timers Hinv t Ht) as [_ Hlt].
    rewrite decide_False by lia. by apply (inv_future Hinv).
Qed.

(** A timer whose request is not pending can go. *)
Lemma invariant_timer_gone ids st k t :
  bridgeInvariant ids st → timersSet st !! k = Some t →
  _pending st !! timer_requestId t = None →
  bridgeInvariant ids
    {| _pending := _pending st;
       promisesCreated := promisesCreated st;
       timersSet := delete k (timersSet st);
       posted := posted st;
       resolveCalls := resolveCalls st |}.
Proof.
  intros Hinv Hk Hnone.
  assert (delete k (timersSet st) `sublist_of` timersSet st) as Hsub
    by apply sublist_delete.
  split; cbn.
  - intros id r Hr. destruct (inv_pending Hinv _ _ Hr) as (Hzero & t' & Ht' & Hid & Hp).
    split; [done|]. exists t'. split; [|done].
    rewrite <- (take_drop_middle _ _ _ Hk) in Ht'. rewrite delete_take_drop.
    apply elem_of_app in Ht' as [?|[->|?]%elem_of_cons]; apply elem_of_app; auto.
    congruence.
  - eapply sublist_NoDup; [exact (inv_timer_ids Hinv)|by apply fmap_sublist].
  - eapply sublist_NoDup; [exact (inv_timer_promises Hinv)|by apply fmap_sublist].
  - intros t' Ht'. apply (inv_timers Hinv). by eapply list_elem_of_delete_inv.
  - exact (inv_promises Hinv).
  - exact (inv_future Hinv).
Qed.

(** Starting a request under a new id keeps the invariant. *)
Lemma invariant_request ids st id r ms msg :
  bridgeInvariant ids st → id ∉ ids → promiseOf r = promisesCreated st →
  bridgeInvariant (ids ++ [id])
    {| _pending := <[id := r]> (_pending st);
       promisesCreated := S (promisesCreated st);
       timersSet := timersSet st
                    ++ [{| timer_requestId := id; timer_promise := promisesCreated st;
                           timer_ms := ms |}];
       posted := posted st ++ [msg];
       resolveCalls := resolveCalls st |}.
Proof.
  intros Hinv Hnew Hr.
  assert (∀ id' r', _pending st !! id' = Some r' →
            id' ≠ id ∧ promiseOf r' < promisesCreated st) as Hold.
  { intros id' r' Hr'. destruct (inv_pending Hinv _ _ Hr') as (_ & t & Ht & <- & <-).
    destruct (inv_timers Hinv t Ht) as [Hin Hlt]. split; [|done]. by intros <-. }
  split; cbn.
  - intros id' r' Hr'. destruct (decide (id' = id)) as [->|Hne].
    + rewrite lookup_insert_eq in Hr'. injection Hr' as <-. split.
      * rewrite Hr. by apply (inv_future Hinv).
      * eexists. split; [apply elem_of_app; right; apply list_elem_of_singleton; done|].
        by split.
    + rewrite lookup_insert_ne in Hr' by done.
      destruct (inv_pending Hinv _ _ Hr') as (Hzero & t & Ht & Hid & Hp).
      split; [done|]. exists t. split; [|done]. apply elem_of_app. by left.
  - rewrite fmap_app. apply NoDup_app. split; [exact (inv_timer_ids Hinv)|].
    split; [|apply NoDup_singleton].
    intros x (t & -> & Ht)%list_elem_of_fmap Heq%list_elem_of_singleton.
    destruct (inv_timers Hinv t Ht) as [Hin _]. cbn in Heq. by rewrite Heq in Hin.
  - rewrite fmap_app. apply NoDup_app. split; [exact (inv_timer_promises Hinv)|].
    split; [|apply NoDup_singleton].
    intros x (t & -> & Ht)%list_elem_of_fmap Heq%list_elem_of_singleton.
    destruct (inv_timers Hinv t Ht). cbn in Heq. lia.
  - intros t [Ht|Ht%list_elem_of_singleton]%elem_of_app; [|subst t].
    + destruct (inv_timers Hinv t Ht). split; [apply elem_of_app; by left|lia].
    + cbn. split; [apply elem_of_app; right; by apply list_elem_of_singleton|lia].
  - intros p Hlt. destruct (decide (p = promisesCreated st)) as [->|Hne].
    + left. split; [by apply (inv_future Hinv)|]. exists id, r.
      by rewrite lookup_insert_eq.
    + destruct (inv_promises Hinv p) as [(H0 & id' & r' & Hr' & Hp')|(H1 & Hnone)];
        [lia| |].
      * left. split; [done|]. exists id', r'. split; [|done].
        rewrite lookup_insert_ne; [done|]. intros <-. by destruct (Hold _ _ Hr').
      * right. split; [done|]. intros id' r' Hr'.
        destruct (decide (id' = id)) as [->|Hne'].
        -- rewrite lookup_insert_eq in Hr'. injection Hr' as <-. congruence.
        -- rewrite lookup_insert_ne in Hr' by done. by eapply Hnone.
  - intros p Hle. apply (inv_future Hinv). lia.
Qed.

Lemma invariant_more_ids ids ids' st :
  bridgeInvariant ids st → bridgeInvariant (ids ++ ids') st.
Proof.
  intros Hinv. split; try apply Hinv.
  intros t Ht. destruct (inv_timers Hinv t Ht). split; [|done].
  apply elem_of_app. by left.
Qed.

Lemma bridgeRun_snoc (steps : list (BridgeStep V)) s :
  bridgeRun (steps ++ [s]) = bridgeStep (bridgeRun steps) s.
Proof. unfold bridgeRun. by rewrite foldl_app. Qed.

Lemma invariant_handleMessage ids st msg :
  bridgeInvariant ids st → bridgeInvariant ids (settingsBridge_handleMessage msg st).
Proof.
  intros Hinv. unfold settingsBridge_handleMessage.
  destruct (msg_requestId msg) as [id|]; [|done].
  destruct (_pending st !! id) as [r|] eqn:Hr; [|done].
  rewrite callResolver_promise. by apply invariant_resolve.
Qed.

Lemma invariant_timerFires ids st k :
  bridgeInvariant ids st → bridgeInvariant ids (bridgeStep st (TimerFires k)).
Proof.
  intros Hinv. cbn [bridgeStep].
  destruct (timersSet st !! k) as [t|] eqn:Hk; [|done].
  unfold settingsTimeout. cbn [_pending promisesCreated timersSet posted resolveCalls].
  destruct (_pending st !! timer_requestId t) as [r|] eqn:Hr.
  - destruct (inv_pending Hinv _ _ Hr) as (_ & t' & Ht' & Hid & Hp).
    assert (t' = t) as ->.
    { apply (NoDup_fmap_eq timer_requestId (timersSet st));
        [apply (inv_timer_ids Hinv)|done|by eapply list_elem_of_lookup_2|done]. }
    rewrite Hp.
    pose proof (invariant_resolve ids st _ r None Hinv Hr) as Hinv'.
    apply (invariant_timer_gone _ _ k t) in Hinv'; [exact Hinv'|done|apply lookup_delete_eq].
  - by apply (invariant_timer_gone ids st k t).
Qed.

(** The invariant holds after every sequence of steps in which no request
    id is made up twice. *)
Lemma bridgeRun_invariant (steps : list (BridgeStep V)) :
  NoDup (requestIds steps) → bridgeInvariant (requestIds steps) (bridgeRun steps).
Proof.
  induction steps as [|s steps IH] using rev_ind; intros Hnd.
  - split; cbn; try done; try apply NoDup_nil_2.
    + intros t Ht. by apply elem_of_nil in Ht.
    + intros p Hp. lia.
  - rewrite bridgeRun_snoc. unfold requestIds in *. rewrite omap_app in *.
    apply NoDup_app in Hnd as (Hnd & Hnew & _). specialize (IH Hnd).
    destruct s as [now|now settings|msg|k]; cbn [omap bridgeStep].
    + apply invariant_request; [done| |done].
      intros Hin. apply (Hnew _ Hin). by apply list_elem_of_singleton.
    + apply invariant_request; [done| |done].
      intros Hin. apply (Hnew _ Hin). by apply list_elem_of_singleton.
    + apply invariant_more_ids. unfold onSettingsMessage.
      destruct (_ || _); [by apply invariant_handleMessage|done].
    + apply invariant_more_ids. by apply invariant_timerFires.
Qed.

Lemma promisesCreated_handleMessage msg st :
  promisesCreated (settingsBridge_handleMessage msg st) = promisesCreated st.
Proof.
  unfold settingsBridge_handleMessage.
  destruct (msg_requestId msg); [|done]. by destruct (_pending st !! _).
Qed.

Lemma bridgeRun_promisesCreated (steps : list (BridgeStep V)) :
  promisesCreated (bridgeRun steps) = length (requestIds steps).
Proof.
  induction steps as [|s steps IH] using rev_ind; [done|].
  rewrite bridgeRun_snoc. unfold requestIds in *. rewrite omap_app, length_app, <- IH.
  destruct s as [now|now settings|msg|k]; cbn [omap bridgeStep length].
  - cbn. lia.
  - cbn. lia.
  - unfold onSettingsMessage. rewrite Nat.add_0_r.
    destruct (_ || _); [apply promisesCreated_handleMessage|done].
  - rewrite Nat.add_0_r. destruct (timersSet _ !! k) as [t|]; [|done].
    unfold settingsTimeout. cbn. by destruct (_ !! timer_requestId t).
Qed.

(** X14. Every settings request is answered once: in every course of loads,
    saves, messages and timers in which no request id is made up twice, as
    many promises have been created as requests were started, the [resolve]
    function of none of them has been called twice, and that of a promise
    whose timer has fired has been called exactly once. *)
Theorem settings_request_resolved_once (steps : list (BridgeStep V)) :
  NoDup (requestIds steps) →
  promisesCreated (bridgeRun steps) = length (requestIds steps) ∧
  ∀ p, p < promisesCreated (bridgeRun steps) →
    timesResolved p (bridgeRun steps) ≤ 1 ∧
    (¬ awaitsTimer p (bridgeRun steps) → timesResolved p (bridgeRun steps) = 1).
Proof.
  intros Hnd. split; [apply bridgeRun_promisesCreated|]. intros p Hlt.
  pose proof (bridgeRun_invariant steps Hnd) as Hinv.
  destruct (inv_promises Hinv p Hlt) as [(H0 & id & r & Hr & Hp)|(H1 & _)].
  - split; [lia|]. intros Hno. destruct Hno.
    destruct (inv_pending Hinv _ _ Hr) as (_ & t & Ht & _ & Hpt).
    exists t. split; [done|congruence].
  - split; [lia|done].
Qed.

Lemma lookup_snoc_length {A} (l : list A) (x : A) : (l ++ [x]) !! length l = Some x.
Proof. by apply list_lookup_middle. Qed.

Lemma delete_middle_length {A} (l l' : list A) (x : A) :
  delete (length l) (l ++ x :: l') = l ++ l'.
Proof. induction l as [|y l IH]; [done|]. cbn. f_equal. exact IH. Qed.

Lemma delete_snoc_length {A} (l : list A) (x : A) : delete (length l) (l ++ [x]) = l.
Proof. by rewrite delete_middle_length, app_nil_r. Qed.

(** An answer to a pending request resolves it and deletes it. *)
Lemma message_resolves st msg id r :
  settingsReply msg → msg_requestId msg = Some id → _pending st !! id = Some r →
  bridgeStep st (Message msg) =
    {| _pending := delete id (_pending st);
       promisesCreated := promisesCreated st;
       timersSet := timersSet st;
       posted := posted st;
       resolveCalls := resolveCalls st ++ [callResolver r (payload msg)] |}.
Proof.
  intros Htype Hid Hr. cbn [bridgeStep].
  unfold onSettingsMessage, settingsBridge_handleMessage. rewrite Hid, Hr.
  by destruct Htype as [-> | ->].
Qed.

(** A message for a request that is not pending does nothing. *)
Lemma message_ignored st msg id :
  msg_requestId msg = Some id → _pending st !! id = None →
  bridgeStep st (Message msg) = st.
Proof.
  intros Hid Hr. cbn [bridgeStep].
  unfold onSettingsMessage, settingsBridge_handleMessage. rewrite Hid, Hr.
  by destruct (_ || _).
Qed.

(** The timer of a pending request gives up on it. *)
Lemma timer_resolves st k t r :
  timersSet st !! k = Some t → _pending st !! timer_requestId t = Some r →
  bridgeStep st (TimerFires k) =
    {| _pending := delete (timer_requestId t) (_pending st);
       promisesCreated := promisesCreated st;
       timersSet := delete k (timersSet st);
       posted := posted st;
       resolveCalls := resolveCalls st ++ [(timer_promise t, None)] |}.
Proof.
  intros Hk Hr. cbn [bridgeStep]. rewrite Hk. unfold settingsTimeout.
  cbn [_pending]. by rewrite Hr.
Qed.

(** The timer of a request that is not pending does nothing. *)
Lemma timer_ignored st k t :
  timersSet st !! k = Some t → _pending st !! timer_requestId t = None →
  bridgeStep st (TimerFires k) =
    {| _pending := _pending st;
       promisesCreated := promisesCreated st;
       timersSet := delete k (timersSet st);
       posted := posted st;
       resolveCalls := resolveCalls st |}.
Proof.
  intros Hk Hr. cbn [bridgeStep]. rewrite Hk. unfold settingsTimeout.
  cbn [_pending]. by rewrite Hr.
Qed.

(** X15. The answer races the timer: after a load is started, an answer
    under its request id that arrives before the timer fires resolves the
    promise with [settings ?? result ?? null], and the timer then does
    nothing; once the timer has fired first the promise is resolved with
    [null], and the answer is dropped. Either way the request is no longer
    pending and the timer is gone. *)
Theorem settings_answer_races_timer (st : BridgeState V) (now : nat)
    (msg : HostMessage V) :
  settingsReply msg → msg_requestId msg = Some (loadRequestId now) →
  let p := promisesCreated st in
  let k := length (timersSet st) in
  let started := bridgeStep st (StartLoad now) in
  let answered := bridgeStep (bridgeStep started (Message msg)) (TimerFires k) in
  let timedOut := bridgeStep (bridgeStep started (TimerFires k)) (Message msg) in
  posted started = posted st ++ [PostSettingsLoad (loadRequestId now)] ∧
  resolveCalls answered = resolveCalls st ++ [(p, payload msg)] ∧
  resolveCalls timedOut = resolveCalls st ++ [(p, None)] ∧
  _pending answered = delete (loadRequestId now) (_pending st) ∧
  _pending timedOut = delete (loadRequestId now) (_pending st) ∧
  timersSet answered = timersSet st ∧ timersSet timedOut = timersSet st.
Proof.
  intros Htype Hid. cbn zeta. split; [done|].
  set (t := {| timer_requestId := loadRequestId now;
               timer_promise := promisesCreated st; timer_ms := 500 |}).
  set (started := bridgeStep st (StartLoad now)).
  assert (_pending started !! loadRequestId now
          = Some (ResolveLoad (promisesCreated st))) as Hr by apply lookup_insert_eq.
  assert (timersSet started !! length (timersSet st) = Some t) as Hk
    by apply lookup_snoc_length.
  assert (delete (length (timersSet st)) (timersSet started) = timersSet st) as Hdel
    by apply delete_snoc_length.
  assert (delete (loadRequestId now) (_pending started)
          = delete (loadRequestId now) (_pending st)) as Hgone
    by apply delete_insert_eq.
  rewrite (message_resolves started msg _ _ Htype Hid Hr).
  rewrite (timer_ignored _ _ t) by (done || apply lookup_delete_eq).
  rewrite (timer_resolves started _ t _ Hk Hr).
  rewrite (message_ignored _ msg _ Hid) by apply lookup_delete_eq.
  cbn [_pending timersSet resolveCalls callResolver timer_requestId timer_promise t].
  by rewrite Hdel, Hgone.
Qed.

(** X16. Two loads started in the same millisecond share one request id and
    one entry of [_pending], which holds the [resolve] function of the
    second: an answer resolves the promise of the second load and no call
    is made for the first, not even by its timer; without an answer the
    timer of the first load resolves the first promise with [null] and
    deletes the entry, and then neither the timer of the second load nor a
    late answer resolves the second. *)
Theorem settings_loads_in_one_millisecond (st : BridgeState V) (now : nat)
    (msg : HostMessage V) :
  settingsReply msg → msg_requestId msg = Some (loadRequestId now) →
  let p := promisesCreated st in
  let k := length (timersSet st) in
  let started := bridgeStep (bridgeStep st (StartLoad now)) (StartLoad now) in
  let answered :=
    bridgeStep (bridgeStep (bridgeStep started (Message msg)) (TimerFires k))
      (TimerFires k) in
  let timedOut :=
    bridgeStep (bridgeStep (bridgeStep started (TimerFires k)) (TimerFires k))
      (Message msg) in
  promisesCreated started = S (S p) ∧
  resolveCalls answered = resolveCalls st ++ [(S p, payload msg)] ∧
  resolveCalls timedOut = resolveCalls st ++ [(p, None)] ∧
  _pending answered !! loadRequestId now = None ∧
  _pending timedOut !! loadRequestId now = None ∧
  timersSet answered = timersSet st ∧ timersSet timedOut = timersSet st.
Proof.
  intros Htype Hid. cbn zeta. split; [done|].
  set (t1 := {| timer_requestId := loadRequestId now;
                timer_promise := promisesCreated st; timer_ms := 500 |}).
  set (t2 := {| timer_requestId := loadRequestId now;
                timer_promise := S (promisesCreated st); timer_ms := 500 |}).
  set (started := bridgeStep (bridgeStep st (StartLoad now)) (StartLoad now)).
  assert (_pending started !! loadRequestId now
          = Some (ResolveLoad (S (promisesCreated st)))) as Hr
    by apply lookup_insert_eq.
  assert (timersSet started = (timersSet st ++ [t1]) ++ [t2]) as Htimers by done.
  assert (timersSet started !! length (timersSet st) = Some t1) as Hk.
  { rewrite Htimers, <- app_assoc. by apply list_lookup_middle. }
  assert (delete (length (timersSet st)) (timersSet started) = timersSet st ++ [t2])
    as Hdel.
  { rewrite Htimers, <- app_assoc. apply delete_middle_length. }
  rewrite (message_resolves started msg _ _ Htype Hid Hr).
  rewrite (timer_ignored {| _pending := _; promisesCreated := _;
                            timersSet := timersSet started; posted := _;
                            resolveCalls := _ |} _ t1)
    by (done || apply lookup_delete_eq).
  cbn [_pending promisesCreated timersSet posted resolveCalls].
  rewrite Hdel.
  rewrite (timer_ignored _ _ t2) by (apply lookup_snoc_length || apply lookup_delete_eq).
  rewrite (timer_resolves started _ t1 _ Hk Hr).
  cbn [_pending promisesCreated timersSet posted resolveCalls].
  rewrite Hdel.
  rewrite (timer_ignored _ _ t2) by (apply lookup_snoc_length || apply lookup_delete_eq).
  rewrite (message_ignored _ msg _ Hid) by apply lookup_delete_eq.
  cbn [_pending timersSet resolveCalls callResolver timer_requestId timer_promise t1 t2].
  rewrite !delete_snoc_length, !lookup_delete_eq. done.
Qed.

End SettingsBridgeProperties.

(** ** Properties of the terminal bridge *)

Lemma terminalRun_snoc steps s :
  terminalRun (steps ++ [s]) = terminalStep (terminalRun steps) s.
Proof. unfold terminalRun. by rewrite foldl_app. Qed.

Lemma terminalInvariant_more_ids ids ids' st :
  spawnPromises st = length (ids ++ ids') →
  terminalInvariant ids st → terminalInvariant (ids ++ ids') st.
Proof.
  intros Hlen Hinv. split; [done|..].
  - intros id p Hp. apply lookup_app_l_Some. by apply (tinv_pending _ _ Hinv).
  - intros t Ht. apply lookup_app_l_Some. by apply (tinv_timers _ _ Hinv).
  - intros p r Hr. destruct (tinv_resolved _ _ Hinv p r Hr) as (? & ? & id & ? & ?).
    split; [done|]. split; [done|]. exists id. split; [|done].
    by apply lookup_app_l_Some.
Qed.

Lemma terminalInvariant_spawn ids st now td :
  terminalInvariant ids st →
  terminalInvariant (ids ++ [spawnTerminalId now td]) (terminalBridge_spawn now td st).
Proof.
  intros Hinv.
  assert ((ids ++ [spawnTerminalId now td]) !! spawnPromises st
          = Some (spawnTerminalId now td)) as Hnew.
  { rewrite (tinv_promises _ _ Hinv). by apply list_lookup_middle. }
  split; cbn.
  - rewrite length_app, (tinv_promises _ _ Hinv). cbn. lia.
  - intros id p Hp. destruct (decide (id = spawnTerminalId now td)) as [->|Hne].
    + rewrite lookup_insert_eq in Hp. by injection Hp as <-.
    + rewrite lookup_insert_ne in Hp by done.
      apply lookup_app_l_Some. by apply (tinv_pending _ _ Hinv).
  - intros t [Ht|Ht%list_elem_of_singleton]%elem_of_app.
    + apply lookup_app_l_Some. by apply (tinv_timers _ _ Hinv).
    + by subst t.
  - intros p r Hr. destruct (tinv_resolved _ _ Hinv p r Hr) as (? & ? & id & ? & ?).
    split; [done|]. split; [done|]. exists id. split; [|done].
    by apply lookup_app_l_Some.
Qed.

Lemma terminalInvariant_handleMessage ids st msg :
  terminalInvariant ids st → terminalInvariant ids (terminalBridge_handleMessage msg st).
Proof.
  intros Hinv. unfold terminalBridge_handleMessage.
  destruct (String.eqb _ "voicetree-terminal-data").
  { destruct (onDataCallback st); [|done]. split; apply Hinv. }
  destruct (String.eqb _ "voicetree-terminal-exit").
  { destruct (onExitCallback st); [|done]. split; apply Hinv. }
  destruct (String.eqb _ "voicetree-terminal-spawned"); [|done].
  destruct (tmsg_terminalId msg) as [id|]; [|done].
  destruct (_pendingSpawns st !! id) as [p|] eqn:Hp; [|done].
  split; cbn; try apply Hinv.
  - intros id' p' [_ Hp']%lookup_delete_Some. by apply (tinv_pending _ _ Hinv).
  - intros p' r [Hr|Hr%list_elem_of_singleton]%elem_of_app.
    + by apply (tinv_resolved _ _ Hinv).
    + injection Hr as -> ->. cbn. split; [done|]. split; [done|]. exists id.
      split; [|done]. by apply (tinv_pending _ _ Hinv).
Qed.

Lemma terminalInvariant_timer ids st k :
  terminalInvariant ids st → terminalInvariant ids (terminalStep st (SpawnTimerFires k)).
Proof.
  intros Hinv. cbn [terminalStep].
  destruct (spawnTimers st !! k) as [t|] eqn:Hk; [|done].
  assert (∀ t', t' ∈ delete k (spawnTimers st) →
            ids !! spawnTimer_promise t' = Some (spawnTimer_terminalId t')) as Htimers.
  { intros t' Ht'. apply (tinv_timers _ _ Hinv). by eapply list_elem_of_delete_inv. }
  unfold spawnTimeout. cbn.
  destruct (_pendingSpawns st !! spawnTimer_terminalId t) as [p|] eqn:Hp.
  - split; cbn; try apply Hinv; [|done|].
    + intros id' p' [_ Hp']%lookup_delete_Some. by apply (tinv_pending _ _ Hinv).
    + intros p' r [Hr|Hr%list_elem_of_singleton]%elem_of_app.
      * by apply (tinv_resolved _ _ Hinv).
      * injection Hr as -> ->. cbn. split; [done|]. split; [done|].
        exists (spawnTimer_terminalId t). split; [|done].
        apply (tinv_timers _ _ Hinv). by eapply list_elem_of_lookup_2.
  - split; cbn; try apply Hinv. done.
Qed.

Lemma terminalRun_invariant steps : terminalInvariant (spawnIds steps) (terminalRun steps).
Proof.
  induction steps as [|s steps IH] using rev_ind.
  - split; cbn; try done.
    + intros t Ht. by apply elem_of_nil in Ht.
    + intros p r Hr. by apply elem_of_nil in Hr.
  - rewrite terminalRun_snoc. unfold spawnIds in *. rewrite omap_app.
    destruct s as [now td|callback|callback|msg|k]; cbn [omap terminalStep].
    + by apply terminalInvariant_spawn.
    + rewrite app_nil_r. split; apply IH.
    + rewrite app_nil_r. split; apply IH.
    + rewrite app_nil_r. unfold onTerminalMessage.
      destruct (String.prefix _ _); [by apply terminalInvariant_handleMessage|done].
    + rewrite app_nil_r. by apply terminalInvariant_timer.
Qed.

(** X19. A spawn never reports failure, and never another terminal's id:
    whatever spawns, messages, timers and registrations happen, every call
    of the [resolve] function of a spawn's promise carries [success: true],
    no [error], and the terminal id under which that very spawn was made,
    be it given by the caller or made up from the clock; this holds also
    when several spawns use the same id, and whether the host answers or
    the timer gives up. *)
Theorem spawn_reports_success_with_its_own_id
    (steps : list TerminalStep) (p : nat) (r : SpawnResult) :
  (p, r) ∈ spawnResolved (terminalRun steps) →
  success r = true ∧ error r = None ∧
  ∃ id, spawnIds steps !! p = Some id ∧ result_terminalId r = Some id.
Proof. apply (tinv_resolved _ _ (terminalRun_invariant steps)). Qed.

(** ** The properties at work *)

Example fingerprint_example :
  fingerprintOf [fileA; {| path := "/b.md"; fileContent := "" |}] = "/a.md:3:# A|/b.md:0:".
Proof. reflexivity. Qed.

Example wikiLinkTargets_example : wikiLinkTargets (fileContent fileB) = ["/a.md"].
Proof. reflexivity. Qed.

Example initialWorld_fresh : initialWorld (Some 8001%Z) = freshWorld.
Proof. reflexivity. Qed.

(** C1 at work: [/a.md] sits at (10,20) and its file changed on disk; after
    the poll it is still at (10,20), with the new content, and [/gone.md],
    which the listing no longer has, is dropped. *)
Lemma position_preserved_across_rebuild_witness :
  ∃ merged n',
    _currentGraph (shim (loadAndPushGraph projectPath wikiLinkTargets
        (servesListing [ {| path := "/a.md"; fileContent := "# A, edited" |} ])
        placedWorld).2) = Some merged ∧
    nodes merged !! "/a.md" = Some n' ∧
    positionOf (Some n') = Some at_10_20 ∧
    content n' = "# A, edited" ∧
    nodes merged !! "/gone.md" = None.
Proof.
  destruct (position_preserved_across_rebuild projectPath wikiLinkTargets
      (servesListing [ {| path := "/a.md"; fileContent := "# A, edited" |} ])
      placedWorld
      [ {| path := "/a.md"; fileContent := "# A, edited" |} ]
      {| nodes := list_to_map
           [("/a.md", plainNode "/a.md" "# A" (Some at_10_20));
            ("/gone.md", plainNode "/gone.md" "# G" None)] |})
    as (merged & w' & Hrun & Hcur & Hall).
  - repeat split.
  - discriminate.
  - vm_compute. discriminate.
  - reflexivity.
  - destruct (Hall "/a.md") as (Ha & _).
    destruct (Ha (plainNode "/a.md" "# A, edited" None) at_10_20)
      as (n' & Hn' & Hpos & (_ & Hcontent & _)); [by vm_compute..|].
    destruct (Hall "/gone.md") as (_ & Hgone & _).
    exists merged, n'. rewrite Hrun. cbn [snd].
    split; [done|]. split; [done|]. split; [done|]. split; [done|].
    apply Hgone. by vm_compute.
Defined.

(** C10 at the failing input. The graph has the node [/a.md] and nothing
    under [constructor]; the batch has one entry, which names [constructor]
    with a position. The entry is not ignored: the graph stored has a
    second property, [constructor], holding an object with that position. *)
Lemma inherited_name_is_taken_for_a_node :
  let w' := (saveNodePositions
               [ {| data_id := "constructor"; cyPosition := Some at_10_20 |} ]
               loadedWorld).2 in
  objectKeys (nodes (getCurrentGraph (shim loadedWorld))) = ["/a.md"] ∧
  nodes (getCurrentGraph (shim loadedWorld)) !! "constructor" = None ∧
  nodes (getCurrentGraph (shim w')) !! "constructor" = Some (positionOnly (Some at_10_20)) ∧
  length (objectKeys (nodes (getCurrentGraph (shim w')))) = 2.
Proof. by vm_compute. Qed.

(** The entry above with [__proto__] for a name adds no property: it
    replaces the prototype of the object, after which [nodeUIMetadata]
    passes the test of line 154 as well. *)
Example proto_entry_opens_the_way :
  objectKeys (nodes (getCurrentGraph (shim (saveNodePositions
      [ {| data_id := "__proto__"; cyPosition := Some at_10_20 |} ] loadedWorld).2)))
  = ["/a.md"] ∧
  nodes (getCurrentGraph (shim (saveNodePositions
      [ {| data_id := "nodeUIMetadata"; cyPosition := Some at_10_20 |} ] loadedWorld).2))
    !! "nodeUIMetadata" = None ∧
  is_Some (nodes (getCurrentGraph (shim (saveNodePositions
      [ {| data_id := "__proto__"; cyPosition := Some at_10_20 |};
        {| data_id := "nodeUIMetadata"; cyPosition := Some at_10_20 |} ] loadedWorld).2))
    !! "nodeUIMetadata").
Proof. split; [by vm_compute|]. split; [by vm_compute|]. eexists. by vm_compute. Qed.

(** X20 at work: [/a.md], which has no position yet, is placed at (10,20);
    of the two other entries one names a node the graph does not have and
    one has no position. *)
Lemma position_save_touches_positions_only_witness :
  ∃ g' n',
    saveNodePositions
      [ {| data_id := "/a.md"; cyPosition := Some at_10_20 |};
        {| data_id := "/none.md"; cyPosition := Some at_10_20 |};
        {| data_id := "/gone.md"; cyPosition := None |} ]
      loadedWorld
    = (Normal (), {| shim := set_currentGraph (Some g') (shim loadedWorld); trace := [] |}) ∧
    positionOf (nodes (getCurrentGraph (shim loadedWorld)) !! "/a.md") = None ∧
    nodes g' !! "/a.md" = Some n' ∧
    positionOf (Some n') = Some at_10_20 ∧
    content n' = "# A" ∧
    nodes g' !! "/none.md" = None.
Proof.
  destruct (position_save_touches_positions_only
              [ {| data_id := "/a.md"; cyPosition := Some at_10_20 |};
                {| data_id := "/none.md"; cyPosition := Some at_10_20 |};
                {| data_id := "/gone.md"; cyPosition := None |} ]
              loadedWorld
              {| nodes := list_to_map [("/a.md", plainNode "/a.md" "# A" None)] |})
    as (g' & Hrun & Hnone & Hsame & _ & Hset & _).
  - reflexivity.
  - apply (bool_decide_unpack _). by vm_compute.
  - destruct (Hsame "/a.md" (plainNode "/a.md" "# A" None)) as (n' & Hn' & Hfields & _);
      [by vm_compute|].
    pose proof (Hset [] {| data_id := "/a.md"; cyPosition := Some at_10_20 |}
                  [ {| data_id := "/none.md"; cyPosition := Some at_10_20 |};
                    {| data_id := "/gone.md"; cyPosition := None |} ]
                  at_10_20 eq_refl eq_refl) as Hpos.
    cbn [data_id] in Hpos. rewrite Hn' in Hpos.
    exists g', n'. split; [exact Hrun|]. split; [by vm_compute|]. split; [exact Hn'|].
    split.
    + apply Hpos; [eexists; by vm_compute|].
      repeat constructor; cbn; intros H; discriminate H.
    + destruct Hfields as (_ & Hcontent & _). split; [exact Hcontent|].
      apply Hnone. by vm_compute.
Defined.

(** C2 at work: the shim is subscribed to, loads [/a.md], and [/b.md] is
    added by a local edit; undo then redo gives the graph with both nodes
    back. *)
Lemma undo_redo_round_trip_witness :
  let w := run projectPath content wikiLinkTargets (servesListing [fileA])
             [CallOnGraphUpdate 1; CallTimer RunLoadAndPushGraph;
              CallApplyGraphDelta [UpsertNode (plainNode "/b.md" "# B" None)]]
             freshWorld in
  _undoStack (shim w) ≠ [] ∧
  _currentGraph (shim (performRedo (performUndo w).2).2) = _currentGraph (shim w) ∧
  _currentGraph (shim (performUndo w).2) ≠ _currentGraph (shim w).
Proof.
  intros w.
  destruct (undo_redo_round_trip projectPath content wikiLinkTargets
              (servesListing [fileA]) w) as (_ & _ & Hround).
  - apply (run_reachable _ _ _ _ (Some 8001%Z)).
  - split; [by vm_compute|]. split; [|by vm_compute].
    destruct Hround as [(Hcur & _) _]; [by vm_compute|exact Hcur].
Defined.

(** C3 at work: in the same state, undo removes [/b.md] from the UI and
    upserts [/a.md]. *)
Lemma performUndo_restores_and_reconciles_witness :
  let w := run projectPath content wikiLinkTargets (servesListing [fileA])
             [CallOnGraphUpdate 1; CallTimer RunLoadAndPushGraph;
              CallApplyGraphDelta [UpsertNode (plainNode "/b.md" "# B" None)]]
             freshWorld in
  ∃ w', performUndo w = (Normal (), w') ∧
        _undoStack (shim w') = [] ∧
        _redoStack (shim w') = [getCurrentGraph (shim w)] ∧
        trace w' = trace w ++ [UIUpdate 1 [DeleteNode "/b.md";
                                           UpsertNode (plainNode "/a.md" "# A" None)];
                               SetTimeout ClearSuppressPolling 5000].
Proof.
  intros w.
  destruct (performUndo_restores_and_reconciles projectPath content wikiLinkTargets
              (servesListing [fileA]) w []
              {| nodes := {["/a.md" := plainNode "/a.md" "# A" None]} |} 1%nat)
    as (before & w' & Hcur & Hrun & Hundo & Hredo & _ & Htrace & _).
  - apply (run_reachable _ _ _ _ (Some 8001%Z)).
  - by vm_compute.
  - reflexivity.
  - exists w'. split; [exact Hrun|]. split; [exact Hundo|].
    assert (before = getCurrentGraph (shim w)) as -> by (unfold getCurrentGraph; by rewrite Hcur).
    split; [exact Hredo|]. rewrite Htrace. by vm_compute.
Defined.

(** C4 at work: [/a.md] is loaded with content [# A]; the next listing has
    [# A!]. The poll does not stop at the gate. *)
Lemma fingerprint_gate_witness :
  ∃ w', loadAndPushGraph projectPath wikiLinkTargets
          (servesListing [appendChar fileA "!"]) loadedWorld = (Normal true, w') ∧
        _lastFileFingerprint (shim w') = "/a.md:4:# A!" ∧
        loadAndPushGraph projectPath wikiLinkTargets
          (servesListing [appendChar fileA "!"]) w'
        = (Normal false,
           afterFetch projectPath (servesListing [appendChar fileA "!"]) w').
Proof.
  destruct (fingerprint_gate projectPath wikiLinkTargets
              (servesListing [appendChar fileA "!"]) loadedWorld
              [appendChar fileA "!"])
    as (_ & Hstored & Hnext & Happend).
  - repeat split.
  - destruct (Happend [] fileA [] "!"%char) as (_ & _ & w' & Hrun & _);
      [reflexivity|cbn; lia|reflexivity|].
    rewrite Hrun in Hstored, Hnext. cbn [snd] in Hstored, Hnext.
    exists w'. split; [exact Hrun|]. split; [exact Hstored|].
    apply Hnext. split; [|split; [|reflexivity]].
    + apply (f_equal (λ r, noBackendPort (shim r.2))) in Hrun. cbn [snd] in Hrun.
      rewrite <- Hrun. by vm_compute.
    + apply (f_equal (λ r, _suppressPolling (shim r.2))) in Hrun. cbn [snd] in Hrun.
      rewrite <- Hrun. by vm_compute.
Defined.

(** C5 at the failing inputs. A local edit resets the stored fingerprint to
    the empty string, which is also the fingerprint of the empty listing:
    when the poll that follows receives the empty listing, it stops at the
    gate and the graph keeps its node. The very first poll, which also
    starts from the empty string, stops at the gate in the same way, and no
    graph is adopted. *)
Lemma empty_listing_stops_at_gate_after_invalidation :
  (let w := (applyGraphDelta content (servesListing [])
               [UpsertNode (plainNode "/a.md" "# A2" None)] loadedWorld).2 in
   loadAndPushGraph projectPath wikiLinkTargets (servesListing []) w
   = (Normal false, afterFetch projectPath (servesListing []) w) ∧
   _currentGraph (shim (loadAndPushGraph projectPath wikiLinkTargets
                          (servesListing []) w).2)
   = Some {| nodes := {["/a.md" := plainNode "/a.md" "# A2" None]} |}) ∧
  loadAndPushGraph projectPath wikiLinkTargets (servesListing []) freshWorld
  = (Normal false, afterFetch projectPath (servesListing []) freshWorld) ∧
  _currentGraph (shim (loadAndPushGraph projectPath wikiLinkTargets
                         (servesListing []) freshWorld).2) = None.
Proof. by vm_compute. Qed.

(** With another fingerprint stored, the empty listing is adopted, and the
    UI callback is not called. *)
Lemma poll_with_empty_listing_adopts_empty_graph :
  loadAndPushGraph projectPath wikiLinkTargets (servesListing []) loadedWorld
  = (Normal false,
     {| shim := set_currentGraph (Some {| nodes := ∅ |})
                  (set_lastFileFingerprint "" (shim loadedWorld));
        trace := [Fetched FilesRequest (servesListing [] [] FilesRequest)] |}).
Proof. by vm_compute. Qed.

(** C6 at work: [/a.md] comes first, so the reference of [/b.md] to it
    becomes an edge in the first pass. *)
Lemma edges_follow_listing_order_witness :
  ∃ node w',
    loadAndPushGraph projectPath wikiLinkTargets (servesListing [fileA; fileB]) freshWorld
      = (Normal true, w') ∧
    nodes (getCurrentGraph (shim w')) !! "/b.md" = Some node ∧
    "/a.md" ∈ outgoingEdges node.
Proof.
  destruct (edges_follow_listing_order projectPath wikiLinkTargets
              (servesListing [fileA; fileB]) freshWorld [fileA] [] fileB)
    as (node & w' & Hrun & Hnode & _ & Hedges).
  - repeat split.
  - by vm_compute.
  - apply not_elem_of_nil.
  - exists node, w'. split; [exact Hrun|]. split; [exact Hnode|].
    apply Hedges. split; apply list_elem_of_here.
Defined.

(** C6, the claim refuted: with [/b.md] first, the first rebuild leaves the
    reference without an edge, and so does a second full rebuild from the
    same listing (the graph is rebuilt, and pushed to the UI, twice). *)
Lemma reversed_listing_second_rebuild_has_no_edge :
  let w1 := exec projectPath content wikiLinkTargets (servesListing [fileB; fileA])
              (exec projectPath content wikiLinkTargets (servesListing [fileB; fileA])
                 freshWorld (CallOnGraphUpdate 1))
              (CallTimer RunLoadAndPushGraph) in
  let w2 := exec projectPath content wikiLinkTargets (servesListing [fileB; fileA])
              w1 CallRefreshGraphFromBackend in
  outgoingEdges <$> nodes (getCurrentGraph (shim w1)) !! "/b.md" = Some [] ∧
  outgoingEdges <$> nodes (getCurrentGraph (shim w2)) !! "/b.md" = Some [] ∧
  is_Some (nodes (getCurrentGraph (shim w2)) !! "/a.md") ∧
  (λ e, match e with UIUpdate cb _ => Some cb | _ => None end) <$> trace w2
  = [None; None; None; None; Some 1%nat; None; Some 1%nat].
Proof. vm_compute. repeat split. by eexists. Qed.

(** C7 at work: the backend is down, so the write and the delete both fail;
    the edit still reaches the graph, the history, the UI and the
    fingerprint. *)
Lemma applyGraphDelta_local_edit_witness :
  ∃ w',
    applyGraphDelta content unreachableBackend
      [UpsertNode (plainNode "/b" "# B" None); DeleteNode "/a.md"] loadedWorld
    = (Normal (), w') ∧
    _undoStack (shim w') = [getCurrentGraph (shim loadedWorld)] ∧
    _currentGraph (shim w') = Some {| nodes := {["/b" := plainNode "/b" "# B" None]} |} ∧
    _lastFileFingerprint (shim w') = "" ∧
    trace w' = [Fetched (WriteNodeRequest "/b.md" "# B") NetworkError;
                Fetched (DeleteNodeRequest "/a.md") NetworkError;
                UIUpdate 1 [UpsertNode (plainNode "/b" "# B" None); DeleteNode "/a.md"]].
Proof.
  destruct (applyGraphDelta_local_edit content unreachableBackend
              [UpsertNode (plainNode "/b" "# B" None); DeleteNode "/a.md"] loadedWorld)
    as (w' & events & Hrun & Hhistory & Hcur & Hfp & Htrace & Hevents).
  - discriminate.
  - exists w'. split; [exact Hrun|].
    split; [exact (proj1 Hhistory)|]. split; [rewrite Hcur; by vm_compute|].
    split; [exact Hfp|].
    apply (f_equal (λ r, trace r.2)) in Hrun. cbn [snd] in Hrun.
    rewrite <- Hrun. by vm_compute.
Defined.

(** C7, the claim refuted: the first local edit, made before any graph was
    loaded and without a backend port, records no snapshot for undo and
    sends nothing to the backend. *)
Lemma first_edit_takes_no_snapshot_and_writes_nothing :
  let w' := (applyGraphDelta content (servesListing [])
               [UpsertNode (plainNode "/a.md" "# A" None)] (initialWorld None)).2 in
  _undoStack (shim w') = [] ∧
  trace w' = [] ∧
  _currentGraph (shim w') = Some {| nodes := {["/a.md" := plainNode "/a.md" "# A" None]} |}.
Proof. by vm_compute. Qed.

(** C8 at work: thirty-two edits in a row fill the undo stack to its
    capacity of thirty, the first edit having found no graph to record and
    the last having evicted the oldest snapshot. *)
Example undo_stack_full_after_many_edits :
  let w := run projectPath content wikiLinkTargets unreachableBackend
             (replicate 32 (CallApplyGraphDelta [UpsertNode (plainNode "/a.md" "# A" None)]))
             freshWorld in
  length (_undoStack (shim w)) = 30%nat ∧ length (_redoStack (shim w)) = 0%nat.
Proof. by vm_compute. Qed.

(** C9 at work: after an undo, the poll is a no-op until the timer fires. *)
Example poll_after_undo_is_suppressed :
  let w := run projectPath content wikiLinkTargets (servesListing [fileA])
             [CallOnGraphUpdate 1; CallTimer RunLoadAndPushGraph;
              CallApplyGraphDelta [UpsertNode (plainNode "/b.md" "# B" None)];
              CallPerformUndo]
             freshWorld in
  loadAndPushGraph projectPath wikiLinkTargets (servesListing [fileA]) w = (Normal false, w) ∧
  (loadAndPushGraph projectPath wikiLinkTargets (servesListing [fileA])
     (exec projectPath content wikiLinkTargets (servesListing [fileA]) w
        (CallTimer ClearSuppressPolling))).1 = Normal true.
Proof. by vm_compute. Qed.

(** X4 at work: [/long.md] was loaded when it ended in [old] and now ends
    in [new], 200 characters into the file: the poll stops at the gate. *)
Lemma change_beyond_the_sample_is_not_noticed_witness :
  loadAndPushGraph projectPath wikiLinkTargets (servesListing [longFile "new"]) longWorld
  = (Normal false, afterFetch projectPath (servesListing [longFile "new"]) longWorld) ∧
  shim (loadAndPushGraph projectPath wikiLinkTargets
          (servesListing [longFile "new"]) longWorld).2 = shim longWorld.
Proof.
  apply (change_beyond_the_sample_is_not_noticed projectPath wikiLinkTargets
           (servesListing [longFile "new"]) longWorld [longFile "old"] [longFile "new"]).
  - repeat split.
  - reflexivity.
  - repeat constructor.
Defined.

(** X5 at work: the backend is down. *)
Lemma poll_without_listing_changes_nothing_witness :
  ∃ events,
    loadAndPushGraph projectPath wikiLinkTargets unreachableBackend loadedWorld
    = (Normal false, {| shim := shim loadedWorld; trace := trace loadedWorld ++ events |}) ∧
    Forall isRequest events.
Proof.
  apply (poll_without_listing_changes_nothing projectPath wikiLinkTargets
           unreachableBackend loadedWorld).
  intros files (_ & _ & Hout). discriminate Hout.
Defined.

(** X6 at work: the listing is the one the stored fingerprint was computed
    from, and the refresh rebuilds the graph all the same. *)
Lemma refresh_rebuilds_whatever_the_fingerprint_witness :
  ∃ w' delta,
    refreshGraphFromBackend projectPath wikiLinkTargets (servesListing [fileA]) loadedWorld
    = (Normal (), w') ∧
    fingerprintOf [fileA] = _lastFileFingerprint (shim loadedWorld) ∧
    last (trace w') = Some (UIUpdate 1 delta).
Proof.
  destruct (refresh_rebuilds_whatever_the_fingerprint projectPath wikiLinkTargets
              (servesListing [fileA]) loadedWorld [fileA]) as [Hrun _].
  - repeat split.
  - discriminate.
  - eexists _, _. split; [exact Hrun|]. split; reflexivity.
Defined.

(** X7 at work: the first poll of a fresh shim, then a forced refresh. *)
Lemma refresh_after_rebuild_changes_no_graph_witness :
  shim (refreshGraphFromBackend projectPath wikiLinkTargets (servesListing [fileA; fileB])
          (loadAndPushGraph projectPath wikiLinkTargets (servesListing [fileA; fileB])
             {| shim := set_lastFileFingerprint "-" (shim freshWorld); trace := [] |}).2).2
  = shim (loadAndPushGraph projectPath wikiLinkTargets (servesListing [fileA; fileB])
            {| shim := set_lastFileFingerprint "-" (shim freshWorld); trace := [] |}).2.
Proof.
  apply (refresh_after_rebuild_changes_no_graph projectPath wikiLinkTargets
           (servesListing [fileA; fileB])
           {| shim := set_lastFileFingerprint "-" (shim freshWorld); trace := [] |}
           [fileA; fileB]).
  - repeat split.
  - discriminate.
  - vm_compute. discriminate.
  - split; [by vm_compute|]. split; [by vm_compute|reflexivity].
Defined.

(** X8 at work: [/a.md] is dragged to (10,20), and its file is edited on
    disk before the next poll. *)
Lemma saved_position_survives_rebuild_witness :
  ∃ n,
    nodes (getCurrentGraph (shim
      (loadAndPushGraph projectPath wikiLinkTargets
         (servesListing [ {| path := "/a.md"; fileContent := "# A, edited" |} ])
         (saveNodePositions
            [ {| data_id := "/a.md"; cyPosition := Some at_10_20 |};
              {| data_id := "/none.md"; cyPosition := Some {| pos_x := 0; pos_y := 0 |} |} ]
            loadedWorld).2).2)) !! "/a.md" = Some n ∧
    positionOf (Some n) = Some at_10_20 ∧
    content n = "# A, edited".
Proof.
  destruct (saved_position_survives_rebuild projectPath wikiLinkTargets
              (servesListing [ {| path := "/a.md"; fileContent := "# A, edited" |} ])
              loadedWorld
              {| nodes := list_to_map [("/a.md", plainNode "/a.md" "# A" None)] |}
              []
              [ {| data_id := "/none.md"; cyPosition := Some {| pos_x := 0; pos_y := 0 |} |} ]
              "/a.md" at_10_20
              [ {| path := "/a.md"; fileContent := "# A, edited" |} ])
    as (_ & n & Hn & Hpos & Hcontent).
  - reflexivity.
  - eexists. by vm_compute.
  - repeat constructor. intros H. discriminate H.
  - split; [by vm_compute|]. split; [by vm_compute|reflexivity].
  - discriminate.
  - vm_compute. discriminate.
  - apply list_elem_of_here.
  - exists n. split; [exact Hn|]. split; [exact Hpos|].
    vm_compute in Hcontent. by injection Hcontent.
Defined.

(** X9 at work: [/a.md] is edited and the edit undone, the backend being
    down all the while. *)
Lemma undo_reverts_local_edit_witness :
  let w2 := (performUndo
               (applyGraphDelta content unreachableBackend
                  [UpsertNode (plainNode "/a.md" "# A2" None)] loadedWorld).2).2 in
  _currentGraph (shim w2) = _currentGraph (shim loadedWorld) ∧
  _undoStack (shim w2) = [].
Proof.
  destruct (undo_reverts_local_edit content unreachableBackend
              [UpsertNode (plainNode "/a.md" "# A2" None)] loadedWorld
              {| nodes := list_to_map [("/a.md", plainNode "/a.md" "# A" None)] |})
    as (Hcur & _ & Hundo & _).
  - discriminate.
  - reflexivity.
  - cbn zeta. split; [exact Hcur|exact Hundo].
Defined.

(** X10 at work: [/a.md] is edited, the edit is undone, the suppression
    ends, and the next poll finds the edited file on disk: the graph has
    the edit again. *)
Lemma undo_is_replaced_by_the_next_poll_witness :
  let edited := {| path := "/a.md"; fileContent := "# A2" |} in
  let w := (applyGraphDelta content (servesListing [edited])
              [UpsertNode (plainNode "/a.md" "# A2" None)] loadedWorld).2 in
  let w1 := (performUndo w).2 in
  let w2 := (timerFires projectPath wikiLinkTargets (servesListing [edited])
               ClearSuppressPolling w1).2 in
  content <$> nodes (getCurrentGraph (shim w1)) !! "/a.md" = Some "# A" ∧
  content <$> nodes (getCurrentGraph (shim
      (loadAndPushGraph projectPath wikiLinkTargets (servesListing [edited]) w2).2))
    !! "/a.md" = Some "# A2".
Proof.
  cbn zeta.
  destruct (undo_is_replaced_by_the_next_poll projectPath wikiLinkTargets
              (servesListing [ {| path := "/a.md"; fileContent := "# A2" |} ])
              (applyGraphDelta content
                 (servesListing [ {| path := "/a.md"; fileContent := "# A2" |} ])
                 [UpsertNode (plainNode "/a.md" "# A2" None)] loadedWorld).2
              []
              {| nodes := list_to_map [("/a.md", plainNode "/a.md" "# A" None)] |}
              1%nat
              [ {| path := "/a.md"; fileContent := "# A2" |} ])
    as (_ & _ & _ & Hcur).
  - by vm_compute.
  - by vm_compute.
  - split; [by vm_compute|]. split; [by vm_compute|reflexivity].
  - discriminate.
  - split; [by vm_compute|].
    unfold getCurrentGraph. rewrite Hcur. by vm_compute.
Defined.

(** X14 at work: a load and a save started in the same millisecond have
    different request ids; the load is answered, the save times out, and
    each promise has been resolved once. *)
Lemma settings_request_resolved_once_witness :
  timesResolved 0 (bridgeRun settingsSession) = 1 ∧
  timesResolved 1 (bridgeRun settingsSession) = 1.
Proof.
  destruct (settings_request_resolved_once settingsSession) as [_ Hall].
  - apply (bool_decide_unpack _). by vm_compute.
  - assert (∀ p, ¬ awaitsTimer p (bridgeRun settingsSession)) as Hfired.
    { intros p (t & Ht & _). vm_compute in Ht. by apply elem_of_nil in Ht. }
    split; apply Hall; try apply Hfired; vm_compute; lia.
Defined.

(** X15 at work: the first load of a session, answered in time or not. *)
Lemma settings_answer_races_timer_witness :
  resolveCalls (bridgeRun [StartLoad 7; Message (settingsAnswer 7 "light"); TimerFires 0])
  = [(0, Some "light")] ∧
  resolveCalls (bridgeRun [StartLoad 7; TimerFires 0; Message (settingsAnswer 7 "light")])
  = [(0, None)].
Proof.
  destruct (settings_answer_races_timer bridgeInitial 7 (settingsAnswer 7 "light"))
    as (_ & Hanswered & HtimedOut & _).
  - by left.
  - reflexivity.
  - split; [exact Hanswered|exact HtimedOut].
Defined.

(** X16 at work: two loads at the same time, answered once. *)
Lemma settings_loads_in_one_millisecond_witness :
  resolveCalls (bridgeRun [StartLoad 7; StartLoad 7; Message (settingsAnswer 7 "light");
                           TimerFires 0; TimerFires 0])
  = [(1, Some "light")] ∧
  resolveCalls (bridgeRun [StartLoad 7; StartLoad 7; TimerFires 0; TimerFires 0;
                           Message (settingsAnswer 7 "light")])
  = [(0, None)].
Proof.
  destruct (settings_loads_in_one_millisecond bridgeInitial 7 (settingsAnswer 7 "light"))
    as (_ & Hanswered & HtimedOut & _).
  - by left.
  - reflexivity.
  - split; [exact Hanswered|exact HtimedOut].
Defined.

Example toBase36_example :
  toBase36 0 = "0" ∧ toBase36 35 = "z" ∧ toBase36 36 = "10" ∧ toBase36 1295 = "zz".
Proof. by vm_compute. Qed.

(** X19 at work: the spawn under [t1] is answered by the host, the spawn
    without an id by its timer, under the id made up for it. *)
Lemma spawn_reports_success_with_its_own_id_witness :
  spawnResolved (terminalRun spawnSession)
  = [(1, {| success := true; result_terminalId := Some "t1"; error := None |});
     (0, {| success := true; result_terminalId := Some "term-1z"; error := None |})] ∧
  spawnIds spawnSession !! 0 = Some "term-1z".
Proof.
  assert (spawnResolved (terminalRun spawnSession)
          = [(1, {| success := true; result_terminalId := Some "t1"; error := None |});
             (0, {| success := true; result_terminalId := Some "term-1z";
                    error := None |})]) as Hcalls by (by vm_compute).
  split; [exact Hcalls|].
  destruct (spawn_reports_success_with_its_own_id spawnSession 0
              {| success := true; result_terminalId := Some "term-1z"; error := None |})
    as (_ & _ & id & Hid & Hr).
  - rewrite Hcalls. apply list_elem_of_further, list_elem_of_here.
  - rewrite Hid. symmetry. exact Hr.
Defined.
